(** * ai-synapse-ocr: the client's job orchestration layer

    A shallow embedding of the four pieces of the React client that carry
    logic of their own:

    - the stage list of [OCRProcessingPage.jsx] (which pipeline steps are
      shown as done, running or pending for a given job status);
    - the upload progress handler of [uploadService.uploadDocument] and its
      consumer, the [useUpload] hook;
    - the polling loop [ocrService.pollStatus];
    - [queryService.queryDocuments].

    The services talk to the HTTP client, to a caller-supplied callback, to
    the timer and to the console.  They are written as interaction trees over
    one event type, and run against a scripted server by a state handler
    that records every effect in a log.  The stage list and the percent
    computation are pure and are plain functions.

    Around them come their callers: the hooks [useOCR] and [useQuery], which
    run the services' trees with their own callback and state setters; the
    buttons of the processing page, the document filter of the query page
    and the progress bar of the upload page; and the sessions
    ([authService], [AuthContext] and the route guard), written in a small
    state-and-exception monad over the local storage. *)

From Stdlib Require Import String List ZArith QArith Qround Qpower.
From Stdlib Require Import Lia Lqa Bool Sorted.
From ITree Require Import ITree ITreeFacts Events.State Events.StateFacts.
From ITree Require Import Props.Leaf.
Import ListNotations.
Import ITreeNotations.
Local Open Scope string_scope.
Local Open Scope list_scope.
Local Open Scope itree_scope.

(* ===================================================================== *)
(** * JavaScript numbers                                                  *)
(* ===================================================================== *)

(** A JS number is a double.  The finite ones are represented by the
    rational they denote; the three special values are kept, with the IEEE
    rules for producing them.  A product and a quotient are rounded to the
    nearest double, as IEEE 754 has it for the binary64 format: 53
    significant bits, the even significand when two doubles are equally
    near, exponents of the last bit from -1074 (the subnormal numbers) up,
    and an infinity from [2^1024] on.  The sign of zero is not modelled. *)
Module Num.

Inductive number : Type :=
| Finite (q : Q)
| PlusInfinity
| MinusInfinity
| NaN.

(** The number of an integer that a double holds exactly (a literal, a
    result of [Math.round]). *)
Definition of_Z (z : Z) : number := Finite (inject_Z z).

(** The sign of a rational, as a comparison with zero. *)
Definition sign (q : Q) : comparison := (Qnum q ?= 0)%Z.

(** [2^e], for an exponent of either sign. *)
Definition pow2 (e : Z) : Q := 2 ^ e.

(** The exponent of the leading bit of a positive rational: the [k] with
    [2^k <= q < 2^(k+1)]. *)
Definition ilog2 (q : Q) : Z :=
  let k := (Z.log2 (Qnum q) - Z.log2 (Z.pos (Qden q)))%Z in
  if Qle_bool (pow2 k) q then k else (k - 1)%Z.

(** The exponent of the last bit of the double nearest to [q > 0]: 52 below
    the leading bit, and -1074 for the subnormal numbers. *)
Definition ulp_exp (q : Q) : Z := Z.max (ilog2 q - 52) (-1074).

(** The nearest integer, the even one of the two when [q] lies half way. *)
Definition nearest_even (q : Q) : Z :=
  let f := Qfloor q in
  match Qcompare (q - inject_Z f) (1 # 2) with
  | Lt => f
  | Gt => (f + 1)%Z
  | Eq => if Z.even f then f else (f + 1)%Z
  end.

(** [q > 0] rounded to 53 significant bits. *)
Definition round_pos (q : Q) : Q :=
  inject_Z (nearest_even (q / pow2 (ulp_exp q))) * pow2 (ulp_exp q).

(** [q] rounded to 53 significant bits, the exponent unbounded above. *)
Definition rnd (q : Q) : Q :=
  match sign q with
  | Eq => 0
  | Gt => round_pos q
  | Lt => - round_pos (- q)
  end.

(** The double nearest to [q]: an infinity when the rounded magnitude
    reaches [2^1024]. *)
Definition round64 (q : Q) : number :=
  let r := rnd q in
  if Qle_bool (pow2 1024) r then PlusInfinity
  else if Qle_bool r (- pow2 1024) then MinusInfinity
  else Finite r.

(** The positive doubles: the numbers [m * 2^j] of at most 53 bits, from
    the exponent -1074 of the last place on. *)
Definition dyadic (q : Q) (m j : Z) : Prop :=
  q == inject_Z m * pow2 j /\ (0 < m < 2 ^ 53)%Z /\ (-1074 <= j)%Z.

(** The number of an integer of any size (a byte count handed over by the
    browser): the nearest double. *)
Definition nearest (z : Z) : number := round64 (inject_Z z).

Definition neg_inf (n : number) : number :=
  match n with
  | PlusInfinity => MinusInfinity
  | MinusInfinity => PlusInfinity
  | other => other
  end.

(** Infinity scaled by a finite number. *)
Definition inf_times (inf : number) (q : Q) : number :=
  match sign q with
  | Eq => NaN
  | Gt => inf
  | Lt => neg_inf inf
  end.

(** [x * y]: the exact product, rounded. *)
Definition mul (x y : number) : number :=
  match x, y with
  | NaN, _ | _, NaN => NaN
  | Finite a, Finite b => round64 (a * b)
  | Finite a, inf => inf_times inf a
  | inf, Finite b => inf_times inf b
  | PlusInfinity, PlusInfinity | MinusInfinity, MinusInfinity => PlusInfinity
  | PlusInfinity, MinusInfinity | MinusInfinity, PlusInfinity => MinusInfinity
  end.

(** [x / y]: the exact quotient, rounded.  A finite number over zero is an
    infinity of the sign of the numerator, and [0 / 0] is [NaN]. *)
Definition div (x y : number) : number :=
  match x, y with
  | NaN, _ | _, NaN => NaN
  | Finite a, Finite b =>
      match sign b with
      | Eq =>
          match sign a with
          | Eq => NaN
          | Gt => PlusInfinity
          | Lt => MinusInfinity
          end
      | _ => round64 (a / b)
      end
  | Finite _, _ => Finite 0
  | inf, Finite b =>
      match sign b with
      | Lt => neg_inf inf
      | _ => inf
      end
  | _, _ => NaN
  end.

(** [Math.round]: the nearest integer, a tie going towards +Infinity;
    the special values are returned as they are.  No rounding to a double
    takes place here: the nearest integer of a double is a double. *)
Definition Math_round (x : number) : number :=
  match x with
  | Finite q => of_Z (Qfloor (q + (1 # 2)))
  | other => other
  end.

(** [x <= y]; false as soon as one side is [NaN]. *)
Definition leb (x y : number) : bool :=
  match x, y with
  | NaN, _ | _, NaN => false
  | MinusInfinity, _ => true
  | _, PlusInfinity => true
  | Finite a, Finite b => Qle_bool a b
  | _, _ => false
  end.

Definition le (x y : number) : Prop := leb x y = true.

(** [p] is the integer nearest to [x], the upper one of the two when [x]
    lies half way: rounding as the specification means it. *)
Definition rounds_to (x : Q) (p : Z) : Prop :=
  (inject_Z p - (1 # 2) <= x /\ x < inject_Z p + (1 # 2))%Q.

(** [p] is an integer nearest to [x] up to [eps]: [x] may lie beyond a half
    way point by [eps]. *)
Definition rounds_within (eps x : Q) (p : Z) : Prop :=
  (inject_Z p - (1 # 2) - eps <= x /\ x <= inject_Z p + (1 # 2) + eps)%Q.

(** [Number.isInteger] *)
Definition isInteger (x : number) : bool :=
  match x with
  | Finite q => Qeq_bool q (inject_Z (Qfloor q))
  | _ => false
  end.

(** [Number.isFinite] *)
Definition isFinite (x : number) : bool :=
  match x with
  | Finite _ => true
  | _ => false
  end.

End Num.

(* ===================================================================== *)
(** * Payloads of the REST interface                                      *)
(* ===================================================================== *)

(** What the HTTP client ([api], an axios instance) hands back. *)
Module Http.

(** A rejected request.  [detail] is [err.response?.data?.detail]: absent
    as soon as one link of the chain is. *)
Record Error : Type := { message : string; detail : option string }.

Record Response (A : Type) : Type := { data : A }.
Arguments data {A} _.

(** [detail || fallback]: the empty string is falsy too. *)
Definition detail_or (err : Error) (fallback : string) : string :=
  match detail err with
  | Some d => if String.eqb d "" then fallback else d
  | None => fallback
  end.

End Http.

(** The body of [GET /ocr/{id}/status]. *)
Module Job.

Record StatusPayload : Type := {
  status : string;
  page_count : Z;
  table_count : Z;
  processing_time : option Num.number
}.

(** The record [POST /upload/] answers with. *)
Record DocumentJob : Type := {
  id : string;
  filename : string;
  file_size : Z;
  job_status : string
}.

End Job.

(* ===================================================================== *)
(** * The stage list of OCRProcessingPage.jsx                             *)
(* ===================================================================== *)

Module StageModel.

(** [Array.prototype.indexOf]: the first position holding [x], -1 when
    there is none. *)
Fixpoint indexOf_from (l : list string) (x : string) (i : Z) : Z :=
  match l with
  | [] => (-1)%Z
  | y :: rest => if String.eqb y x then i else indexOf_from rest x (i + 1)%Z
  end.

Definition indexOf (l : list string) (x : string) : Z := indexOf_from l x 0%Z.

Record Step : Type := { name : string; status : string }.

(** The array literal the page maps over. *)
Definition steps : list Step :=
  [ {| name := "Preprocessing"; status := "preprocessing" |};
    {| name := "OCR Text Extraction"; status := "ocr_processing" |};
    {| name := "Table Detection"; status := "table_extraction" |};
    {| name := "Embedding Generation"; status := "embedding_generation" |};
    {| name := "Completed"; status := "completed" |} ].

(** The array literal both [indexOf] calls are made on. *)
Definition order : list string :=
  [ "preprocessing"; "ocr_processing"; "table_extraction"; "embedding_generation" ].

(** What [a || (s && b)] evaluates to: a boolean, or [null] when [s] is. *)
Inductive flag : Type :=
| JsBool (b : bool)
| JsNull.

Definition truthy (f : flag) : bool :=
  match f with
  | JsBool b => b
  | JsNull => false
  end.

(** [status?.status === step.status], with the page's [status] state being
    [null] until the first poll answer. *)
Definition isActive (st : option Job.StatusPayload) (step : Step) : bool :=
  match st with
  | None => false
  | Some s => String.eqb (Job.status s) (status step)
  end.

(** [status?.status === 'completed' ||
     (status && order.indexOf(status.status) > order.indexOf(step.status))] *)
Definition isCompleted (st : option Job.StatusPayload) (step : Step) : flag :=
  match st with
  | None => JsNull
  | Some s =>
      if String.eqb (Job.status s) "completed" then JsBool true
      else JsBool (indexOf order (Job.status s) >? indexOf order (status step))%Z
  end.

(** How the round marker of a step is drawn. *)
Inductive marker : Type :=
| CheckMark
| Spinner
| Ordinal (n : nat).

Record StageEntry : Type := {
  entry_name : string;
  entry_isActive : bool;
  entry_isCompleted : flag;
  entry_marker : marker
}.

Definition render_step (st : option Job.StatusPayload) (index : nat) (step : Step)
  : StageEntry :=
  let active := isActive st step in
  let completed := isCompleted st step in
  {| entry_name := name step;
     entry_isActive := active;
     entry_isCompleted := completed;
     entry_marker :=
       if truthy completed then CheckMark
       else if active then Spinner
       else Ordinal (index + 1) |}.

(** [xs.map((x, index) => f x index)] *)
Fixpoint mapi_from {A B : Type} (f : nat -> A -> B) (i : nat) (l : list A) : list B :=
  match l with
  | [] => []
  | x :: rest => f i x :: mapi_from f (S i) rest
  end.

Definition stage_list (st : option Job.StatusPayload) : list StageEntry :=
  mapi_from (render_step st) 0 steps.

(** An entry's name and two flags. *)
Definition flags (e : StageEntry) : string * bool * flag :=
  (entry_name e, entry_isActive e, entry_isCompleted e).

(** Neither active nor completed. *)
Definition idle (e : StageEntry) : Prop :=
  entry_isActive e = false /\ entry_isCompleted e = JsBool false.

End StageModel.

(* ===================================================================== *)
(** * Upload: uploadService.uploadDocument and the useUpload hook         *)
(* ===================================================================== *)

Module Transport.

Record File : Type := { file_name : string; file_bytes : Z }.

(** [FormData]: the appended fields, in order. *)
Definition FormData : Type := list (string * File).

Record ProgressEvent : Type := { loaded : Num.number; total : Num.number }.

(** What one multipart POST does: it fires its progress events, then the
    promise settles. *)
Record Transfer : Type := {
  ticks : list ProgressEvent;
  outcome : Http.Error + Http.Response Job.DocumentJob
}.

(** The progress event of [l] bytes sent out of [t]: the counts reach the
    handler as numbers. *)
Definition tick (l t : Z) : ProgressEvent :=
  {| loaded := Num.nearest l; total := Num.nearest t |}.

(** The server side of [api.post(url, formData, config)]. *)
Definition Server : Type := string -> FormData -> Transfer.

(** [api.post] with an [onUploadProgress] handler whose effects are
    collected in a list: the handler runs once per tick, in order. *)
Definition post {C : Type} (server : Server) (url : string) (formData : FormData)
    (onUploadProgress : ProgressEvent -> list C)
  : list C * (Http.Error + Http.Response Job.DocumentJob) :=
  let t := server url formData in
  (flat_map onUploadProgress (ticks t), outcome t).

End Transport.

Module uploadService.

Import Transport.

(** [Math.round((progressEvent.loaded * 100) / progressEvent.total)] *)
Definition percentCompleted (progressEvent : ProgressEvent) : Num.number :=
  Num.Math_round
    (Num.div (Num.mul (loaded progressEvent) (Num.of_Z 100)) (total progressEvent)).

(** The exact percentage in integer arithmetic, for [l] bytes out of [t]:
    [l * 100 / t + 1 / 2], rounded down. *)
Definition pct (t l : Z) : Z := ((200 * l + t) / (2 * t))%Z.

(** The quotient the handler computes for [l] bytes out of [t], when
    every step of it is finite: each operand, the product and the quotient
    are rounded in turn. *)
Definition quotient (t l : Z) : Q :=
  Num.rnd (Num.rnd (Num.rnd (inject_Z l) * inject_Z 100) / Num.rnd (inject_Z t)).

(** The [onUploadProgress] arrow function; [onProgress?.(p)] does nothing
    when no callback was passed. *)
Definition onUploadProgress {C : Type} (onProgress : option (Num.number -> list C))
    (progressEvent : ProgressEvent) : list C :=
  match onProgress with
  | Some callback => callback (percentCompleted progressEvent)
  | None => []
  end.

Definition uploadDocument {C : Type} (server : Server) (file : File)
    (onProgress : option (Num.number -> list C))
  : list C * (Http.Error + Job.DocumentJob) :=
  let formData := [("file", file)] in
  let (effects, settled) := post server "/upload/" formData (onUploadProgress onProgress) in
  match settled with
  | inr response => (effects, inr (Http.data response))
  | inl err => (effects, inl err)
  end.

End uploadService.

Module useUpload.

(** The three pieces of React state of the hook. *)
Record State : Type := {
  uploading : bool;
  progress : Num.number;
  error : option string
}.

(** A call of one of the three state setters. *)
Inductive Setter : Type :=
| setUploading (b : bool)
| setProgress (p : Num.number)
| setError (e : option string).

Definition apply (s : State) (c : Setter) : State :=
  match c with
  | setUploading b => {| uploading := b; progress := progress s; error := error s |}
  | setProgress p => {| uploading := uploading s; progress := p; error := error s |}
  | setError e => {| uploading := uploading s; progress := progress s; error := e |}
  end.

Definition run (s : State) (calls : list Setter) : State := fold_left apply calls s.

(** The initial [useState] values. *)
Definition initial : State :=
  {| uploading := false; progress := Num.of_Z 0; error := None |}.

(** The values the progress consumer is given, in order. *)
Definition progress_values (calls : list Setter) : list Num.number :=
  flat_map (fun c => match c with setProgress p => [p] | _ => [] end) calls.

Inductive Result : Type :=
| Success (data : Job.DocumentJob)
| Failure (error : option string).

(** The hook's [uploadDocument]: the setter calls it makes, and its result. *)
Definition uploadDocument (server : Transport.Server) (file : Transport.File)
  : list Setter * Result :=
  let before := [setUploading true; setError None; setProgress (Num.of_Z 0)] in
  let (during, r) :=
    uploadService.uploadDocument server file (Some (fun percent => [setProgress percent])) in
  match r with
  | inr result =>
      (before ++ during ++ [setUploading false; setProgress (Num.of_Z 100)],
       Success result)
  | inl err =>
      (before ++ during
         ++ [setUploading false; setError (Some (Http.detail_or err "Upload failed"))],
       Failure (Http.detail err))
  end.

Definition reset : list Setter :=
  [setUploading false; setProgress (Num.of_Z 0); setError None].

End useUpload.

(* ===================================================================== *)
(** * The services that await the HTTP client                             *)
(* ===================================================================== *)

(** A parameter with a default value: the default applies when the argument
    is absent ([undefined]), and only then. *)
Module Param.

Inductive Arg (A : Type) : Type :=
| Absent
| Given (a : A).
Arguments Absent {A}.
Arguments Given {A} a.

Definition default_to {A : Type} (d : A) (arg : Arg A) : A :=
  match arg with
  | Absent => d
  | Given a => a
  end.

End Param.

Module Query.

Record Citation : Type := {
  page_number : Z;
  table_id : option string;
  text_snippet : string;
  citation_confidence : Num.number
}.

(** The body of the answer to [POST /query/]. *)
Record Answer : Type := {
  answer_query : string;
  answer : string;
  confidence : Num.number;
  processing_time : Num.number;
  citations : list Citation
}.

(** The request body; [document_ids = None] is [null]. *)
Record Body : Type := {
  query : string;
  document_ids : option (list string);
  top_k : Z
}.

End Query.

Module Effects.

(** The effects of [ocrService] and [queryService]; an event's index is the
    type of what the program gets back.  A request or a callback that
    throws answers [inl]. *)
Variant serviceE : Type -> Type :=
| api_get (url : string)
  : serviceE (Http.Error + Http.Response Job.StatusPayload)
| api_post (url : string) (body : Query.Body)
  : serviceE (Http.Error + Http.Response Query.Answer)
| call_onUpdate (observation : Job.StatusPayload) : serviceE (Http.Error + unit)
| setTimeout (ms : Z) : serviceE unit
| console_error (label : string) (err : Http.Error) : serviceE unit.

(** One entry of the log per event handled. *)
Inductive Effect : Type :=
| Fetched (url : string)
| Posted (url : string) (body : Query.Body)
| Delivered (observation : Job.StatusPayload)
| Waited (ms : Z)
| Logged (label : string) (err : Http.Error).

Record World : Type := {
  requests : nat;          (* requests answered so far *)
  log : list Effect        (* oldest first *)
}.

Definition start : World := {| requests := 0; log := [] |}.

Definition note (w : World) (e : Effect) : World :=
  {| requests := requests w; log := log w ++ [e] |}.

Definition served (w : World) (e : Effect) : World :=
  {| requests := S (requests w); log := log w ++ [e] |}.

(** The environment of a run: what the server answers to the n-th request,
    and what the caller's callback does (it sees the world it is called
    in). *)
Record Script : Type := {
  get_reply : nat -> Http.Error + Http.Response Job.StatusPayload;
  post_reply : nat -> Http.Error + Http.Response Query.Answer;
  onUpdate : World -> Job.StatusPayload -> Http.Error + unit
}.

Definition handle (sc : Script) : serviceE ~> Monads.stateT World (itree void1) :=
  fun T e w =>
    match e in serviceE T return itree void1 (World * T) with
    | api_get url => Ret (served w (Fetched url), get_reply sc (requests w))
    | api_post url body => Ret (served w (Posted url body), post_reply sc (requests w))
    | call_onUpdate s => Ret (note w (Delivered s), onUpdate sc w s)
    | setTimeout ms => Ret (note w (Waited ms), tt)
    | console_error label err => Ret (note w (Logged label err), tt)
    end.

Definition run {R : Type} (sc : Script) (t : itree serviceE R) (w : World)
  : itree void1 (World * R) :=
  interp_state (handle sc) t w.

(** Projections of a log. *)
Definition fetches (l : list Effect) : list string :=
  flat_map (fun e => match e with Fetched url => [url] | _ => [] end) l.

Definition deliveries (l : list Effect) : list Job.StatusPayload :=
  flat_map (fun e => match e with Delivered s => [s] | _ => [] end) l.

(** Between any two consecutive fetches of a log lies a wait of [ms]:
    [armed] tells whether a fetch has been seen with no wait since. *)
Fixpoint spaced_from (ms : Z) (armed : bool) (l : list Effect) : bool :=
  match l with
  | [] => true
  | Fetched _ :: rest => negb armed && spaced_from ms true rest
  | Waited d :: rest => if Z.eqb d ms then spaced_from ms false rest
                        else spaced_from ms armed rest
  | _ :: rest => spaced_from ms armed rest
  end.

Definition spaced (ms : Z) (l : list Effect) : bool := spaced_from ms false l.

End Effects.

Module ocrService.

Import Effects.

Definition status_url (documentId : string) : string :=
  ("/ocr/" ++ documentId ++ "/status")%string.

Definition getProcessingStatus (documentId : string)
  : itree serviceE (Http.Error + Job.StatusPayload) :=
  settled <- ITree.trigger (api_get (status_url documentId));;
  match settled with
  | inr response => Ret (inr (Http.data response))
  | inl err => Ret (inl err)
  end.

(** [s === 'completed' || s === 'failed'] *)
Definition terminal (s : string) : bool :=
  String.eqb s "completed" || String.eqb s "failed".

(** One activation of the inner [poll]: [inl tt] stands for the tail call
    [return poll()], [inr] for what the promise settles with, [inr (inl e)]
    being a rejection.  The [catch] clause covers the fetch and the
    callback; the promise of the tail call is returned without being
    awaited, so a rejection further down the chain is not caught again. *)
Definition poll (documentId : string) (interval : Z) (_ : unit)
  : itree serviceE (unit + (Http.Error + Job.StatusPayload)) :=
  fetched <- getProcessingStatus documentId;;
  match fetched with
  | inl error =>
      ITree.trigger (console_error "Polling error:" error);;
      Ret (inr (inl error))
  | inr status =>
      called <- ITree.trigger (call_onUpdate status);;
      match called with
      | inl error =>
          ITree.trigger (console_error "Polling error:" error);;
          Ret (inr (inl error))
      | inr _ =>
          if terminal (Job.status status) then Ret (inr (inr status))
          else
            ITree.trigger (setTimeout interval);;
            Ret (inl tt)
      end
  end.

Definition pollStatus (documentId : string) (interval : Param.Arg Z)
  : itree serviceE (Http.Error + Job.StatusPayload) :=
  ITree.iter (poll documentId (Param.default_to 2000%Z interval)) tt.

(** ** Vocabulary for runs of the loop *)

(** What one activation of [poll] does in world [w] under a script, as a
    function: the world it leaves, and what [poll] returns (lemma
    [run_poll] proves that this is what the tree does). *)
Definition poll_outcome (sc : Script) (documentId : string) (interval : Z) (w : World)
  : World * (unit + (Http.Error + Job.StatusPayload)) :=
  let w1 := served w (Fetched (status_url documentId)) in
  match get_reply sc (requests w) with
  | inl error => (note w1 (Logged "Polling error:" error), inr (inl error))
  | inr response =>
      let status := Http.data response in
      let w2 := note w1 (Delivered status) in
      match onUpdate sc w1 status with
      | inl error => (note w2 (Logged "Polling error:" error), inr (inl error))
      | inr _ =>
          if terminal (Job.status status) then (w2, inr (inr status))
          else (note w2 (Waited interval), inl tt)
      end
  end.

(** The callback never throws. *)
Definition callback_returns (sc : Script) : Prop :=
  forall w s, onUpdate sc w s = inr tt.

(** A successful fetch whose body is [s]. *)
Definition ok (s : Job.StatusPayload) : Http.Error + Http.Response Job.StatusPayload :=
  inr {| Http.data := s |}.

(** From request number [k] on, the fetches succeed with the bodies [obs],
    in this order. *)
Definition answers (sc : Script) (k : nat) (obs : list Job.StatusPayload) : Prop :=
  forall i s, nth_error obs i = Some s -> get_reply sc (k + i) = ok s.

(** A status after which the loop goes on. *)
Definition pending (s : Job.StatusPayload) : Prop :=
  terminal (Job.status s) = false.

(** The values delivered to the callback so far are the bodies of the
    replies so far, in the order of the requests. *)
Definition in_fetch_order (sc : Script) (w : World) : Prop :=
  List.map ok (deliveries (log w)) = List.map (get_reply sc) (seq 0 (requests w)).

(** The effects of one round that ends in the tail call. *)
Definition round (documentId : string) (interval : Z) (s : Job.StatusPayload)
  : list Effect :=
  [Fetched (status_url documentId); Delivered s; Waited interval].

End ocrService.

Module queryService.

Import Effects.

Definition queryDocuments (query : string)
    (documentIds : Param.Arg (option (list string))) (topK : Param.Arg Z)
  : itree serviceE (Http.Error + Query.Answer) :=
  let documentIds := Param.default_to None documentIds in
  let topK := Param.default_to 5%Z topK in
  settled <- ITree.trigger
    (api_post "/query/"
       {| Query.query := query;
          Query.document_ids := documentIds;
          Query.top_k := topK |});;
  match settled with
  | inr response => Ret (inr (Http.data response))
  | inl err => Ret (inl err)
  end.

End queryService.

(* ===================================================================== *)
(** * Sample runs                                                         *)
(* ===================================================================== *)

(** The scenarios of the specification's section 8, as scripts. *)
Module Example.

Import Effects.

Definition observation (s : string) : Job.StatusPayload :=
  {| Job.status := s; Job.page_count := 2; Job.table_count := 1;
     Job.processing_time := None |}.

Definition network_error : Http.Error :=
  {| Http.message := "Network Error"; Http.detail := None |}.

Definition answer : Query.Answer :=
  {| Query.answer_query := "total due?"; Query.answer := "42";
     Query.confidence := Num.of_Z 1; Query.processing_time := Num.of_Z 2;
     Query.citations :=
       [ {| Query.page_number := 1; Query.table_id := None;
            Query.text_snippet := "Total due: 42";
            Query.citation_confidence := Num.of_Z 1 |} ] |}.

(** A server that answers the status requests from a list and then keeps
    answering [after]; its one query answer is [answer]; the callback
    returns. *)
Definition script
    (gets : list (Http.Error + Http.Response Job.StatusPayload))
    (after : Http.Error + Http.Response Job.StatusPayload) : Script :=
  {| get_reply := fun n => nth n gets after;
     post_reply := fun _ => inr {| Http.data := answer |};
     onUpdate := fun _ _ => inr tt |}.

(** preprocessing, ocr_processing, completed *)
Definition completes : Script :=
  script [ ocrService.ok (observation "preprocessing");
           ocrService.ok (observation "ocr_processing") ]
         (ocrService.ok (observation "completed")).

(** preprocessing, then the network fails *)
Definition breaks : Script :=
  script [ ocrService.ok (observation "preprocessing") ] (inl network_error).



End Example.

(* ===================================================================== *)
(** * The hooks that drive the services                                   *)
(* ===================================================================== *)

(** A hook runs a service and calls its React state setters along the way.
    Its effects are those of the services, the request that starts the
    pipeline, and the setter calls. *)
Module Hook.

Import Effects.

(** [api.post(url, { engines })]; [engines = None] is [null]. *)
Variant processE : Type -> Type :=
| api_post_process (url : string) (engines : option (list string))
  : processE (Http.Error + Http.Response string).

(** A call of one of the hook's state setters. *)
Variant setE (C : Type) : Type -> Type :=
| call (c : C) : setE C unit.
Arguments call {C} c.

Definition hookE (C : Type) : Type -> Type := serviceE +' processE +' setE C.

(** What a run leaves behind besides the world of the services: the start
    requests and the setter calls, oldest first. *)
Inductive Entry (C : Type) : Type :=
| Started (url : string) (engines : option (list string))
| Called (c : C).
Arguments Started {C} url engines.
Arguments Called {C} c.

Definition calls {C : Type} (l : list (Entry C)) : list C :=
  flat_map (fun e => match e with Called c => [c] | Started _ _ => [] end) l.

Record Env : Type := {
  script : Script;
  process_reply : nat -> Http.Error + Http.Response string
}.

(** A request answered outside the services' log. *)
Definition counted (w : World) : World :=
  {| requests := S (requests w); log := log w |}.

Definition handle {C : Type} (env : Env)
  : hookE C ~> Monads.stateT (World * list (Entry C)) (itree void1) :=
  fun T e s =>
    match e with
    | inl1 e' =>
        ITree.bind (Effects.handle (script env) T e' (fst s))
          (fun wx => Ret ((fst wx, snd s), snd wx))
    | inr1 (inl1 e') =>
        match e' in processE T return itree void1 ((World * list (Entry C)) * T) with
        | api_post_process url engines =>
            Ret ((counted (fst s), snd s ++ [Started url engines]),
                 process_reply env (requests (fst s)))
        end
    | inr1 (inr1 e') =>
        match e' in setE _ T return itree void1 ((World * list (Entry C)) * T) with
        | call c => Ret ((fst s, snd s ++ [Called c]), tt)
        end
    end.

Definition run {C R : Type} (env : Env) (t : itree (hookE C) R)
    (s : World * list (Entry C))
  : itree void1 ((World * list (Entry C)) * R) :=
  interp_state (handle env) t s.

(** A service request made from a hook. *)
Definition service {C T : Type} (e : serviceE T) : itree (hookE C) T :=
  ITree.trigger (inl1 e).

Definition set {C : Type} (c : C) : itree (hookE C) unit :=
  ITree.trigger (inr1 (inr1 (call c))).

(** Passing a callback to a service: where the service calls [onUpdate],
    the callback's body runs; its other effects are the hook's. *)
Definition with_callback {C : Type} (callback : Job.StatusPayload -> itree (hookE C) unit)
  : serviceE ~> itree (hookE C) :=
  fun T e =>
    match e in serviceE T return itree (hookE C) T with
    | call_onUpdate observation => callback observation;; Ret (inr tt)
    | api_get url => service (api_get url)
    | api_post url body => service (api_post url body)
    | setTimeout ms => service (setTimeout ms)
    | console_error label err => service (console_error label err)
    end.

(** A service called with no callback. *)
Definition plain {C : Type} : serviceE ~> itree (hookE C) :=
  fun T e => service e.

End Hook.

Module useOCR.

Import Effects Hook.

Record State : Type := {
  processing : bool;
  status : option Job.StatusPayload;
  error : option string
}.

Inductive Setter : Type :=
| setProcessing (b : bool)
| setStatus (s : option Job.StatusPayload)
| setError (e : option string).

Definition apply (s : State) (c : Setter) : State :=
  match c with
  | setProcessing b => {| processing := b; status := status s; error := error s |}
  | setStatus st => {| processing := processing s; status := st; error := error s |}
  | setError e => {| processing := processing s; status := status s; error := e |}
  end.

Definition after (s : State) (l : list (Entry Setter)) : State :=
  fold_left apply (calls l) s.

(** The initial [useState] values. *)
Definition initial : State :=
  {| processing := false; status := None; error := None |}.

Inductive Result : Type :=
| Success
| Failure (error : option string).

Definition process_url (documentId : string) : string :=
  ("/ocr/" ++ documentId ++ "/process")%string.

(** [ocrService.startProcessing(documentId, engines = null)] *)
Definition ocrService_startProcessing (documentId : string)
    (engines : Param.Arg (option (list string)))
  : itree (hookE Setter) (Http.Error + string) :=
  settled <- ITree.trigger
    (inr1 (inl1 (api_post_process (process_url documentId)
                   (Param.default_to None engines))));;
  match settled with
  | inr response => Ret (inr (Http.data response))
  | inl err => Ret (inl err)
  end.

(** The callback the hook passes to [pollStatus]. *)
Definition onStatusUpdate (statusUpdate : Job.StatusPayload) : itree (hookE Setter) unit :=
  set (setStatus (Some statusUpdate));;
  if ocrService.terminal (Job.status statusUpdate)
  then set (setProcessing false)
  else Ret tt.

(** The [catch] clause. *)
Definition failed (err : Http.Error) : itree (hookE Setter) Result :=
  set (setProcessing false);;
  set (setError (Some (Http.detail_or err "Processing failed")));;
  Ret (Failure (Http.detail err)).

Definition startProcessing (documentId : string)
    (engines : Param.Arg (option (list string)))
  : itree (hookE Setter) Result :=
  set (setProcessing true);;
  set (setError None);;
  started <- ocrService_startProcessing documentId (Param.Given (Param.default_to None engines));;
  match started with
  | inl err => failed err
  | inr _ =>
      polled <- interp (with_callback onStatusUpdate)
                  (ocrService.pollStatus documentId Param.Absent);;
      match polled with
      | inl err => failed err
      | inr _ => Ret Success
      end
  end.

Definition reset : list Setter :=
  [setProcessing false; setStatus None; setError None].

(** ** Vocabulary for runs of the hook *)

(** One activation of [poll] with the hook's callback passed in. *)
Definition poll (documentId : string) (u : unit)
  : itree (hookE Setter) (unit + (Http.Error + Job.StatusPayload)) :=
  interp (with_callback onStatusUpdate) (ocrService.poll documentId 2000%Z u).

(** What that activation does in state [s], as a function (lemma
    [run_poll_in_hook] proves that this is what the tree does). *)
Definition poll_outcome (env : Env) (documentId : string)
    (s : World * list (Entry Setter))
  : (World * list (Entry Setter)) * (unit + (Http.Error + Job.StatusPayload)) :=
  let w1 := served (fst s) (Fetched (ocrService.status_url documentId)) in
  match get_reply (script env) (requests (fst s)) with
  | inl err => ((note w1 (Logged "Polling error:" err), snd s), inr (inl err))
  | inr response =>
      let observation := Http.data response in
      if ocrService.terminal (Job.status observation)
      then ((w1, snd s ++ [Called (setStatus (Some observation));
                           Called (setProcessing false)]),
            inr (inr observation))
      else ((note w1 (Waited 2000),
             snd s ++ [Called (setStatus (Some observation))]),
            inl tt)
  end.

(** The entries a run starts with: the two setter calls and the request. *)
Definition opening (documentId : string) (engines : Param.Arg (option (list string)))
  : list (Entry Setter) :=
  [Called (setProcessing true); Called (setError None);
   Started (process_url documentId) (Param.default_to None engines)].

(** The entries of the [catch] clause. *)
Definition closing (err : Http.Error) : list (Entry Setter) :=
  [Called (setProcessing false);
   Called (setError (Some (Http.detail_or err "Processing failed")))].

(** The state in which a run of the hook starts. *)
Definition fresh : World * list (Entry Setter) := (start, []).

End useOCR.

Module useQuery.

Import Effects Hook.

Record State : Type := {
  querying : bool;
  result : option Query.Answer;
  error : option string
}.

Inductive Setter : Type :=
| setQuerying (b : bool)
| setResult (r : option Query.Answer)
| setError (e : option string).

Definition apply (s : State) (c : Setter) : State :=
  match c with
  | setQuerying b => {| querying := b; result := result s; error := error s |}
  | setResult r => {| querying := querying s; result := r; error := error s |}
  | setError e => {| querying := querying s; result := result s; error := e |}
  end.

Definition after (s : State) (l : list (Entry Setter)) : State :=
  fold_left apply (calls l) s.

Definition initial : State :=
  {| querying := false; result := None; error := None |}.

Inductive Result : Type :=
| Success (data : Query.Answer)
| Failure (error : option string).

Definition executeQuery (query : string)
    (documentIds : Param.Arg (option (list string))) (topK : Param.Arg Z)
  : itree (hookE Setter) Result :=
  let documentIds := Param.default_to None documentIds in
  let topK := Param.default_to 5%Z topK in
  set (setQuerying true);;
  set (setError None);;
  settled <- interp plain
               (queryService.queryDocuments query (Param.Given documentIds)
                  (Param.Given topK));;
  match settled with
  | inr response =>
      set (setResult (Some response));;
      set (setQuerying false);;
      Ret (Success response)
  | inl err =>
      set (setQuerying false);;
      set (setError (Some (Http.detail_or err "Query failed")));;
      Ret (Failure (Http.detail err))
  end.

Definition reset : list Setter :=
  [setQuerying false; setResult None; setError None].

(** The state in which a run of the hook starts. *)
Definition fresh : World * list (Entry Setter) := (start, []).

(** The body [queryDocuments] posts for the hook. *)
Definition body (query : string) (documentIds : Param.Arg (option (list string)))
    (topK : Param.Arg Z) : Query.Body :=
  {| Query.query := query;
     Query.document_ids := Param.default_to None documentIds;
     Query.top_k := Param.default_to 5%Z topK |}.

End useQuery.

Module QueryPage.

Import Hook.

(** [prev.includes(docId) ? prev.filter(id => id !== docId) : [...prev, docId]] *)
Definition toggleDocument (prev : list string) (docId : string) : list string :=
  if existsb (String.eqb docId) prev
  then filter (fun id => negb (String.eqb id docId)) prev
  else prev ++ [docId].

(** [selectedDocs.length > 0 ? selectedDocs : null] *)
Definition docIds (selectedDocs : list string) : option (list string) :=
  match selectedDocs with
  | [] => None
  | _ :: _ => Some selectedDocs
  end.

(** [handleQuery]: runs the query and returns what [queryHistory] is set
    to, or left at. *)
Definition handleQuery (selectedDocs : list string) (queryHistory : list Query.Answer)
    (query : string)
  : itree (hookE useQuery.Setter) (list Query.Answer) :=
  result <- useQuery.executeQuery query (Param.Given (docIds selectedDocs)) Param.Absent;;
  match result with
  | useQuery.Success data => Ret (data :: queryHistory)
  | useQuery.Failure _ => Ret queryHistory
  end.

End QueryPage.

(** UploadPage.jsx renders the progress bar while the hook is uploading
    (and a file is selected and none has been uploaded yet):
    [{uploading && <ProgressBar progress={progress} error={error} />}]. *)
Module UploadPage.

(** The properties the bar is given, when it is rendered. *)
Definition progress_bar (st : useUpload.State) : option (Num.number * option string) :=
  if useUpload.uploading st
  then Some (useUpload.progress st, useUpload.error st)
  else None.

End UploadPage.

(** The part of OCRProcessingPage.jsx above the stage list: the page's own
    [hasStarted] flag and the three buttons. *)
Module ProcessingPage.

Import Hook.

Record Actions : Type := {
  start_processing : bool;     (* the "Start Processing" button is rendered *)
  view_results : bool;         (* "View Results" *)
  try_again : bool             (* "Try Again" *)
}.

(** [!hasStarted && !status], [status?.status === 'completed'] and
    [status?.status === 'failed']. *)
Definition actions (hasStarted : bool) (hook : useOCR.State) : Actions :=
  let status_is (x : string) :=
    match useOCR.status hook with
    | Some s => String.eqb (Job.status s) x
    | None => false
    end in
  {| start_processing :=
       negb hasStarted
       && negb (match useOCR.status hook with Some _ => true | None => false end);
     view_results := status_is "completed";
     try_again := status_is "failed" |}.

(** [handleStartProcessing]: [setHasStarted(true)], then the hook's
    [startProcessing(documentId)], whose result is dropped.  Returns what
    [hasStarted] holds afterwards. *)
Definition handleStartProcessing (documentId : string)
  : itree (hookE useOCR.Setter) bool :=
  useOCR.startProcessing documentId Param.Absent;;
  Ret true.

(** The click handler of "Try Again": [reset()], then
    [setHasStarted(false)]. *)
Definition tryAgain : list (Entry useOCR.Setter) * bool :=
  (List.map Called useOCR.reset, false).

End ProcessingPage.

(** Environments for sample runs of the hooks: the start request is
    accepted, or refused. *)
Module HookExample.

Definition accepting (sc : Effects.Script) : Hook.Env :=
  {| Hook.script := sc;
     Hook.process_reply := fun _ => inr {| Http.data := "Processing started" |} |}.

Definition refusing (sc : Effects.Script) : Hook.Env :=
  {| Hook.script := sc;
     Hook.process_reply := fun _ => inl Example.network_error |}.

(** A job that goes through preprocessing and then fails. *)
Definition job_fails : Effects.Script :=
  Example.script [ ocrService.ok (Example.observation "uploaded");
                   ocrService.ok (Example.observation "preprocessing") ]
                 (ocrService.ok (Example.observation "failed")).

Definition not_found : Http.Error :=
  {| Http.message := "Request failed with status code 404";
     Http.detail := Some "Document not found" |}.

(** A job whose status is fetched twice (the start request is request 0)
    and is gone at the third fetch. *)
Definition status_down : Effects.Script :=
  Example.script [ inl Example.network_error;
                   ocrService.ok (Example.observation "preprocessing");
                   ocrService.ok (Example.observation "ocr_processing") ]
                 (inl not_found).

(** A server whose query endpoint is down. *)
Definition query_down : Effects.Script :=
  {| Effects.get_reply := fun _ => inl Example.network_error;
     Effects.post_reply :=
       fun _ => inl {| Http.message := "Request failed with status code 503";
                       Http.detail := Some "Index unavailable" |};
     Effects.onUpdate := fun _ _ => inr tt |}.

End HookExample.

(* ===================================================================== *)
(** * Sessions: authService.js, AuthContext.jsx and the route guard       *)
(* ===================================================================== *)

(** [localStorage]: at most one entry per key. *)
Module LocalStorage.

Definition t : Type := list (string * string).

(** [getItem(key)], [None] being [null]. *)
Fixpoint getItem (st : t) (key : string) : option string :=
  match st with
  | [] => None
  | (k, v) :: rest => if String.eqb k key then Some v else getItem rest key
  end.

Definition removeItem (st : t) (key : string) : t :=
  filter (fun kv => negb (String.eqb (fst kv) key)) st.

Definition setItem (st : t) (key value : string) : t :=
  (key, value) :: removeItem st key.

End LocalStorage.

Module Session.

(** What the code treats as opaque: the user record, the guest data, the
    JSON codec and the object literal [{ role: 'guest', ...guestData }].
    [parse] answers [inl] when [JSON.parse] throws and [inr None] when the
    text denotes a falsy value such as [null]. *)
Record Payloads : Type := {
  User : Type;
  GuestData : Type;
  stringify : User -> string;
  parse : string -> Http.Error + option User;
  as_guest : GuestData -> User
}.

Section WithPayloads.

Variable P : Payloads.

Inductive Request : Type :=
| PostLogin (username password : string)
| PostLogout
| GetMe
| GetGuestSession.

(** The three pieces of state of [AuthProvider]. *)
Record Context : Type := {
  user : option (User P);
  loading : bool;
  isAuthenticated : bool
}.

Record World : Type := {
  storage : LocalStorage.t;
  context : Context;
  requests : list Request;                    (* oldest first *)
  console : list (string * Http.Error)        (* [console.error] calls *)
}.

(** The server; what it answers may depend on the storage, from which the
    HTTP client takes the bearer token. *)
Record Server : Type := {
  login_reply : string -> string -> Http.Error + Http.Response string;
  logout_reply : LocalStorage.t -> Http.Error + Http.Response unit;
  me_reply : LocalStorage.t -> Http.Error + Http.Response (User P);
  guest_reply : Http.Error + Http.Response (GuestData P)
}.

Variable server : Server.

(** State and exceptions: a computation ends in a value or in a thrown
    error, and leaves a world either way. *)
Definition M (A : Type) : Type := World -> World * (Http.Error + A).

Definition ret {A : Type} (x : A) : M A := fun w => (w, inr x).

Definition throw {A : Type} (e : Http.Error) : M A := fun w => (w, inl e).

Definition bind {A B : Type} (m : M A) (k : A -> M B) : M B :=
  fun w =>
    match m w with
    | (w', inr x) => k x w'
    | (w', inl e) => (w', inl e)
    end.

(** [try { m } catch (e) { handler e }] *)
Definition try_catch {A : Type} (m : M A) (handler : Http.Error -> M A) : M A :=
  fun w =>
    match m w with
    | (w', inl e) => handler e w'
    | done => done
    end.

(** [try { m } finally { cleanup }], for a cleanup that does not throw. *)
Definition finally {A : Type} (m : M A) (cleanup : World -> World) : M A :=
  fun w => let (w', r) := m w in (cleanup w', r).

Notation "'let*' x ':=' m 'in' k" := (bind m (fun x => k))
  (at level 10, x name, m at level 100, k at level 200).
Notation "m ';;;' k" := (bind m (fun _ => k))
  (at level 100, k at level 200, right associativity).

Definition modify (f : World -> World) : M unit := fun w => (f w, inr tt).

Definition request {A : Type} (r : Request)
    (reply : LocalStorage.t -> Http.Error + Http.Response A) : M (Http.Response A) :=
  fun w =>
    ({| storage := storage w; context := context w;
        requests := requests w ++ [r]; console := console w |},
     reply (storage w)).

Definition with_storage (f : LocalStorage.t -> LocalStorage.t) (w : World) : World :=
  {| storage := f (storage w); context := context w;
     requests := requests w; console := console w |}.

Definition with_context (f : Context -> Context) (w : World) : World :=
  {| storage := storage w; context := f (context w);
     requests := requests w; console := console w |}.

Definition localStorage_setItem (key value : string) : M unit :=
  modify (with_storage (fun st => LocalStorage.setItem st key value)).

Definition localStorage_getItem (key : string) : M (option string) :=
  fun w => (w, inr (LocalStorage.getItem (storage w) key)).

Definition console_error (label : string) (e : Http.Error) : M unit :=
  modify (fun w => {| storage := storage w; context := context w;
                      requests := requests w;
                      console := console w ++ [(label, e)] |}).

(** A string is truthy unless it is empty. *)
Definition truthy (s : option string) : bool :=
  match s with
  | Some v => negb (String.eqb v "")
  | None => false
  end.

(** ** authService *)

Definition authService_getCurrentUser : M (User P) :=
  let* response := request GetMe (me_reply server) in
  ret (Http.data response).

Definition authService_login (email password : string) : M (string * User P) :=
  let* response := request (PostLogin email password)
                     (fun _ => login_reply server email password) in
  let access_token := Http.data response in
  localStorage_setItem "access_token" access_token;;;
  let* userInfo := authService_getCurrentUser in
  localStorage_setItem "user" (stringify P userInfo);;;
  ret (access_token, userInfo).

Definition authService_logout : M unit :=
  finally
    (try_catch
       (let* _ := request PostLogout (logout_reply server) in ret tt)
       (fun error => console_error "Logout error:" error))
    (with_storage (fun st =>
       LocalStorage.removeItem (LocalStorage.removeItem st "access_token") "user")).

Definition authService_createGuestSession : M (GuestData P) :=
  let* response := request GetGuestSession (fun _ => guest_reply server) in
  ret (Http.data response).

(** [!!localStorage.getItem('access_token')] *)
Definition authService_isAuthenticated : M bool :=
  let* token := localStorage_getItem "access_token" in
  ret (truthy token).

(** [user ? JSON.parse(user) : null] *)
Definition authService_getStoredUser : M (option (User P)) :=
  let* stored := localStorage_getItem "user" in
  if truthy stored
  then match stored with
       | Some text =>
           match parse P text with
           | inr value => ret value
           | inl syntax_error => throw syntax_error
           end
       | None => ret None
       end
  else ret None.

(** ** AuthContext *)

Definition setUser (u : option (User P)) : M unit :=
  modify (with_context (fun c =>
    {| user := u; loading := loading c; isAuthenticated := isAuthenticated c |})).

Definition setLoading (b : bool) : M unit :=
  modify (with_context (fun c =>
    {| user := user c; loading := b; isAuthenticated := isAuthenticated c |})).

Definition setIsAuthenticated (b : bool) : M unit :=
  modify (with_context (fun c =>
    {| user := user c; loading := loading c; isAuthenticated := b |})).

(** The initial [useState] values. *)
Definition mounted : Context :=
  {| user := None; loading := true; isAuthenticated := false |}.

(** The effect run on mount. *)
Definition initAuth : M unit :=
  let* storedUser := authService_getStoredUser in
  let* isAuth := authService_isAuthenticated in
  (match storedUser with
   | Some u => if isAuth then setUser (Some u);;; setIsAuthenticated true else ret tt
   | None => ret tt
   end);;;
  setLoading false.

Inductive Outcome : Type :=
| Success
| Failure (error : string).

Definition AuthProvider_login (email password : string) : M Outcome :=
  try_catch
    (let* signed := authService_login email password in
     setUser (Some (snd signed));;;
     setIsAuthenticated true;;;
     ret Success)
    (fun error => ret (Failure (Http.detail_or error "Login failed"))).

Definition AuthProvider_logout : M unit :=
  authService_logout;;;
  setUser None;;;
  setIsAuthenticated false.

Definition AuthProvider_createGuestSession : M Outcome :=
  try_catch
    (let* guestData := authService_createGuestSession in
     setUser (Some (as_guest P guestData));;;
     setIsAuthenticated false;;;
     ret Success)
    (fun _ => ret (Failure "Failed to create guest session")).

(** ** The route guard of App.jsx *)

Inductive Rendered : Type :=
| LoadingScreen
| Navigate (to : string)
| Children.

(** [ProtectedRoute], given the provider's value; [useAuth], which is not
    among the sources, is taken to hand that value over. *)
Definition ProtectedRoute (c : Context) : Rendered :=
  if loading c then LoadingScreen
  else if negb (isAuthenticated c) then Navigate "/login"
  else Children.

(** The world a page reload starts from: the storage survives, the
    provider's state is initial again. *)
Definition reloaded (w : World) : World :=
  {| storage := storage w; context := mounted;
     requests := requests w; console := console w |}.

End WithPayloads.

(** Payloads for sample runs: users and guests are names, JSON texts are
    the names themselves, and a text starting with a brace that never
    closes is the one that does not parse. *)
Definition sample : Payloads :=
  {| User := string;
     GuestData := string;
     stringify := fun u => u;
     parse := fun text =>
       if String.eqb text "{"
       then inl {| Http.message := "Unexpected end of JSON input"; Http.detail := None |}
       else inr (Some text);
     as_guest := fun g => g |}.

(** A server that knows one account and cannot tell who is asking. *)
Definition forgetful : Server sample :=
  Build_Server sample
    (fun _ _ => inr {| Http.data := "t0k3n" |})
    (fun _ => inl {| Http.message := "Network Error"; Http.detail := None |})
    (fun _ => inl {| Http.message := "Request failed with status code 500";
                     Http.detail := Some "Internal error" |})
    (inr {| Http.data := "guest-7" |}).

(** A server that answers every request. *)
Definition helpful : Server sample :=
  Build_Server sample
    (fun _ _ => inr {| Http.data := "t0k3n" |})
    (fun _ => inr {| Http.data := tt |})
    (fun _ => inr {| Http.data := "ada" |})
    (inr {| Http.data := "guest-7" |}).

(** A freshly loaded page with the given storage. *)
Definition page (st : LocalStorage.t) : World sample :=
  {| storage := st; context := mounted sample; requests := []; console := [] |}.

End Session.

(* ===================================================================== *)
(** * Properties of the stage list                                        *)
(* ===================================================================== *)

Section StageFacts.

Import StageModel.

Lemma indexOf_from_absent (l : list string) (x : string) (i : Z) :
  ~ In x l -> indexOf_from l x i = (-1)%Z.
Proof.
  revert i. induction l as [|y l IH]; intros i Hx; simpl.
  - reflexivity.
  - destruct (String.eqb_spec y x) as [->|_].
    + exfalso. apply Hx. now left.
    + apply IH. intros H. apply Hx. now right.
Qed.

Lemma indexOf_from_lower (l : list string) (x : string) (i : Z) :
  (0 <= i -> -1 <= indexOf_from l x i)%Z.
Proof.
  revert i. induction l as [|y l IH]; intros i Hi; simpl.
  - lia.
  - destruct (String.eqb y x); [lia|]. apply IH. lia.
Qed.

(** A status outside the four-element array is never "ahead of" a step. *)
Lemma absent_not_ahead (s x : string) :
  ~ In s order -> (indexOf order s >? indexOf order x)%Z = false.
Proof.
  intros Hs. unfold indexOf. rewrite (indexOf_from_absent order s 0 Hs).
  pose proof (indexOf_from_lower order x 0 ltac:(lia)).
  rewrite Z.gtb_ltb. apply Z.ltb_ge. exact H.
Qed.

Lemma isCompleted_off_pipeline (s : Job.StatusPayload) (step : Step) :
  Job.status s <> "completed" -> ~ In (Job.status s) order ->
  isCompleted (Some s) step = JsBool false.
Proof.
  intros Hc Ho. unfold isCompleted.
  destruct (String.eqb_spec (Job.status s) "completed") as [E|_]; [contradiction|].
  now rewrite absent_not_ahead.
Qed.

Lemma isActive_off_steps (s : Job.StatusPayload) (step : Step) :
  In step steps -> Job.status s <> "completed" -> ~ In (Job.status s) order ->
  isActive (Some s) step = false.
Proof.
  intros Hstep Hc Ho. unfold isActive.
  apply String.eqb_neq. intros E.
  simpl in Hstep.
  destruct Hstep as [<-|[<-|[<-|[<-|[<-|[]]]]]]; simpl in E;
    solve [ apply Hc; exact E | apply Ho; rewrite E; simpl; tauto ].
Qed.

Lemma mapi_from_Forall {A B : Type} (P : B -> Prop) (f : nat -> A -> B) (l : list A) :
  forall i, (forall j x, In x l -> P (f j x)) -> Forall P (mapi_from f i l).
Proof.
  induction l as [|x l IH]; intros i H; simpl; constructor.
  - apply H. now left.
  - apply IH. intros j y Hy. apply H. now right.
Qed.

(** Off the pipeline and not completed: every entry is idle. *)
Lemma stage_list_off_pipeline (s : Job.StatusPayload) :
  Job.status s <> "completed" -> ~ In (Job.status s) order ->
  Forall idle (stage_list (Some s)).
Proof.
  intros Hc Ho. unfold stage_list.
  apply mapi_from_Forall. intros j step Hstep. split; simpl.
  - now apply isActive_off_steps.
  - now apply isCompleted_off_pipeline.
Qed.

(** While the job is at any of the four running stages, the step
    "Completed" is reported completed. *)
Lemma completed_step_while_running (s : Job.StatusPayload) :
  In (Job.status s) order ->
  isCompleted (Some s) {| name := "Completed"; status := "completed" |} = JsBool true.
Proof.
  intros H. unfold isCompleted. simpl in H.
  destruct H as [<-|[<-|[<-|[<-|[]]]]]; reflexivity.
Qed.

Example indexOf_found : indexOf order "table_extraction" = 2%Z.
Proof. reflexivity. Qed.

Example indexOf_missing : indexOf order "completed" = (-1)%Z.
Proof. reflexivity. Qed.

End StageFacts.

(** C1, on the code: at status [table_extraction] the first two steps are
    completed, the third is active and not completed, the fourth is neither,
    and the fifth step, "Completed", is reported completed: 'completed' is
    not in the four-element array, so its position is -1, below that of any
    running status. *)
Theorem stage_list_table_extraction (pages tables : Z) (time : option Num.number) :
  List.map StageModel.flags
    (StageModel.stage_list
       (Some {| Job.status := "table_extraction"; Job.page_count := pages;
                Job.table_count := tables; Job.processing_time := time |}))
  = [ ("Preprocessing", false, StageModel.JsBool true);
      ("OCR Text Extraction", false, StageModel.JsBool true);
      ("Table Detection", true, StageModel.JsBool false);
      ("Embedding Generation", false, StageModel.JsBool false);
      ("Completed", false, StageModel.JsBool true) ].
Proof. reflexivity. Qed.

(** C7: at status [failed] the stage list is a list of five entries (the
    function is total, nothing throws), none of which is active and none of
    which is completed; the "Completed" entry in particular is not. *)
Theorem stage_list_failed (s : Job.StatusPayload) :
  Job.status s = "failed" ->
  List.map StageModel.entry_name (StageModel.stage_list (Some s))
    = List.map StageModel.name StageModel.steps
  /\ Forall StageModel.idle (StageModel.stage_list (Some s)).
Proof.
  intros Hs. split; [reflexivity|].
  apply stage_list_off_pipeline; rewrite Hs.
  - discriminate.
  - simpl. intros [H|[H|[H|[H|[]]]]]; discriminate.
Qed.

Lemma stage_list_failed_witness :
  let s := {| Job.status := "failed"; Job.page_count := 3;
              Job.table_count := 0; Job.processing_time := None |} in
  List.map StageModel.entry_name (StageModel.stage_list (Some s))
    = List.map StageModel.name StageModel.steps
  /\ Forall StageModel.idle (StageModel.stage_list (Some s)).
Proof. intros s. apply (stage_list_failed s). reflexivity. Defined.

(** C9: for a status that is neither 'completed' nor one of the four
    pipeline stages (such as 'uploaded'), the stage list has its five
    entries, none active and none completed. *)
Theorem stage_list_other_status (s : Job.StatusPayload) :
  Job.status s <> "completed" ->
  ~ In (Job.status s) StageModel.order ->
  List.map StageModel.entry_name (StageModel.stage_list (Some s))
    = List.map StageModel.name StageModel.steps
  /\ Forall StageModel.idle (StageModel.stage_list (Some s)).
Proof.
  intros Hc Ho. split; [reflexivity|].
  now apply stage_list_off_pipeline.
Qed.

Lemma stage_list_other_status_witness :
  let s := {| Job.status := "uploaded"; Job.page_count := 0;
              Job.table_count := 0; Job.processing_time := None |} in
  List.map StageModel.entry_name (StageModel.stage_list (Some s))
    = List.map StageModel.name StageModel.steps
  /\ Forall StageModel.idle (StageModel.stage_list (Some s)).
Proof.
  intros s. apply (stage_list_other_status s).
  - discriminate.
  - simpl. intros [H|[H|[H|[H|[]]]]]; discriminate.
Defined.

(* ===================================================================== *)
(** * Properties of the rounding to doubles                               *)
(* ===================================================================== *)

Section Doubles.

Import Num.

Section Pow2.

Lemma pow2_pos (e : Z) : 0 < pow2 e.
Proof. apply Qpower_0_lt. reflexivity. Qed.

Lemma pow2_add (a b : Z) : pow2 (a + b) == pow2 a * pow2 b.
Proof. apply Qpower_plus. discriminate. Qed.

Lemma pow2_le (a b : Z) : (a <= b)%Z -> pow2 a <= pow2 b.
Proof. intros H. apply Qpower_le_compat_l; [exact H|]. discriminate. Qed.

Lemma pow2_lt (a b : Z) : (a < b)%Z -> pow2 a < pow2 b.
Proof. intros H. apply Qpower_lt_compat_l; [exact H|]. reflexivity. Qed.

Lemma pow2_lt_inv (a b : Z) : pow2 a < pow2 b -> (a < b)%Z.
Proof. intros H. apply (Qpower_lt_compat_l_inv 2); [exact H|]. reflexivity. Qed.

Lemma pow2_Z (n : Z) : (0 <= n)%Z -> pow2 n == inject_Z (2 ^ n).
Proof. intros H. unfold pow2. now rewrite Zpower_Qpower. Qed.

Lemma pow2_split (a b : Z) : pow2 a == pow2 (a - b) * pow2 b.
Proof. rewrite <- pow2_add. now replace (a - b + b)%Z with a by lia. Qed.

End Pow2.

Section Log.

Lemma Z_log2_Q (n : Z) :
  (0 < n)%Z -> pow2 (Z.log2 n) <= inject_Z n /\ inject_Z n < pow2 (Z.log2 n + 1).
Proof.
  intros Hn. destruct (Z.log2_spec n Hn) as [H1 H2].
  pose proof (Z.log2_nonneg n) as H0.
  rewrite !pow2_Z by lia. rewrite <- Zle_Qle, <- Zlt_Qlt.
  replace (Z.log2 n + 1)%Z with (Z.succ (Z.log2 n)) by lia. now split.
Qed.

Lemma Q_as_quotient (q : Q) : q * inject_Z (Z.pos (Qden q)) == inject_Z (Qnum q).
Proof.
  destruct q as [n d]. unfold Qeq, Qmult, inject_Z. cbn [Qnum Qden].
  rewrite Pos.mul_1_r. lia.
Qed.

Lemma Qnum_pos (q : Q) : 0 < q -> (0 < Qnum q)%Z.
Proof. destruct q as [n d]. unfold Qlt. cbn. lia. Qed.

Lemma ilog2_spec (q : Q) :
  0 < q -> pow2 (ilog2 q) <= q /\ q < pow2 (ilog2 q + 1).
Proof.
  intros Hq. unfold ilog2.
  pose proof (Z_log2_Q (Qnum q) (Qnum_pos q Hq)) as [Ha1 Ha2].
  pose proof (Z_log2_Q (Z.pos (Qden q)) ltac:(lia)) as [Hb1 Hb2].
  pose proof (Q_as_quotient q) as E.
  set (a := Z.log2 (Qnum q)) in *. set (b := Z.log2 (Z.pos (Qden q))) in *.
  set (N := inject_Z (Qnum q)) in *. set (D := inject_Z (Z.pos (Qden q))) in *.
  destruct (Qle_bool (pow2 (a - b)) q) eqn:C.
  - apply Qle_bool_iff in C. split; [exact C|].
    pose proof (pow2_add (a - b + 1) b) as S.
    replace (a - b + 1 + b)%Z with (a + 1)%Z in S by lia.
    pose proof (pow2_pos b). pose proof (pow2_pos (a - b + 1)).
    set (X := pow2 (a - b + 1)) in *. set (Y := pow2 b) in *. set (W := pow2 (a + 1)) in *.
    nra.
  - assert (C' : q < pow2 (a - b)).
    { apply Qnot_le_lt. intros H. apply Qle_bool_iff in H. congruence. }
    replace (a - b - 1 + 1)%Z with (a - b)%Z by lia. split; [|exact C'].
    pose proof (pow2_add (a - b - 1) (b + 1)) as S.
    replace (a - b - 1 + (b + 1))%Z with a in S by lia.
    pose proof (pow2_pos (b + 1)). pose proof (pow2_pos (a - b - 1)).
    set (X := pow2 (a - b - 1)) in *. set (Y := pow2 (b + 1)) in *. set (W := pow2 a) in *.
    nra.
Qed.

Lemma ilog2_unique (q : Q) (k : Z) :
  pow2 k <= q -> q < pow2 (k + 1) -> ilog2 q = k.
Proof.
  intros H1 H2.
  assert (Hq : 0 < q) by (pose proof (pow2_pos k); lra).
  destruct (ilog2_spec q Hq) as [L1 L2].
  assert (ilog2 q < k + 1)%Z by (apply pow2_lt_inv; lra).
  assert (k < ilog2 q + 1)%Z by (apply pow2_lt_inv; lra).
  lia.
Qed.

Lemma ilog2_comp (q q' : Q) : 0 < q -> q == q' -> ilog2 q = ilog2 q'.
Proof.
  intros Hq E. symmetry. destruct (ilog2_spec q Hq).
  apply ilog2_unique; rewrite <- E; assumption.
Qed.

Lemma ilog2_mono (q q' : Q) : 0 < q -> q <= q' -> (ilog2 q <= ilog2 q')%Z.
Proof.
  intros Hq H. destruct (ilog2_spec q Hq). destruct (ilog2_spec q') as [? ?]; [lra|].
  assert (ilog2 q < ilog2 q' + 1)%Z by (apply pow2_lt_inv; lra). lia.
Qed.

Lemma ilog2_lt (q : Q) (k : Z) : 0 < q -> q < pow2 k -> (ilog2 q < k)%Z.
Proof.
  intros Hq H. destruct (ilog2_spec q Hq). apply pow2_lt_inv. lra.
Qed.

Lemma ilog2_ge (q : Q) (k : Z) : pow2 k <= q -> (k <= ilog2 q)%Z.
Proof.
  intros H. assert (Hq : 0 < q) by (pose proof (pow2_pos k); lra).
  destruct (ilog2_spec q Hq).
  assert (k < ilog2 q + 1)%Z by (apply pow2_lt_inv; lra). lia.
Qed.

End Log.

(** A comparison of rationals, read as a relation. *)
Ltac compared H :=
  match type of H with
  | _ = Eq => apply Qeq_alt in H
  | _ = Lt => apply Qlt_alt in H
  | _ = Gt => apply Qgt_alt in H
  end.

Section NearestEven.

Lemma Qfloor_bounds (q : Q) : inject_Z (Qfloor q) <= q /\ q < inject_Z (Qfloor q) + 1.
Proof.
  split; [apply Qfloor_le|].
  pose proof (Qlt_floor q) as H. rewrite inject_Z_plus in H. exact H.
Qed.

Lemma nearest_even_cases (q : Q) :
  (nearest_even q = Qfloor q /\ q - inject_Z (Qfloor q) <= 1 # 2)
  \/ (nearest_even q = (Qfloor q + 1)%Z /\ 1 # 2 <= q - inject_Z (Qfloor q)).
Proof.
  unfold nearest_even.
  destruct (Qcompare (q - inject_Z (Qfloor q)) (1 # 2)) eqn:C.
  - compared C.
    destruct (Z.even (Qfloor q)); [left | right]; (split; [reflexivity | lra]).
  - compared C. left. split; [reflexivity | lra].
  - compared C. right. split; [reflexivity | lra].
Qed.

(** Rounding moves a number by a half at most. *)
Lemma nearest_even_error (q : Q) :
  q - (1 # 2) <= inject_Z (nearest_even q) /\ inject_Z (nearest_even q) <= q + (1 # 2).
Proof.
  destruct (Qfloor_bounds q) as [F1 F2].
  destruct (nearest_even_cases q) as [[-> H] | [-> H]];
    rewrite ?inject_Z_plus; change (inject_Z 1) with 1; split; lra.
Qed.

Lemma nearest_even_comp (q q' : Q) : q == q' -> nearest_even q = nearest_even q'.
Proof.
  intros E. unfold nearest_even.
  rewrite (Qfloor_comp _ _ E).
  assert (C : Qcompare (q - inject_Z (Qfloor q')) (1 # 2)
              = Qcompare (q' - inject_Z (Qfloor q')) (1 # 2)).
  { apply Qcompare_comp; [now rewrite E | reflexivity]. }
  now rewrite C.
Qed.

(** An integer is left as it is. *)
Lemma nearest_even_Z (z : Z) : nearest_even (inject_Z z) = z.
Proof.
  unfold nearest_even. rewrite Qfloor_Z.
  assert (C : Qcompare (inject_Z z - inject_Z z) (1 # 2) = Lt).
  { apply (proj1 (Qlt_alt _ _)). lra. }
  now rewrite C.
Qed.

Lemma nearest_even_mono (q q' : Q) : q <= q' -> (nearest_even q <= nearest_even q')%Z.
Proof.
  intros H. pose proof (Qfloor_resp_le _ _ H) as F.
  destruct (Z.eq_dec (Qfloor q) (Qfloor q')) as [E|N].
  - unfold nearest_even. rewrite E.
    destruct (Qcompare (q - inject_Z (Qfloor q')) (1 # 2)) eqn:C;
    destruct (Qcompare (q' - inject_Z (Qfloor q')) (1 # 2)) eqn:C';
      compared C; compared C';
      try (exfalso; lra); destruct (Z.even (Qfloor q')); lia.
  - destruct (nearest_even_cases q) as [[-> _] | [-> _]];
    destruct (nearest_even_cases q') as [[-> _] | [-> _]]; lia.
Qed.

Lemma nearest_even_ge (q : Q) (z : Z) : inject_Z z <= q -> (z <= nearest_even q)%Z.
Proof.
  intros H. rewrite <- (nearest_even_Z z). now apply nearest_even_mono.
Qed.

Lemma nearest_even_le (q : Q) (z : Z) : q <= inject_Z z -> (nearest_even q <= z)%Z.
Proof.
  intros H. rewrite <- (nearest_even_Z z). now apply nearest_even_mono.
Qed.

End NearestEven.

Section RoundPos.

Lemma ulp_exp_min (q : Q) : (-1074 <= ulp_exp q)%Z.
Proof. unfold ulp_exp. lia. Qed.

Lemma ulp_exp_comp (q q' : Q) : 0 < q -> q == q' -> ulp_exp q = ulp_exp q'.
Proof. intros Hq E. unfold ulp_exp. now rewrite (ilog2_comp q q' Hq E). Qed.

Lemma ulp_exp_mono (q q' : Q) : 0 < q -> q <= q' -> (ulp_exp q <= ulp_exp q')%Z.
Proof. intros Hq H. unfold ulp_exp. pose proof (ilog2_mono q q' Hq H). lia. Qed.

(** [q] has at most 53 bits above its last place. *)
Lemma below_top (q : Q) : 0 < q -> q < pow2 (ulp_exp q + 53).
Proof.
  intros Hq. destruct (ilog2_spec q Hq) as [_ H].
  eapply Qlt_le_trans; [exact H|]. apply pow2_le. unfold ulp_exp. lia.
Qed.

(** The scaling by the last place, and back. *)
Lemma scaled_back (q : Q) (e : Z) : q / pow2 e * pow2 e == q.
Proof. pose proof (pow2_pos e). field. lra. Qed.

Lemma scaled_le (q : Q) (e k : Z) : q <= pow2 (e + k) -> q / pow2 e <= pow2 k.
Proof.
  intros H. rewrite pow2_add in H. pose proof (pow2_pos e) as P.
  apply Qle_shift_div_r; [exact P|]. lra.
Qed.

Lemma scaled_ge (q : Q) (e k : Z) : pow2 (e + k) <= q -> pow2 k <= q / pow2 e.
Proof.
  intros H. rewrite pow2_add in H. pose proof (pow2_pos e) as P.
  apply Qle_shift_div_l; [exact P|]. lra.
Qed.

Lemma round_pos_comp (q q' : Q) : 0 < q -> q == q' -> round_pos q == round_pos q'.
Proof.
  intros Hq E. unfold round_pos. rewrite <- (ulp_exp_comp q q' Hq E).
  rewrite (nearest_even_comp (q / pow2 (ulp_exp q)) (q' / pow2 (ulp_exp q))).
  - reflexivity.
  - apply Qmult_comp; [exact E | reflexivity].
Qed.

Lemma round_pos_nonneg (q : Q) : 0 <= q -> 0 <= round_pos q.
Proof.
  intros Hq. unfold round_pos. pose proof (pow2_pos (ulp_exp q)) as P.
  apply Qmult_le_0_compat; [|lra].
  change (inject_Z 0 <= inject_Z (nearest_even (q / pow2 (ulp_exp q)))).
  rewrite <- Zle_Qle. apply nearest_even_ge.
  apply Qle_shift_div_l; [exact P|]. change (inject_Z 0) with 0. lra.
Qed.

(** Rounding moves a number by half a unit in the last place at most. *)
Lemma round_pos_error (q : Q) :
  q - pow2 (ulp_exp q) / 2 <= round_pos q /\ round_pos q <= q + pow2 (ulp_exp q) / 2.
Proof.
  unfold round_pos. set (e := ulp_exp q).
  pose proof (pow2_pos e) as P.
  destruct (nearest_even_error (q / pow2 e)) as [H1 H2].
  pose proof (scaled_back q e) as B.
  set (s := q / pow2 e) in *. set (m := inject_Z (nearest_even s)) in *.
  set (u := pow2 e) in *.
  assert (L : 0 <= (m - (s - (1 # 2))) * u) by (apply Qmult_le_0_compat; lra).
  assert (U : 0 <= (s + (1 # 2) - m) * u) by (apply Qmult_le_0_compat; lra).
  assert (EL : (m - (s - (1 # 2))) * u == m * u - q + u / 2) by (rewrite <- B; field).
  assert (EU : (s + (1 # 2) - m) * u == q + u / 2 - m * u) by (rewrite <- B; field).
  rewrite EL in L. rewrite EU in U. split; lra.
Qed.

(** The result is at most [2^53] units in the last place. *)
Lemma round_pos_top (q : Q) : 0 < q -> round_pos q <= pow2 (ulp_exp q + 53).
Proof.
  intros Hq. unfold round_pos. set (e := ulp_exp q).
  pose proof (pow2_pos e) as P.
  rewrite pow2_add, (Qmult_comm (pow2 e)).
  apply Qmult_le_compat_r; [|lra].
  rewrite (pow2_Z 53) by lia. rewrite <- Zle_Qle. apply nearest_even_le.
  rewrite <- pow2_Z by lia. apply scaled_le.
  apply Qlt_le_weak. now apply below_top.
Qed.

(** A normal number keeps its leading bit. *)
Lemma round_pos_bottom (q : Q) :
  (-1074 < ulp_exp q)%Z -> 0 < q -> pow2 (ulp_exp q + 52) <= round_pos q.
Proof.
  intros Hn Hq. unfold round_pos. set (e := ulp_exp q).
  pose proof (pow2_pos e) as P.
  rewrite pow2_add, (Qmult_comm (pow2 e)).
  apply Qmult_le_compat_r; [|lra].
  rewrite (pow2_Z 52) by lia. rewrite <- Zle_Qle. apply nearest_even_ge.
  rewrite <- pow2_Z by lia. apply scaled_ge.
  destruct (ilog2_spec q Hq) as [H _].
  eapply Qle_trans; [|exact H]. apply pow2_le. unfold e, ulp_exp in *. lia.
Qed.

Lemma round_pos_mono (q q' : Q) : 0 < q -> q <= q' -> round_pos q <= round_pos q'.
Proof.
  intros Hq H. assert (Hq' : 0 < q') by lra.
  pose proof (ulp_exp_mono q q' Hq H) as He.
  destruct (Z.eq_dec (ulp_exp q) (ulp_exp q')) as [E|N].
  - unfold round_pos. rewrite E. pose proof (pow2_pos (ulp_exp q')) as P.
    apply Qmult_le_compat_r; [|lra].
    rewrite <- Zle_Qle. apply nearest_even_mono.
    apply Qmult_le_compat_r; [exact H|].
    apply Qlt_le_weak, Qinv_lt_0_compat, P.
  - eapply Qle_trans; [apply round_pos_top, Hq|].
    eapply Qle_trans; [|apply round_pos_bottom; [pose proof (ulp_exp_min q); lia | exact Hq']].
    apply pow2_le. lia.
Qed.

(** A double is left as it is. *)
Lemma round_pos_dyadic (q : Q) (m j : Z) : dyadic q m j -> round_pos q == q.
Proof.
  intros (E & Hm & Hj).
  pose proof (pow2_pos j) as Pj.
  assert (Hq : 0 < q).
  { rewrite E. apply Qmult_lt_0_compat; [|exact Pj]. rewrite (Zlt_Qlt 0) in Hm. apply Hm. }
  assert (He : (ulp_exp q <= j)%Z).
  { assert (ilog2 q < j + 53)%Z; [|unfold ulp_exp; lia].
    apply ilog2_lt; [exact Hq|]. rewrite E, pow2_add, (Qmult_comm (pow2 j)).
    apply Qmult_lt_compat_r; [exact Pj|].
    rewrite (pow2_Z 53) by lia. rewrite <- Zlt_Qlt. lia. }
  unfold round_pos. set (e := ulp_exp q) in *.
  pose proof (pow2_pos e) as Pe.
  assert (S : q / pow2 e == inject_Z (m * 2 ^ (j - e))).
  { rewrite inject_Z_mult, <- pow2_Z by lia. rewrite E, (pow2_split j e). field. lra. }
  rewrite (nearest_even_comp _ _ S), nearest_even_Z, <- S.
  apply scaled_back.
Qed.

End RoundPos.

Section Rnd.

Lemma sign_pos (q : Q) : 0 < q -> sign q = Gt.
Proof. intros H. unfold sign. apply Z.compare_gt_iff. now apply Qnum_pos. Qed.

Lemma sign_zero (q : Q) : q == 0 -> sign q = Eq.
Proof.
  destruct q as [n d]. unfold Qeq, sign. cbn. intros H. apply Z.compare_eq_iff. lia.
Qed.

Lemma sign_neg (q : Q) : q < 0 -> sign q = Lt.
Proof.
  destruct q as [n d]. unfold Qlt, sign. cbn. intros H. apply Z.compare_lt_iff. lia.
Qed.

Lemma rnd_pos (q : Q) : 0 < q -> rnd q = round_pos q.
Proof. intros H. unfold rnd. now rewrite sign_pos. Qed.

Lemma rnd_zero (q : Q) : q == 0 -> rnd q = 0.
Proof. intros H. unfold rnd. now rewrite sign_zero. Qed.

Lemma rnd_neg (q : Q) : q < 0 -> rnd q = - round_pos (- q).
Proof. intros H. unfold rnd. now rewrite sign_neg. Qed.

Lemma rnd_nonneg (q : Q) : 0 <= q -> 0 <= rnd q.
Proof.
  intros H. destruct (Qlt_le_dec 0 q) as [P|Z].
  - rewrite rnd_pos by exact P. now apply round_pos_nonneg.
  - rewrite rnd_zero by lra. lra.
Qed.

Lemma rnd_nonpos (q : Q) : q <= 0 -> rnd q <= 0.
Proof.
  intros H. destruct (Qlt_le_dec q 0) as [N|Z].
  - rewrite rnd_neg by exact N.
    pose proof (round_pos_nonneg (- q) ltac:(lra)). lra.
  - rewrite rnd_zero by lra. lra.
Qed.

(** Rounding keeps the order. *)
Lemma rnd_mono (q q' : Q) : q <= q' -> rnd q <= rnd q'.
Proof.
  intros H.
  destruct (Qlt_le_dec 0 q) as [P|NP].
  - rewrite !rnd_pos by lra. now apply round_pos_mono.
  - destruct (Qlt_le_dec q' 0) as [N'|NN'].
    + rewrite !rnd_neg by lra.
      pose proof (round_pos_mono (- q') (- q) ltac:(lra) ltac:(lra)). lra.
    + pose proof (rnd_nonpos q NP). pose proof (rnd_nonneg q' NN'). lra.
Qed.

Lemma rnd_comp (q q' : Q) : q == q' -> rnd q == rnd q'.
Proof.
  intros E. apply Qle_antisym; apply rnd_mono; rewrite E; apply Qle_refl.
Qed.

(** A double is left as it is. *)
Lemma rnd_dyadic (q : Q) (m j : Z) : dyadic q m j -> rnd q == q.
Proof.
  intros D. pose proof D as (E & Hm & Hj).
  assert (Hq : 0 < q).
  { rewrite E. apply Qmult_lt_0_compat; [|apply pow2_pos].
    rewrite (Zlt_Qlt 0) in Hm. apply Hm. }
  rewrite rnd_pos by exact Hq. exact (round_pos_dyadic q m j D).
Qed.

Lemma rnd_Z (z : Z) : (0 <= z < 2 ^ 53)%Z -> rnd (inject_Z z) == inject_Z z.
Proof.
  intros H. destruct (Z.eq_dec z 0) as [->|N]; [reflexivity|].
  apply (rnd_dyadic _ z 0). split; [|lia].
  change (pow2 0) with 1. ring.
Qed.

(** Rounding twice is rounding once. *)
Lemma rnd_idem_pos (q : Q) : 0 < q -> rnd (rnd q) == rnd q.
Proof.
  intros Hq. rewrite (rnd_pos q Hq).
  pose proof (round_pos_nonneg q ltac:(lra)) as N.
  pose proof (round_pos_top q Hq) as T.
  pose proof (ulp_exp_min q) as Hmin.
  unfold round_pos in *. set (e := ulp_exp q) in *.
  set (m := nearest_even (q / pow2 e)) in *.
  pose proof (pow2_pos e) as P.
  assert (Hm0 : (0 <= m)%Z).
  { rewrite Zle_Qle. change (inject_Z 0) with 0.
    apply Qnot_lt_le. intros C.
    assert (inject_Z m * pow2 e < 0); [|lra].
    setoid_replace 0 with (0 * pow2 e) by ring.
    apply Qmult_lt_compat_r; assumption. }
  assert (Hm1 : (m <= 2 ^ 53)%Z).
  { rewrite Zle_Qle, <- pow2_Z by lia.
    apply Qnot_lt_le. intros C.
    assert (pow2 (e + 53) < inject_Z m * pow2 e); [|lra].
    rewrite pow2_add, (Qmult_comm (pow2 e)).
    apply Qmult_lt_compat_r; assumption. }
  destruct (Z.eq_dec m 0) as [Z0|NZ].
  - rewrite Z0. rewrite (rnd_zero (inject_Z 0 * pow2 e)) by ring. ring.
  - destruct (Z.eq_dec m (2 ^ 53)) as [Top|NT].
    + apply (rnd_dyadic _ (2 ^ 52) (e + 1)). split; [|lia].
      rewrite Top, pow2_add. rewrite <- !pow2_Z by lia.
      rewrite (pow2_split 53 52). change (53 - 52)%Z with 1%Z. ring.
    + apply (rnd_dyadic _ m e). split; [reflexivity|lia].
Qed.

End Rnd.

Section Relative.

Lemma half_ulp (e : Z) : pow2 e / 2 == pow2 (e + 52) * pow2 (-53).
Proof.
  rewrite <- pow2_add. replace (e + 52 + -53)%Z with (e - 1)%Z by lia.
  rewrite (pow2_split e (e - 1)). replace (e - (e - 1))%Z with 1%Z by lia.
  change (pow2 1) with 2. field.
Qed.

(** Above the subnormal range, rounding moves a number by the fraction
    [2^-53] of itself at most. *)
Lemma rnd_relative (q : Q) :
  1 <= q -> q * (1 - pow2 (-53)) <= rnd q /\ rnd q <= q * (1 + pow2 (-53)).
Proof.
  intros Hq. rewrite rnd_pos by lra.
  destruct (round_pos_error q) as [L U].
  assert (H0 : (0 <= ilog2 q)%Z) by (apply ilog2_ge; exact Hq).
  assert (He : ilog2 q = (ulp_exp q + 52)%Z) by (unfold ulp_exp; lia).
  destruct (ilog2_spec q ltac:(lra)) as [B _]. rewrite He in B.
  pose proof (pow2_pos (-53)) as P.
  assert (K : pow2 (ulp_exp q) / 2 <= q * pow2 (-53)).
  { rewrite half_ulp. apply Qmult_le_compat_r; [exact B | lra]. }
  set (u := pow2 (-53)) in *. set (h := pow2 (ulp_exp q) / 2) in *.
  split; lra.
Qed.

End Relative.

Section Round64.

Lemma round64_nonneg (q : Q) :
  0 <= q ->
  (round64 q = PlusInfinity /\ pow2 1024 <= rnd q)
  \/ (round64 q = Finite (rnd q) /\ rnd q < pow2 1024).
Proof.
  intros Hq. unfold round64. cbv zeta.
  destruct (Qle_bool (pow2 1024) (rnd q)) eqn:C.
  - left. split; [reflexivity|]. now apply Qle_bool_iff.
  - assert (C' : rnd q < pow2 1024).
    { apply Qnot_le_lt. intros H. apply Qle_bool_iff in H. congruence. }
    destruct (Qle_bool (rnd q) (- pow2 1024)) eqn:D.
    + apply Qle_bool_iff in D. pose proof (rnd_nonneg q Hq). pose proof (pow2_pos 1024). lra.
    + right. split; [reflexivity | exact C'].
Qed.

Lemma round64_finite (q : Q) : 0 <= q -> rnd q < pow2 1024 -> round64 q = Finite (rnd q).
Proof.
  intros Hq H. destruct (round64_nonneg q Hq) as [[_ C] | [E _]]; [lra | exact E].
Qed.

Lemma isFinite_round64 (q : Q) :
  0 <= q -> isFinite (round64 q) = true -> round64 q = Finite (rnd q) /\ rnd q < pow2 1024.
Proof.
  intros Hq H. destruct (round64_nonneg q Hq) as [[E _] | E]; [|exact E].
  rewrite E in H. discriminate.
Qed.

End Round64.

Section Floor.

Lemma Qfloor_unique (q : Q) (k : Z) :
  inject_Z k <= q -> q < inject_Z k + 1 -> Qfloor q = k.
Proof.
  intros L U. destruct (Qfloor_bounds q) as [F1 F2].
  assert (k < Qfloor q + 1)%Z.
  { rewrite Zlt_Qlt, inject_Z_plus. change (inject_Z 1) with 1. lra. }
  assert (Qfloor q < k + 1)%Z.
  { rewrite Zlt_Qlt, inject_Z_plus. change (inject_Z 1) with 1. lra. }
  lia.
Qed.

End Floor.

End Doubles.

(* ===================================================================== *)
(** * Properties of the upload progress                                   *)
(* ===================================================================== *)

Section PercentFacts.

Import Num.

Import Transport.

Import uploadService.

Lemma rnd_one_le (z : Z) : (1 <= z)%Z -> 1 <= rnd (inject_Z z).
Proof.
  intros H. setoid_replace 1 with (rnd (inject_Z 1)) at 1.
  - apply rnd_mono. rewrite <- Zle_Qle. exact H.
  - symmetry. apply rnd_Z. lia.
Qed.

Lemma u_small : pow2 (-53) <= 1 # 1000.
Proof. unfold Qle. vm_compute. discriminate. Qed.

(** The quotient is at most [100.25]. *)
Lemma quotient_bounds (t l : Z) :
  (0 < t)%Z -> (0 <= l <= t)%Z -> 0 <= quotient t l /\ quotient t l <= 401 # 4.
Proof.
  intros Ht Hl. unfold quotient.
  pose proof (rnd_one_le t ltac:(lia)) as HT.
  assert (HL : 0 <= rnd (inject_Z l)).
  { apply rnd_nonneg. change 0 with (inject_Z 0). rewrite <- Zle_Qle. lia. }
  assert (HLT : rnd (inject_Z l) <= rnd (inject_Z t)).
  { apply rnd_mono. rewrite <- Zle_Qle. lia. }
  set (T := rnd (inject_Z t)) in *. set (L := rnd (inject_Z l)) in *.
  assert (HA : 0 <= rnd (L * inject_Z 100)).
  { apply rnd_nonneg. change (inject_Z 100) with 100. lra. }
  split.
  - apply rnd_nonneg. apply Qle_shift_div_l; lra.
  - setoid_replace (401 # 4) with (rnd (401 # 4)).
    2:{ symmetry. apply (rnd_dyadic _ 401 (-2)). split; [reflexivity | lia]. }
    apply rnd_mono. apply Qle_shift_div_r; [lra|].
    destruct (Z.eq_dec l 0) as [->|N].
    + unfold L. rewrite (rnd_zero (rnd (inject_Z 0) * inject_Z 100)) by reflexivity. lra.
    + pose proof (rnd_one_le l ltac:(lia)) as HL1. fold L in HL1.
      destruct (rnd_relative (L * inject_Z 100)) as [_ U].
      { change (inject_Z 100) with 100. lra. }
      pose proof u_small. pose proof (pow2_pos (-53)).
      set (u := pow2 (-53)) in *. change (inject_Z 100) with 100 in *.
      assert (L * u <= T * u) by (apply Qmult_le_compat_r; lra).
      assert (T * u <= T * (1 # 1000)) by (rewrite !(Qmult_comm T); apply Qmult_le_compat_r; lra).
      lra.
Qed.

Section FiniteTotal.

Variable t : Z.
Hypothesis Ht : (0 < t)%Z.
Hypothesis Hfin : isFinite (mul (nearest t) (of_Z 100)) = true.

Lemma total_finite :
  nearest t = Finite (rnd (inject_Z t))
  /\ rnd (inject_Z t) < pow2 1024
  /\ rnd (rnd (inject_Z t) * inject_Z 100) < pow2 1024.
Proof.
  assert (H0 : 0 <= inject_Z t) by (change 0 with (inject_Z 0); rewrite <- Zle_Qle; lia).
  unfold nearest in *.
  destruct (round64_nonneg (inject_Z t) H0) as [[E _] | [E F]].
  - rewrite E in Hfin. discriminate.
  - rewrite E in Hfin. cbn [mul of_Z] in Hfin.
    apply isFinite_round64 in Hfin.
    + repeat split; [exact E | exact F | apply Hfin].
    + pose proof (rnd_nonneg _ H0). change (inject_Z 100) with 100. lra.
Qed.

(** Within a finite total, every step of the computation is finite. *)
Lemma percentCompleted_quotient (l : Z) :
  (0 <= l <= t)%Z ->
  percentCompleted (tick l t) = of_Z (Qfloor (quotient t l + (1 # 2))).
Proof.
  intros Hl. destruct total_finite as (ET & FT & FA).
  destruct (quotient_bounds t l Ht Hl) as [Q0 Q1]. unfold quotient in *.
  pose proof (rnd_one_le t ltac:(lia)) as HT.
  assert (H0 : 0 <= inject_Z l) by (change 0 with (inject_Z 0); rewrite <- Zle_Qle; lia).
  assert (HL : 0 <= rnd (inject_Z l)) by (now apply rnd_nonneg).
  assert (HLT : rnd (inject_Z l) <= rnd (inject_Z t)).
  { apply rnd_mono. rewrite <- Zle_Qle. lia. }
  unfold percentCompleted, tick. cbn [loaded total]. rewrite ET.
  unfold nearest. rewrite (round64_finite (inject_Z l) H0) by lra.
  set (T := rnd (inject_Z t)) in *. set (L := rnd (inject_Z l)) in *.
  cbn [mul of_Z].
  assert (HA : 0 <= L * inject_Z 100) by (change (inject_Z 100) with 100; lra).
  assert (HAT : rnd (L * inject_Z 100) <= rnd (T * inject_Z 100)).
  { apply rnd_mono. change (inject_Z 100) with 100. lra. }
  rewrite (round64_finite _ HA) by lra.
  pose proof (rnd_nonneg _ HA) as HA'.
  set (A := rnd (L * inject_Z 100)) in *.
  cbn [div]. rewrite (sign_pos T) by lra.
  assert (HQ : 0 <= A / T) by (apply Qle_shift_div_l; lra).
  rewrite (round64_finite _ HQ).
  - reflexivity.
  - eapply Qle_lt_trans; [exact Q1|]. unfold Qlt. vm_compute. reflexivity.
Qed.

Lemma percentCompleted_range (l : Z) :
  (0 <= l <= t)%Z ->
  exists p, percentCompleted (tick l t) = of_Z p /\ (0 <= p <= 100)%Z.
Proof.
  intros Hl. rewrite (percentCompleted_quotient l Hl).
  destruct (quotient_bounds t l Ht Hl) as [Q0 Q1].
  eexists. split; [reflexivity|].
  destruct (Qfloor_bounds (quotient t l + (1 # 2))) as [F1 F2].
  split.
  - change 0%Z with (Qfloor 0). apply Qfloor_resp_le. lra.
  - assert (Qfloor (quotient t l + (1 # 2)) < 101)%Z; [|lia].
    rewrite Zlt_Qlt. change (inject_Z 101) with 101. lra.
Qed.

Lemma quotient_mono (l l' : Z) : (l <= l')%Z -> quotient t l <= quotient t l'.
Proof.
  intros H. unfold quotient.
  pose proof (rnd_one_le t ltac:(lia)) as HT.
  apply rnd_mono. apply Qmult_le_compat_r.
  - apply rnd_mono. apply Qmult_le_compat_r; [|discriminate].
    apply rnd_mono. rewrite <- Zle_Qle. lia.
  - apply Qlt_le_weak, Qinv_lt_0_compat. lra.
Qed.

Lemma percentCompleted_mono (l l' : Z) :
  (0 <= l <= l')%Z -> (l' <= t)%Z ->
  le (percentCompleted (tick l t)) (percentCompleted (tick l' t)).
Proof.
  intros H H'. rewrite !percentCompleted_quotient by lia.
  unfold le, leb, of_Z. apply Qle_bool_iff. rewrite <- Zle_Qle.
  apply Qfloor_resp_le. pose proof (quotient_mono l l' ltac:(lia)). lra.
Qed.

End FiniteTotal.

(** The exact percentage, in integers. *)
Lemma pct_rounds (l t : Z) :
  (0 < t)%Z -> Num.rounds_to (inject_Z l * 100 / inject_Z t) (pct t l).
Proof.
  intros Ht. destruct t as [|p|p]; try lia.
  unfold Num.rounds_to, pct.
  pose proof (Z.div_mod (200 * l + Z.pos p) (2 * Z.pos p) ltac:(lia)) as E.
  pose proof (Z.mod_pos_bound (200 * l + Z.pos p) (2 * Z.pos p) ltac:(lia)) as B.
  set (d := ((200 * l + Z.pos p) / (2 * Z.pos p))%Z) in *.
  set (r := ((200 * l + Z.pos p) mod (2 * Z.pos p))%Z) in *.
  split.
  - unfold Qle, Qminus, Qplus, Qopp, Qdiv, Qmult, Qinv, inject_Z; simpl. nia.
  - unfold Qlt, Qminus, Qplus, Qopp, Qdiv, Qmult, Qinv, inject_Z; simpl. nia.
Qed.

(** The exact quotient stays clear of the next half by [1 / 2t]. *)
Lemma pct_margin (l t : Z) :
  (0 < t)%Z ->
  inject_Z l * 100 / inject_Z t + 1 / (2 * inject_Z t) <= inject_Z (pct t l) + (1 # 2).
Proof.
  intros Ht. destruct t as [|p|p]; try lia.
  unfold pct.
  pose proof (Z.div_mod (200 * l + Z.pos p) (2 * Z.pos p) ltac:(lia)) as E.
  pose proof (Z.mod_pos_bound (200 * l + Z.pos p) (2 * Z.pos p) ltac:(lia)) as B.
  set (d := ((200 * l + Z.pos p) / (2 * Z.pos p))%Z) in *.
  set (r := ((200 * l + Z.pos p) mod (2 * Z.pos p))%Z) in *.
  unfold Qle, Qminus, Qplus, Qopp, Qdiv, Qmult, Qinv, inject_Z; simpl. nia.
Qed.

Lemma pct_bounds (l t : Z) :
  (0 < t -> 0 <= l <= t -> 0 <= pct t l <= 100)%Z.
Proof.
  intros Ht Hl. unfold pct. split.
  - apply Z.div_pos; lia.
  - assert ((200 * l + t) / (2 * t) < 101)%Z; [|lia].
    apply Z.div_lt_upper_bound; lia.
Qed.

(** Up to [2^53] the byte counts are doubles, and up to [2^46] so is a
    hundred times the count. *)
Lemma quotient_small (t l : Z) :
  (0 < t < 2 ^ 46)%Z -> (0 <= l <= t)%Z ->
  quotient t l == rnd (inject_Z l * 100 / inject_Z t).
Proof.
  intros Ht Hl. unfold quotient. apply rnd_comp.
  rewrite (rnd_Z t) by lia.
  apply Qmult_comp; [|reflexivity].
  rewrite (rnd_comp _ (inject_Z (l * 100))).
  - rewrite rnd_Z by lia. rewrite inject_Z_mult. reflexivity.
  - rewrite (rnd_Z l) by lia. rewrite inject_Z_mult. reflexivity.
Qed.

(** Below [2^7] a double has 46 bits after the point. *)
Lemma rnd_below_128 (q : Q) : 0 <= q -> q < 128 -> rnd q <= q + pow2 (-47).
Proof.
  intros H0 H. destruct (Qlt_le_dec 0 q) as [P|Z].
  - rewrite rnd_pos by exact P.
    destruct (round_pos_error q) as [_ U].
    assert (He : (ulp_exp q <= -46)%Z).
    { assert (ilog2 q < 7)%Z; [|unfold ulp_exp; lia].
      apply ilog2_lt; [exact P|]. change (pow2 7) with 128. exact H. }
    pose proof (pow2_le _ _ He) as K.
    assert (E : pow2 (-46) * (1 # 2) == pow2 (-47)) by reflexivity.
    unfold Qdiv in U. change (/ 2) with (1 # 2) in U.
    set (a := pow2 (ulp_exp q)) in *. set (b := pow2 (-46)) in *. set (c := pow2 (-47)) in *.
    lra.
  - rewrite rnd_zero by lra. pose proof (pow2_pos (-47)). lra.
Qed.

Lemma half_integer (k : Z) :
  (1 <= k <= 100)%Z -> rnd (inject_Z k - (1 # 2)) == inject_Z k - (1 # 2).
Proof.
  intros H. apply (rnd_dyadic _ (2 * k - 1) (-1)). split; [|lia].
  change (pow2 (-1)) with (1 # 2).
  rewrite <- Z.add_opp_r, inject_Z_plus, inject_Z_mult.
  change (inject_Z 2) with 2. change (inject_Z (- (1))) with (- (1)). field.
Qed.

(** For a total below [2^46] bytes the percent passed is the exact
    one. *)
Lemma quotient_pct (l t : Z) :
  (0 < t < 2 ^ 46)%Z -> (0 <= l <= t)%Z ->
  Qfloor (quotient t l + (1 # 2)) = pct t l.
Proof.
  intros Ht Hl.
  destruct (pct_rounds l t ltac:(lia)) as [R1 R2].
  pose proof (pct_margin l t ltac:(lia)) as M.
  pose proof (pct_bounds l t ltac:(lia) Hl) as B.
  pose proof (quotient_small t l Ht Hl) as E.
  set (x := inject_Z l * 100 / inject_Z t) in *. set (k := pct t l) in *.
  assert (Hx : 0 <= x).
  { unfold x. apply Qle_shift_div_l.
    - change 0 with (inject_Z 0). rewrite <- Zlt_Qlt. lia.
    - assert (0 <= inject_Z l) by (change 0 with (inject_Z 0); rewrite <- Zle_Qle; lia).
      lra. }
  assert (Hk : inject_Z k <= 100).
  { change 100 with (inject_Z 100). rewrite <- Zle_Qle. lia. }
  assert (Hm : pow2 (-47) < 1 / (2 * inject_Z t)).
  { assert (T1 : 0 < inject_Z t) by (change 0 with (inject_Z 0); rewrite <- Zlt_Qlt; lia).
    assert (T2 : inject_Z t < pow2 46) by (rewrite pow2_Z by lia; rewrite <- Zlt_Qlt; lia).
    apply Qlt_shift_div_l; [lra|].
    assert (S : pow2 (-47) * (2 * pow2 46) == 1) by reflexivity.
    pose proof (pow2_pos (-47)).
    set (c := pow2 (-47)) in *. set (d := pow2 46) in *.
    assert (c * inject_Z t < c * d).
    { rewrite !(Qmult_comm c). apply Qmult_lt_compat_r; assumption. }
    lra. }
  apply Qfloor_unique.
  - rewrite E. destruct (Z.eq_dec k 0) as [K0|NK].
    + rewrite K0. pose proof (rnd_nonneg x Hx). change (inject_Z 0) with 0. lra.
    + pose proof (half_integer k ltac:(lia)) as HI.
      pose proof (rnd_mono _ _ R1). lra.
  - rewrite E. pose proof (rnd_below_128 x Hx ltac:(lra)). lra.
Qed.

(** A hundred times a total below [2^1017] bytes is a finite double. *)
Lemma total_finite_below (t : Z) :
  (0 < t < 2 ^ 1017)%Z -> isFinite (mul (nearest t) (of_Z 100)) = true.
Proof.
  intros Ht.
  assert (H0 : 0 <= inject_Z t) by (change 0 with (inject_Z 0); rewrite <- Zle_Qle; lia).
  assert (B : inject_Z t <= pow2 1017) by (rewrite pow2_Z by lia; rewrite <- Zle_Qle; lia).
  assert (D1 : rnd (pow2 1017) == pow2 1017).
  { apply (rnd_dyadic _ 1 1017). split; [ring | lia]. }
  assert (D2 : rnd (pow2 1017 * 100) == pow2 1017 * 100).
  { apply (rnd_dyadic _ 100 1017). split; [ring | lia]. }
  assert (P : pow2 1017 * 100 < pow2 1024) by (unfold Qlt; vm_compute; reflexivity).
  pose proof (rnd_mono _ _ B) as K1.
  pose proof (rnd_nonneg _ H0) as K0.
  pose proof (pow2_pos 1017) as P0.
  unfold nearest. rewrite (round64_finite _ H0) by lra.
  cbn [mul of_Z]. change (inject_Z 100) with 100.
  assert (H1 : 0 <= rnd (inject_Z t) * 100) by lra.
  rewrite (round64_finite _ H1); [reflexivity|].
  assert (K : rnd (rnd (inject_Z t) * 100) <= rnd (pow2 1017 * 100)) by (apply rnd_mono; lra).
  lra.
Qed.


Lemma rnd_below_128_lower (q : Q) : 0 <= q -> q < 128 -> q - pow2 (-47) <= rnd q.
Proof.
  intros H0 H. destruct (Qlt_le_dec 0 q) as [P|Z].
  - rewrite rnd_pos by exact P.
    destruct (round_pos_error q) as [L _].
    assert (He : (ulp_exp q <= -46)%Z).
    { assert (ilog2 q < 7)%Z; [|unfold ulp_exp; lia].
      apply ilog2_lt; [exact P|]. change (pow2 7) with 128. exact H. }
    pose proof (pow2_le _ _ He) as K.
    assert (E : pow2 (-46) * (1 # 2) == pow2 (-47)) by reflexivity.
    unfold Qdiv in L. change (/ 2) with (1 # 2) in L.
    set (a := pow2 (ulp_exp q)) in *. set (b := pow2 (-46)) in *. set (c := pow2 (-47)) in *.
    lra.
  - rewrite rnd_zero by lra. pose proof (pow2_pos (-47)). lra.
Qed.

(** The quotient the doubles give is within [2^-44] of the exact one. *)
Lemma quotient_close (t l : Z) :
  (0 < t)%Z -> (0 <= l <= t)%Z ->
  inject_Z l * 100 / inject_Z t - pow2 (-44) <= quotient t l
  /\ quotient t l <= inject_Z l * 100 / inject_Z t + pow2 (-44).
Proof.
  intros Ht Hl.
  assert (Ht1 : 1 <= inject_Z t) by (change 1 with (inject_Z 1); rewrite <- Zle_Qle; lia).
  destruct (Z.eq_dec l 0) as [->|N].
  { unfold quotient.
    rewrite (rnd_zero (rnd (rnd (inject_Z 0) * inject_Z 100) / rnd (inject_Z t))) by reflexivity.
    setoid_replace (inject_Z 0 * 100 / inject_Z t) with 0 by reflexivity.
    pose proof (pow2_pos (-44)). split; lra. }
  assert (Hl1 : 1 <= inject_Z l) by (change 1 with (inject_Z 1); rewrite <- Zle_Qle; lia).
  assert (Hlt : inject_Z l <= inject_Z t) by (rewrite <- Zle_Qle; lia).
  pose proof (rnd_one_le t ltac:(lia)) as HT.
  pose proof (rnd_one_le l ltac:(lia)) as HL.
  destruct (rnd_relative (inject_Z t) Ht1) as [T1 T2].
  destruct (rnd_relative (inject_Z l) Hl1) as [L1 L2].
  destruct (rnd_relative (rnd (inject_Z l) * inject_Z 100)) as [A1 A2].
  { change (inject_Z 100) with 100. lra. }
  destruct (quotient_bounds t l Ht Hl) as [Q0 Q1].
  unfold quotient in *. change (inject_Z 100) with 100 in *.
  set (T := rnd (inject_Z t)) in *. set (L := rnd (inject_Z l)) in *.
  set (A := rnd (L * 100)) in *.
  set (tq := inject_Z t) in *. set (lq := inject_Z l) in *.
  pose proof u_small as Hu. pose proof (pow2_pos (-53)) as Hu0.
  set (u := pow2 (-53)) in *.
  set (x := lq * 100 / tq).
  assert (Ex : x * tq == lq * 100) by (unfold x; field; lra).
  assert (Hx0 : 0 <= x) by (unfold x; apply Qle_shift_div_l; lra).
  assert (Hx1 : x <= 100) by (unfold x; apply Qle_shift_div_r; lra).
  assert (HA0 : 0 <= A) by (unfold A; apply rnd_nonneg; lra).
  set (y := A / T).
  assert (Ey : y * T == A) by (unfold y; field; lra).
  assert (Hy0 : 0 <= y) by (unfold y; apply Qle_shift_div_l; lra).
  (* the exact quotient of the rounded operands is within 4u of x *)
  assert (U : y <= x * (1 + 4 * u)).
  { unfold y. apply Qle_shift_div_r; [lra|].
    assert (0 <= x * tq * u) by (apply Qmult_le_0_compat; [apply Qmult_le_0_compat|]; lra).
    assert (0 <= x * tq * u * u).
    { apply Qmult_le_0_compat; [|lra]. assumption. }
    assert (x * tq * u * u <= x * tq * u * (1 # 1000)).
    { rewrite !(Qmult_comm (x * tq * u)). apply Qmult_le_compat_r; [lra | assumption]. }
    assert (K1 : 0 <= (lq * (1 + u) - L) * (100 * (1 + u))).
    { apply Qmult_le_0_compat; lra. }
    assert (K2 : 0 <= (T - tq * (1 - u)) * (x * (1 + 4 * u))).
    { apply Qmult_le_0_compat; [lra|]. apply Qmult_le_0_compat; lra. }
    nra. }
  assert (D : x * (1 - 3 * u) <= y).
  { unfold y. apply Qle_shift_div_l; [lra|].
    assert (0 <= x * tq * u) by (apply Qmult_le_0_compat; [apply Qmult_le_0_compat|]; lra).
    assert (0 <= x * tq * u * u).
    { apply Qmult_le_0_compat; [|lra]. assumption. }
    assert (K1 : 0 <= (L - lq * (1 - u)) * (100 * (1 - u))).
    { apply Qmult_le_0_compat; lra. }
    assert (K2 : 0 <= (tq * (1 + u) - T) * (x * (1 - 3 * u))).
    { apply Qmult_le_0_compat; [lra|]. apply Qmult_le_0_compat; lra. }
    nra. }
  assert (Hy1 : y < 128).
  { assert (x * u <= 100 * u) by (apply Qmult_le_compat_r; lra). lra. }
  pose proof (rnd_below_128 y Hy0 Hy1) as R1.
  pose proof (rnd_below_128_lower y Hy0 Hy1) as R2.
  assert (E44 : 512 * pow2 (-53) == pow2 (-44)) by reflexivity.
  assert (E47 : 64 * pow2 (-53) == pow2 (-47)) by reflexivity.
  fold u in E44, E47.
  assert (x * u <= 100 * u) by (apply Qmult_le_compat_r; lra).
  set (c44 := pow2 (-44)) in *. set (c47 := pow2 (-47)) in *.
  split; lra.
Qed.


Lemma isInteger_of_Z (z : Z) : Num.isInteger (Num.of_Z z) = true.
Proof.
  unfold Num.isInteger, Num.of_Z. rewrite Qfloor_Z. apply Qeq_bool_refl.
Qed.

Lemma hundredfold_pos (q : Q) : 1 <= q -> 0 < rnd (q * inject_Z 100).
Proof.
  intros H. change (inject_Z 100) with 100.
  assert (1 <= rnd (q * 100)); [|lra].
  setoid_replace 1 with (rnd (inject_Z 1)) at 1 by (symmetry; apply rnd_Z; lia).
  apply rnd_mono. change (inject_Z 1) with 1. lra.
Qed.

Lemma percentCompleted_no_total (l : Z) :
  (0 <= l)%Z ->
  percentCompleted (tick l 0) = if (l =? 0)%Z then NaN else PlusInfinity.
Proof.
  intros Hl. destruct (Z.eqb_spec l 0) as [->|N]; [vm_compute; reflexivity|].
  unfold percentCompleted, tick. cbn [loaded total].
  change (nearest 0) with (Finite 0).
  assert (H0 : 0 <= inject_Z l) by (change 0 with (inject_Z 0); rewrite <- Zle_Qle; lia).
  unfold nearest.
  destruct (round64_nonneg (inject_Z l) H0) as [[-> _] | [-> _]]; [reflexivity|].
  cbn [mul of_Z].
  pose proof (rnd_one_le l ltac:(lia)) as HL.
  pose proof (hundredfold_pos _ HL) as HA.
  destruct (round64_nonneg (rnd (inject_Z l) * inject_Z 100)) as [[-> _] | [-> _]].
  - change (inject_Z 100) with 100. lra.
  - reflexivity.
  - cbn [div]. change (sign 0) with Eq. cbv iota. now rewrite (sign_pos _ HA).
Qed.

(** With a total, the percent is an integer as soon as a hundred times
    the count is finite. *)
Lemma percentCompleted_integer (l t : Z) :
  (0 <= l)%Z -> (0 < t)%Z ->
  isFinite (mul (nearest l) (of_Z 100)) = true ->
  isInteger (percentCompleted (tick l t)) = true.
Proof.
  intros Hl Ht Hfin.
  assert (H0 : 0 <= inject_Z l) by (change 0 with (inject_Z 0); rewrite <- Zle_Qle; lia).
  assert (H1 : 0 <= inject_Z t) by (change 0 with (inject_Z 0); rewrite <- Zle_Qle; lia).
  pose proof (rnd_one_le t ltac:(lia)) as HT.
  pose proof (rnd_nonneg _ H0) as HL.
  unfold percentCompleted, tick. cbn [loaded total].
  unfold nearest in *.
  destruct (round64_nonneg (inject_Z l) H0) as [[E _] | [E _]];
    rewrite E in *; [discriminate|].
  cbn [mul of_Z] in *.
  assert (HA : 0 <= rnd (inject_Z l) * inject_Z 100).
  { change (inject_Z 100) with 100. lra. }
  destruct (isFinite_round64 _ HA Hfin) as [EA FA]. rewrite EA.
  pose proof (rnd_nonneg _ HA) as HA'.
  set (A := rnd (inject_Z l) * inject_Z 100) in *.
  destruct (round64_nonneg (inject_Z t) H1) as [[-> _] | [-> _]].
  - cbn [div Math_round]. apply isInteger_of_Z.
  - cbn [div]. rewrite (sign_pos (rnd (inject_Z t))) by lra.
    set (T := rnd (inject_Z t)) in *.
    assert (HQ : 0 <= rnd A / T) by (apply Qle_shift_div_l; lra).
    rewrite (round64_finite _ HQ); [apply isInteger_of_Z|].
    eapply Qle_lt_trans; [|exact FA].
    assert (I : rnd (rnd A) == rnd A).
    { destruct (Qlt_le_dec 0 A) as [P|Z]; [now apply rnd_idem_pos|].
      rewrite (rnd_zero A) by lra. reflexivity. }
    apply (Qle_trans _ (rnd (rnd A))); [|rewrite I; apply Qle_refl].
    apply rnd_mono. apply Qle_shift_div_r; [lra|].
    assert (0 <= rnd A * (T - 1)) by (apply Qmult_le_0_compat; lra). lra.
Qed.


(** What the handler passes on one tick: an integer from 0 to 100, within
    [1/2 + 2^-44] of the exact percentage, and the exact percentage
    rounded when the total is below [2^46] bytes. *)
Lemma percentCompleted_tick (l t : Z) :
  (0 < t)%Z -> (0 <= l <= t)%Z ->
  isFinite (mul (nearest t) (of_Z 100)) = true ->
  exists p : Z,
    percentCompleted (tick l t) = of_Z p
    /\ (0 <= p <= 100)%Z
    /\ rounds_within (pow2 (-44)) (inject_Z l * 100 / inject_Z t) p
    /\ ((t < 2 ^ 46)%Z -> rounds_to (inject_Z l * 100 / inject_Z t) p).
Proof.
  intros Ht Hl Hfin. exists (Qfloor (quotient t l + (1 # 2))).
  split; [now apply percentCompleted_quotient|].
  destruct (quotient_bounds t l Ht Hl) as [Q0 Q1].
  destruct (quotient_close t l Ht Hl) as [C1 C2].
  destruct (Qfloor_bounds (quotient t l + (1 # 2))) as [F1 F2].
  split; [|split].
  - split.
    + change 0%Z with (Qfloor 0). apply Qfloor_resp_le. lra.
    + assert (Qfloor (quotient t l + (1 # 2)) < 101)%Z; [|lia].
      rewrite Zlt_Qlt. change (inject_Z 101) with 101. lra.
  - unfold rounds_within. set (c := pow2 (-44)) in *. split; lra.
  - intros Hs. rewrite quotient_pct by lia. apply pct_rounds. lia.
Qed.






(** The handler runs once per progress event, in order. *)
Lemma uploadDocument_effects {C : Type} (server : Server) (file : File)
    (onProgress : option (number -> list C)) :
  fst (uploadService.uploadDocument server file onProgress)
  = flat_map (onUploadProgress onProgress) (ticks (server "/upload/" [("file", file)])).
Proof.
  unfold uploadService.uploadDocument, post.
  now destruct (outcome (server "/upload/" [("file", file)])).
Qed.

End PercentFacts.

Example percent_third : uploadService.percentCompleted (Transport.tick 1 3) = Num.of_Z 33.
Proof. reflexivity. Qed.

Example percent_two_thirds :
  uploadService.percentCompleted (Transport.tick 2 3) = Num.of_Z 67.
Proof. reflexivity. Qed.

(** A tie goes up: [Math.round(0.5)] is 1. *)
Example percent_half : uploadService.percentCompleted (Transport.tick 1 200) = Num.of_Z 1.
Proof. reflexivity. Qed.

Example percent_nothing_of_nothing :
  uploadService.percentCompleted (Transport.tick 0 0) = Num.NaN.
Proof. reflexivity. Qed.

(** The double nearest to one tenth is 3602879701896397 / 2^55. *)
Example round64_tenth :
  exists q, Num.round64 (1 # 10) = Num.Finite q
            /\ q == 3602879701896397 # 36028797018963968.
Proof. eexists. split; [vm_compute; reflexivity | reflexivity]. Qed.

(** Above [2^53] the odd integers are no doubles: [2^53 + 1] lies half way
    and goes to the even significand, [2^53 + 3] goes up to [2^53 + 4]. *)
Example nearest_above_2_53 :
  (exists q, Num.nearest (2 ^ 53 + 1) = Num.Finite q /\ q == inject_Z (2 ^ 53))
  /\ (exists q, Num.nearest (2 ^ 53 + 3) = Num.Finite q /\ q == inject_Z (2 ^ 53 + 4)).
Proof. split; eexists; (split; [vm_compute; reflexivity | reflexivity]). Qed.

(** The smallest subnormal number is [2^-1074]; half of it lies half way
    to 0 and goes there. *)
Example round64_subnormal :
  (exists q, Num.round64 (Num.pow2 (-1074)) = Num.Finite q /\ q == Num.pow2 (-1074))
  /\ (exists q, Num.round64 (Num.pow2 (-1075)) = Num.Finite q /\ q == 0)
  /\ (exists q, Num.round64 (3 * Num.pow2 (-1075)) = Num.Finite q
                /\ q == Num.pow2 (-1073)).
Proof. repeat split; eexists; (split; [vm_compute; reflexivity | reflexivity]). Qed.

(** The largest double, and the first number that rounds to an infinity. *)
Example round64_overflow :
  Num.isFinite (Num.round64 (Num.pow2 1024 - Num.pow2 971)) = true
  /\ Num.round64 (Num.pow2 1024 - Num.pow2 970) = Num.PlusInfinity.
Proof. split; vm_compute; reflexivity. Qed.

(** C6, as stated, fails for large totals: the quotient is rounded to a
    double before [Math.round] sees it.  Of 70368744177769 bytes (a little
    over [2^46]), 45387839994661 are just under 64.5 percent, which rounds
    to 64; the double nearest to the quotient is 64.5 itself, and the
    callback is given 65. *)
Lemma onUploadProgress_double_rounding :
  let l := 45387839994661%Z in
  let t := 70368744177769%Z in
  (0 < t)%Z /\ (0 <= l <= t)%Z
  /\ uploadService.onUploadProgress (Some (fun n => [n])) (Transport.tick l t)
     = [Num.of_Z 65]
  /\ Num.rounds_to (inject_Z l * 100 / inject_Z t) 64
  /\ ~ Num.rounds_to (inject_Z l * 100 / inject_Z t) 65.
Proof.
  intros l t. split; [lia|]. split; [lia|]. split; [vm_compute; reflexivity|].
  unfold Num.rounds_to. split.
  - split; [unfold Qle; vm_compute; discriminate | unfold Qlt; vm_compute; reflexivity].
  - intros [H _]. unfold Qle in H. vm_compute in H. apply H. reflexivity.
Qed.

(** C6, amended: let the transfer fire one progress event per pair of
    [sent], of [l] bytes sent out of [t], with [0 <= l <= t], [0 < t] and
    [t * 100] a finite double.  Then [uploadDocument] invokes the callback
    once per event, in order, each time with an integer [p] between 0 and
    100, as a number.  [p] is [Math.round] of the quotient of doubles: it
    is a nearest integer of [l * 100 / t] up to [2^-44], and it is
    [l * 100 / t] rounded to the nearest integer (a tie going up) when the
    total is below [2^46] bytes. *)
Theorem onUploadProgress_rounds {C : Type}
    (server : Transport.Server) (file : Transport.File)
    (callback : Num.number -> list C) (sent : list (Z * Z)) :
  Transport.ticks (server "/upload/" [("file", file)])
    = List.map (fun s => Transport.tick (fst s) (snd s)) sent ->
  Forall (fun s => (0 < snd s)%Z /\ (0 <= fst s <= snd s)%Z
                   /\ Num.isFinite (Num.mul (Num.nearest (snd s)) (Num.of_Z 100)) = true)
    sent ->
  exists ps : list Z,
    fst (uploadService.uploadDocument server file (Some callback))
      = flat_map (fun p => callback (Num.of_Z p)) ps
    /\ Forall2
         (fun s p =>
            (0 <= p <= 100)%Z
            /\ Num.rounds_within (Num.pow2 (-44))
                 (inject_Z (fst s) * 100 / inject_Z (snd s)) p
            /\ ((snd s < 2 ^ 46)%Z ->
                Num.rounds_to (inject_Z (fst s) * 100 / inject_Z (snd s)) p))
         sent ps.
Proof.
  intros Hticks Hsent.
  rewrite uploadDocument_effects, Hticks. clear Hticks.
  induction Hsent as [|[l t] sent (Ht & Hl & Hfin) _ IH]; cbn [fst snd] in *.
  - exists []. split; [reflexivity | constructor].
  - destruct IH as (ps & E & F).
    destruct (percentCompleted_tick l t Ht Hl Hfin) as (p & Ep & Hp).
    exists (p :: ps). split.
    + cbn [List.map flat_map fst snd].
      unfold uploadService.onUploadProgress at 1. now rewrite Ep, E.
    + constructor; [exact Hp | exact F].
Qed.

Lemma onUploadProgress_rounds_witness :
  let file := {| Transport.file_name := "scan.pdf"; Transport.file_bytes := 3 |} in
  let job := {| Job.id := "d1"; Job.filename := "scan.pdf";
                Job.file_size := 3; Job.job_status := "uploaded" |} in
  let sent := [(1, 3); (2, 3); (3, 3)]%Z in
  let server := fun (_ : string) (_ : Transport.FormData) =>
    {| Transport.ticks := List.map (fun s => Transport.tick (fst s) (snd s)) sent;
       Transport.outcome := inr {| Http.data := job |} |} in
  exists ps : list Z,
    fst (uploadService.uploadDocument server file (Some (fun n => [n])))
      = flat_map (fun p => [Num.of_Z p]) ps
    /\ Forall2
         (fun s p =>
            (0 <= p <= 100)%Z
            /\ Num.rounds_within (Num.pow2 (-44))
                 (inject_Z (fst s) * 100 / inject_Z (snd s)) p
            /\ ((snd s < 2 ^ 46)%Z ->
                Num.rounds_to (inject_Z (fst s) * 100 / inject_Z (snd s)) p))
         sent ps.
Proof.
  intros file job sent server.
  apply (onUploadProgress_rounds server file (fun n => [n]) sent).
  - reflexivity.
  - repeat (constructor; [split; [reflexivity | split; [cbn; lia | reflexivity]] | ]).
    constructor.
Defined.




(** C10, as stated, fails: one byte sent out of a total of 0 makes the
    handler pass +Infinity to the callback, not NaN. *)
Lemma onUploadProgress_zero_total_Infinity :
  uploadService.onUploadProgress (Some (fun n => [n])) (Transport.tick 1 0)
    = [Num.PlusInfinity]
  /\ uploadService.onUploadProgress (Some (fun n => [n])) (Transport.tick 1 0)
    <> [Num.NaN].
Proof. split; [vm_compute; reflexivity | vm_compute; discriminate]. Qed.

(** C10, amended: the handler divides by the total with no guard.  On a tick
    with total 0 it passes NaN when no byte was sent and +Infinity when some
    were, neither of which is an integer; for byte counts [0 <= l] and
    [0 <= t] the percent passed is an integer only when [0 < t], and with
    [0 < t] it is one as soon as [l * 100] is a finite double. *)
Theorem onUploadProgress_zero_total {C : Type} (callback : Num.number -> list C) (l : Z) :
  (0 <= l)%Z ->
  uploadService.onUploadProgress (Some callback) (Transport.tick l 0)
    = callback (if (l =? 0)%Z then Num.NaN else Num.PlusInfinity)
  /\ Num.isInteger (uploadService.percentCompleted (Transport.tick l 0)) = false
  /\ forall t : Z, (0 <= t)%Z ->
       (Num.isInteger (uploadService.percentCompleted (Transport.tick l t)) = true ->
        (0 < t)%Z)
       /\ ((0 < t)%Z ->
           Num.isFinite (Num.mul (Num.nearest l) (Num.of_Z 100)) = true ->
           Num.isInteger (uploadService.percentCompleted (Transport.tick l t)) = true).
Proof.
  intros Hl. split; [|split].
  - unfold uploadService.onUploadProgress. now rewrite percentCompleted_no_total.
  - rewrite percentCompleted_no_total by exact Hl. now destruct (l =? 0)%Z.
  - intros t Ht. split.
    + intros Hi. destruct (Z.eq_dec t 0) as [->|]; [|lia].
      rewrite percentCompleted_no_total in Hi by exact Hl.
      destruct (l =? 0)%Z; discriminate.
    + intros Hpos Hfin. now apply percentCompleted_integer.
Qed.

Lemma onUploadProgress_zero_total_witness :
  uploadService.onUploadProgress (Some (fun n => [n])) (Transport.tick 0 0)
    = [if (0 =? 0)%Z then Num.NaN else Num.PlusInfinity]
  /\ Num.isInteger (uploadService.percentCompleted (Transport.tick 0 0)) = false
  /\ forall t : Z, (0 <= t)%Z ->
       (Num.isInteger (uploadService.percentCompleted (Transport.tick 0 t)) = true ->
        (0 < t)%Z)
       /\ ((0 < t)%Z ->
           Num.isFinite (Num.mul (Num.nearest 0) (Num.of_Z 100)) = true ->
           Num.isInteger (uploadService.percentCompleted (Transport.tick 0 t)) = true).
Proof. apply (onUploadProgress_zero_total (fun n => [n]) 0). lia. Defined.

(* ===================================================================== *)
(** * Running the services                                                *)
(* ===================================================================== *)

Section RunFacts.

Import Effects.
Import LeafNotations.

Variable sc : Script.

Lemma run_bind {A B : Type} (t : itree serviceE A) (k : A -> itree serviceE B) (w : World) :
  run sc (ITree.bind t k) w
  ≈ ITree.bind (run sc t w) (fun wx => run sc (k (snd wx)) (fst wx)).
Proof. unfold run. rewrite interp_state_bind. reflexivity. Qed.

Lemma run_ret {A : Type} (x : A) (w : World) : run sc (Ret x) w ≈ Ret (w, x).
Proof. unfold run. rewrite interp_state_ret. reflexivity. Qed.

Lemma run_trigger {A : Type} (e : serviceE A) (w : World) :
  run sc (ITree.trigger e) w ≈ handle sc A e w.
Proof. unfold run. apply interp_state_trigger. Qed.

(** One event, then the rest. *)
Ltac run_event :=
  rewrite run_bind, run_trigger; cbn; rewrite bind_ret_l; cbn.

(** A loop runs its body once, then either itself again or nothing. *)
Lemma run_iter {I R : Type} (body : I -> itree serviceE (I + R)) (i : I) (w : World) :
  run sc (ITree.iter body i) w
  ≈ ITree.bind (run sc (body i) w)
      (fun wx => match snd wx with
                 | inl i' => run sc (ITree.iter body i') (fst wx)
                 | inr r => Ret (fst wx, r)
                 end).
Proof.
  rewrite unfold_iter at 1. rewrite run_bind.
  apply eutt_eq_bind. intros [w' [i'|r]]; cbn.
  - unfold run. rewrite interp_state_tau, tau_eutt. reflexivity.
  - apply run_ret.
Qed.

(** The invariant rule for a loop: whatever a run of the loop returns
    satisfies [Q], provided the body keeps [Inv] when it asks for another
    iteration and establishes [Q] when it stops. *)
Lemma run_iter_inv {I R : Type} (body : I -> itree serviceE (I + R))
    (Inv : World -> I -> Prop) (Q : World -> R -> Prop) :
  (forall w i w' x, Inv w i -> (w', x) ∈ run sc (body i) w ->
     match x with inl i' => Inv w' i' | inr r => Q w' r end) ->
  forall w i, Inv w i ->
  forall w' r, (w', r) ∈ run sc (ITree.iter body i) w -> Q w' r.
Proof.
  intros Hbody w i Hinv w' r Hleaf.
  unfold run in Hleaf.
  rewrite (interp_state_iter' World (handle sc) body i w) in Hleaf.
  unfold Basics.iter, MonadIter_stateT0, Basics.iter, MonadIter_itree in Hleaf.
  revert Hleaf.
  apply (Leaf_iter_inv _ (w, i)
           (fun wi => Inv (fst wi) (snd wi)) (fun wr => Q (fst wr) (snd wr)));
    [|exact Hinv].
  clear w i Hinv w' r. intros [w i] x Hinv Hx. cbn [fst snd] in *.
  apply Leaf_bind_inv in Hx. destruct Hx as [[w' y] [Hy Hx]].
  apply Leaf_Ret_inv in Hx. subst x. cbn [fst snd].
  specialize (Hbody w i w' y Hinv Hy).
  destruct y; exact Hbody.
Qed.

(** ** ocrService *)

Import ocrService.

Lemma run_getProcessingStatus (doc : string) (w : World) :
  run sc (getProcessingStatus doc) w
  ≈ Ret (served w (Fetched (status_url doc)),
         match get_reply sc (requests w) with
         | inr response => inr (Http.data response)
         | inl err => inl err
         end).
Proof.
  unfold getProcessingStatus. run_event.
  destruct (get_reply sc (requests w)); apply run_ret.
Qed.

Lemma run_poll (doc : string) (ms : Z) (w : World) :
  run sc (poll doc ms tt) w ≈ Ret (poll_outcome sc doc ms w).
Proof.
  unfold poll, poll_outcome.
  rewrite run_bind, run_getProcessingStatus, bind_ret_l. cbn [fst snd].
  destruct (get_reply sc (requests w)) as [error|response].
  - run_event. apply run_ret.
  - run_event. destruct (onUpdate sc _ _) as [error|[]].
    + run_event. apply run_ret.
    + destruct (terminal _).
      * apply run_ret.
      * run_event. apply run_ret.
Qed.

(** One activation of the loop. *)
Lemma run_pollStatus (doc : string) (iv : Param.Arg Z) (w : World) :
  let out := poll_outcome sc doc (Param.default_to 2000%Z iv) w in
  run sc (pollStatus doc iv) w
  ≈ match snd out with
    | inl _ => run sc (pollStatus doc iv) (fst out)
    | inr r => Ret (fst out, r)
    end.
Proof.
  intros out. unfold pollStatus. rewrite run_iter, run_poll, bind_ret_l.
  fold out. destruct (snd out) as [[]|r]; reflexivity.
Qed.

(** The invariant rule for the polling loop. *)
Lemma run_pollStatus_inv (doc : string) (iv : Param.Arg Z) (Inv : World -> Prop)
    (Q : World -> Http.Error + Job.StatusPayload -> Prop) :
  (forall w, Inv w ->
     let out := poll_outcome sc doc (Param.default_to 2000%Z iv) w in
     match snd out with
     | inl _ => Inv (fst out)
     | inr r => Q (fst out) r
     end) ->
  forall w, Inv w ->
  forall w' r, run sc (pollStatus doc iv) w ≈ Ret (w', r) -> Q w' r.
Proof.
  intros Hstep w Hinv w' r Hrun.
  assert (Hleaf : (w', r) ∈ run sc (pollStatus doc iv) w).
  { rewrite Hrun. apply Leaf_Ret. }
  revert Hleaf. unfold pollStatus.
  apply (run_iter_inv _ (fun w _ => Inv w) Q); [|exact Hinv].
  clear w Hinv w' r Hrun. intros w [] w' x Hinv Hx.
  rewrite run_poll in Hx. apply Leaf_Ret_inv in Hx.
  specialize (Hstep w Hinv). cbv zeta in Hstep.
  rewrite <- Hx in Hstep. cbn [fst snd] in Hstep.
  destruct x as [[]|r]; exact Hstep.
Qed.

End RunFacts.

(* ===================================================================== *)
(** * Properties of the polling loop                                      *)
(* ===================================================================== *)

Section PollFacts.

Import Effects.
Import ocrService.
Local Open Scope nat_scope.

Variable sc : Script.
Variable doc : string.
Variable iv : Param.Arg Z.

Let ms : Z := Param.default_to 2000%Z iv.
Let url : string := status_url doc.

(** The three ways an activation can go when the callback returns. *)
Lemma poll_outcome_pending (w : World) (s : Job.StatusPayload) :
  callback_returns sc -> get_reply sc (requests w) = ok s -> pending s ->
  poll_outcome sc doc ms w
  = (note (note (served w (Fetched url)) (Delivered s)) (Waited ms), inl tt).
Proof.
  intros Hcb Hr Hp. unfold poll_outcome. rewrite Hr. cbn [ok Http.data].
  rewrite Hcb. unfold pending in Hp. now rewrite Hp.
Qed.

Lemma poll_outcome_terminal (w : World) (s : Job.StatusPayload) :
  callback_returns sc -> get_reply sc (requests w) = ok s ->
  terminal (Job.status s) = true ->
  poll_outcome sc doc ms w
  = (note (served w (Fetched url)) (Delivered s), inr (inr s)).
Proof.
  intros Hcb Hr Ht. unfold poll_outcome. rewrite Hr. cbn [ok Http.data].
  now rewrite Hcb, Ht.
Qed.

Lemma poll_outcome_failed (w : World) (err : Http.Error) :
  get_reply sc (requests w) = inl err ->
  poll_outcome sc doc ms w
  = (note (served w (Fetched url)) (Logged "Polling error:" err), inr (inl err)).
Proof. intros Hr. unfold poll_outcome. now rewrite Hr. Qed.

Lemma answers_head (k : nat) (s : Job.StatusPayload) (obs : list Job.StatusPayload) :
  answers sc k (s :: obs) -> get_reply sc k = ok s.
Proof. intros H. rewrite <- (Nat.add_0_r k). now apply H. Qed.

Lemma answers_tail (k : nat) (s : Job.StatusPayload) (obs : list Job.StatusPayload) :
  answers sc k (s :: obs) -> answers sc (S k) obs.
Proof.
  intros H i x Hx. replace (S k + i) with (k + S i) by lia. now apply H.
Qed.

Lemma answers_app (k : nat) (obs rest : list Job.StatusPayload) :
  answers sc k (obs ++ rest) ->
  answers sc k obs /\ answers sc (k + length obs) rest.
Proof.
  intros H. split; intros i x Hx.
  - apply H. rewrite nth_error_app1; [exact Hx|].
    apply nth_error_Some. congruence.
  - rewrite <- Nat.add_assoc. apply H.
    rewrite nth_error_app2 by lia.
    now replace (length obs + i - length obs) with i by lia.
Qed.

(** After the rounds of [obs], all pending, the loop is where it started,
    in a later world. *)
Lemma run_rounds (obs : list Job.StatusPayload) :
  callback_returns sc -> Forall pending obs ->
  forall w, answers sc (requests w) obs ->
  run sc (pollStatus doc iv) w
  ≈ run sc (pollStatus doc iv)
      {| requests := requests w + length obs;
         log := log w ++ flat_map (round doc ms) obs |}.
Proof.
  intros Hcb Hp. induction Hp as [|s obs Hs Hp IH]; intros w Ha.
  - destruct w as [n l]. cbn [requests log length flat_map].
    now rewrite Nat.add_0_r, app_nil_r.
  - rewrite run_pollStatus. fold ms.
    rewrite (poll_outcome_pending w s Hcb (answers_head _ _ _ Ha) Hs).
    cbn [fst snd]. rewrite IH by (apply (answers_tail _ _ _ Ha)).
    match goal with |- run _ _ ?a ≈ run _ _ ?b => replace a with b; [reflexivity|] end.
    unfold note, served, round, url. cbn [requests log length flat_map].
    f_equal; [lia|]. now rewrite <- !app_assoc.
Qed.

(** ** What the log of a run shows *)

Lemma fetches_app (l1 l2 : list Effect) : fetches (l1 ++ l2) = fetches l1 ++ fetches l2.
Proof. apply flat_map_app. Qed.

Lemma deliveries_app (l1 l2 : list Effect) :
  deliveries (l1 ++ l2) = deliveries l1 ++ deliveries l2.
Proof. apply flat_map_app. Qed.

Lemma fetches_rounds (obs : list Job.StatusPayload) :
  fetches (flat_map (round doc ms) obs) = repeat url (length obs).
Proof. induction obs as [|s obs IH]; simpl; [reflexivity|now rewrite IH]. Qed.

Lemma deliveries_rounds (obs : list Job.StatusPayload) :
  deliveries (flat_map (round doc ms) obs) = obs.
Proof. induction obs as [|s obs IH]; simpl; [reflexivity|now rewrite IH]. Qed.


Example spaced_back_to_back :
  spaced 2000 [Fetched url; Delivered (Example.observation "preprocessing"); Fetched url]
  = false.
Proof. reflexivity. Qed.

Example spaced_other_delay :
  spaced 2000 [Fetched url; Waited 10; Fetched url] = false.
Proof. reflexivity. Qed.


(** The run that observes [obs], all pending, and then the terminal [last]. *)
Lemma run_until_terminal (obs : list Job.StatusPayload) (last : Job.StatusPayload) :
  callback_returns sc -> Forall pending obs -> terminal (Job.status last) = true ->
  answers sc 0 (obs ++ [last]) ->
  run sc (pollStatus doc iv) start
  ≈ Ret ({| requests := length obs + 1;
            log := flat_map (round doc ms) obs ++ [Fetched url; Delivered last] |},
         inr last).
Proof.
  intros Hcb Hp Ht Ha. apply answers_app in Ha. destruct Ha as [Ha Hl].
  rewrite (run_rounds obs Hcb Hp start Ha).
  set (w := {| requests := _; log := _ |}).
  rewrite run_pollStatus. fold ms.
  rewrite (poll_outcome_terminal w last Hcb (answers_head _ _ _ Hl) Ht).
  cbn [fst snd]. unfold w, note, served. cbn [start requests log app plus].
  rewrite <- app_assoc, Nat.add_1_r. reflexivity.
Qed.

(** The run that observes [obs], all pending, and whose next fetch fails. *)
Lemma run_until_failure (obs : list Job.StatusPayload) (err : Http.Error) :
  callback_returns sc -> Forall pending obs ->
  answers sc 0 obs -> get_reply sc (length obs) = inl err ->
  run sc (pollStatus doc iv) start
  ≈ Ret ({| requests := length obs + 1;
            log := flat_map (round doc ms) obs
                     ++ [Fetched url; Logged "Polling error:" err] |},
         inl err).
Proof.
  intros Hcb Hp Ha He.
  rewrite (run_rounds obs Hcb Hp start Ha).
  set (w := {| requests := _; log := _ |}).
  rewrite run_pollStatus. fold ms.
  rewrite (poll_outcome_failed w err He).
  cbn [fst snd]. unfold w, note, served. cbn [start requests log app plus].
  rewrite <- app_assoc, Nat.add_1_r. reflexivity.
Qed.

End PollFacts.

Section PollTermination.

Import Effects.
Import ocrService.
Local Open Scope nat_scope.

Variable sc : Script.
Variable doc : string.
Variable iv : Param.Arg Z.

Hypothesis Hcb : callback_returns sc.
Hypothesis Hall : forall n, exists s, get_reply sc n = ok s.



End PollTermination.

Section PollOrder.

Import Effects.
Import ocrService.
Local Open Scope nat_scope.

Variable sc : Script.

Let in_order : World -> Prop := in_fetch_order sc.

Lemma in_order_start : in_order start.
Proof. reflexivity. Qed.

Lemma in_order_delivered (w : World) (url : string)
    (response : Http.Response Job.StatusPayload) (rest : list Effect) :
  in_order w -> get_reply sc (requests w) = inr response -> deliveries rest = [] ->
  in_order {| requests := S (requests w);
              log := log w ++ [Fetched url; Delivered (Http.data response)] ++ rest |}.
Proof.
  unfold in_order, in_fetch_order. intros Hw Hr Hrest. cbn [requests log].
  rewrite !deliveries_app, Hrest, app_nil_r, seq_S, !List.map_app, Hw.
  cbn [deliveries flat_map app List.map plus]. rewrite Hr.
  now destruct response.
Qed.

Lemma run_in_order (doc : string) (iv : Param.Arg Z)
    (w : World) (r : Job.StatusPayload) :
  run sc (pollStatus doc iv) start ≈ Ret (w, inr r) ->
  in_fetch_order sc w
  /\ (exists earlier, deliveries (log w) = earlier ++ [r])
  /\ terminal (Job.status r) = true.
Proof.
  apply (run_pollStatus_inv sc doc iv in_order
           (fun w x => match x with
                       | inl _ => True
                       | inr r => in_order w
                                  /\ (exists earlier, deliveries (log w) = earlier ++ [r])
                                  /\ terminal (Job.status r) = true
                       end));
    [|exact in_order_start].
  intros w0 Hw0. cbv zeta. unfold poll_outcome.
  destruct (get_reply sc (requests w0)) as [err|response] eqn:Hr; cbn [fst snd]; [exact I|].
  destruct (onUpdate sc _ _) as [err|[]]; cbn [fst snd]; [exact I|].
  destruct (terminal _) eqn:Ht; cbn [fst snd].
  - split; [|split; [|exact Ht]].
    + pose proof (in_order_delivered w0 (status_url doc) response [] Hw0 Hr eq_refl) as H.
      unfold note, served. cbn [requests log]. rewrite <- app_assoc. exact H.
    + exists (deliveries (log w0)). unfold note, served. cbn [requests log].
      rewrite !deliveries_app. cbn [deliveries flat_map app]. now rewrite app_nil_r.
  - pose proof (in_order_delivered w0 (status_url doc) response
                  [Waited (Param.default_to 2000%Z iv)] Hw0 Hr eq_refl) as H.
    unfold note, served. cbn [requests log]. rewrite <- !app_assoc. exact H.
Qed.

End PollOrder.

(* ===================================================================== *)
(** * Properties of the services                                          *)
(* ===================================================================== *)




(** C3: when, after [N] pending observations, the next status fetch fails
    with [err], the loop rejects with that very [err]; the failed fetch is
    the last request made ([N + 1] in all, so it is not retried and nothing
    is fetched after it), the callback has been given the [N] earlier
    observations and nothing for the failed fetch, and the only thing that
    follows the failed fetch is the console message. *)
Theorem pollStatus_stops_on_failed_fetch
    (sc : Effects.Script) (doc : string) (iv : Param.Arg Z)
    (obs : list Job.StatusPayload) (err : Http.Error) :
  ocrService.callback_returns sc ->
  ocrService.answers sc 0 obs ->
  Forall ocrService.pending obs ->
  Effects.get_reply sc (length obs) = inl err ->
  exists w,
    Effects.run sc (ocrService.pollStatus doc iv) Effects.start ≈ Ret (w, inl err)
    /\ Effects.requests w = (length obs + 1)%nat
    /\ length (Effects.fetches (Effects.log w)) = (length obs + 1)%nat
    /\ Effects.deliveries (Effects.log w) = obs
    /\ exists before,
         length (Effects.fetches before) = length obs
         /\ Effects.log w
            = before ++ [Effects.Fetched (ocrService.status_url doc);
                         Effects.Logged "Polling error:" err].
Proof.
  intros Hcb Ha Hp He. eexists. split.
  - exact (run_until_failure sc doc iv obs err Hcb Hp Ha He).
  - cbn [Effects.requests Effects.log]. split; [reflexivity|].
    rewrite fetches_app, deliveries_app, fetches_rounds, deliveries_rounds.
    split; [|split].
    + rewrite length_app, repeat_length. reflexivity.
    + apply app_nil_r.
    + eexists. split; [|reflexivity].
      rewrite fetches_rounds. apply repeat_length.
Qed.

Lemma pollStatus_stops_on_failed_fetch_witness :
  exists w,
    Effects.run Example.breaks (ocrService.pollStatus "d1" (Param.Given 500%Z)) Effects.start
      ≈ Ret (w, inl Example.network_error)
    /\ Effects.requests w = 2%nat
    /\ length (Effects.fetches (Effects.log w)) = 2%nat
    /\ Effects.deliveries (Effects.log w) = [Example.observation "preprocessing"]
    /\ exists before,
         length (Effects.fetches before) = 1%nat
         /\ Effects.log w
            = before ++ [Effects.Fetched "/ocr/d1/status";
                         Effects.Logged "Polling error:" Example.network_error].
Proof.
  apply (pollStatus_stops_on_failed_fetch Example.breaks "d1" (Param.Given 500%Z)
           [Example.observation "preprocessing"] Example.network_error).
  - intros w s. reflexivity.
  - intros i s Hs.
    destruct i as [|i]; [inversion Hs; reflexivity|].
    destruct i; discriminate.
  - repeat constructor.
  - reflexivity.
Defined.

(** C4: whenever the loop resolves with a value [r], the values the
    callback was given are the bodies of the replies, one per request and
    in the order of the requests; [r] is the last of them; and [r] is a
    terminal observation. *)
Theorem pollStatus_delivers_in_fetch_order
    (sc : Effects.Script) (doc : string) (iv : Param.Arg Z)
    (w : Effects.World) (r : Job.StatusPayload) :
  Effects.run sc (ocrService.pollStatus doc iv) Effects.start ≈ Ret (w, inr r) ->
  ocrService.in_fetch_order sc w
  /\ (exists earlier, Effects.deliveries (Effects.log w) = earlier ++ [r])
  /\ ocrService.terminal (Job.status r) = true.
Proof. apply run_in_order. Qed.

Lemma pollStatus_delivers_in_fetch_order_witness :
  let s1 := Example.observation "preprocessing" in
  let s2 := Example.observation "ocr_processing" in
  let s3 := Example.observation "completed" in
  let w := {| Effects.requests := 3;
              Effects.log :=
                ocrService.round "d1" 2000 s1 ++ ocrService.round "d1" 2000 s2
                  ++ [Effects.Fetched "/ocr/d1/status"; Effects.Delivered s3] |} in
  ocrService.in_fetch_order Example.completes w
  /\ (exists earlier, Effects.deliveries (Effects.log w) = earlier ++ [s3])
  /\ ocrService.terminal (Job.status s3) = true.
Proof.
  intros s1 s2 s3 w.
  apply (pollStatus_delivers_in_fetch_order Example.completes "d1" Param.Absent w s3).
  apply (run_until_terminal Example.completes "d1" Param.Absent [s1; s2] s3).
  - intros w0 s. reflexivity.
  - repeat constructor.
  - reflexivity.
  - intros i s Hs.
    do 3 (destruct i as [|i]; [inversion Hs; reflexivity|]).
    destruct i; discriminate.
Defined.

(** C8: called with no restriction on the documents (the argument absent,
    or null) and a result-count hint [k], [queryDocuments] makes one
    request, a POST to /query/ whose body holds the query as given,
    [document_ids = null] and [top_k = k], and resolves with the body of
    the server's reply as it is. *)
Theorem queryDocuments_unrestricted
    (sc : Effects.Script) (query : string)
    (documentIds : Param.Arg (option (list string))) (k : Z)
    (reply : Query.Answer) :
  documentIds = Param.Absent \/ documentIds = Param.Given None ->
  Effects.post_reply sc 0 = inr {| Http.data := reply |} ->
  Effects.run sc (queryService.queryDocuments query documentIds (Param.Given k))
    Effects.start
  ≈ Ret ({| Effects.requests := 1;
            Effects.log :=
              [ Effects.Posted "/query/"
                  {| Query.query := query;
                     Query.document_ids := None;
                     Query.top_k := k |} ] |},
         inr reply).
Proof.
  intros Hids Hreply. unfold queryService.queryDocuments.
  rewrite run_bind, run_trigger. cbn. rewrite bind_ret_l. cbn.
  rewrite Hreply, run_ret.
  destruct Hids as [-> | ->]; reflexivity.
Qed.

Lemma queryDocuments_unrestricted_witness :
  Effects.run Example.completes
    (queryService.queryDocuments "total due?" Param.Absent (Param.Given 5%Z))
    Effects.start
  ≈ Ret ({| Effects.requests := 1;
            Effects.log :=
              [ Effects.Posted "/query/"
                  {| Query.query := "total due?";
                     Query.document_ids := None;
                     Query.top_k := 5 |} ] |},
         inr Example.answer).
Proof.
  apply (queryDocuments_unrestricted Example.completes "total due?" Param.Absent 5
           Example.answer).
  - left. reflexivity.
  - reflexivity.
Defined.

(* ===================================================================== *)
(** * Running the hooks                                                   *)
(* ===================================================================== *)

Section HookRun.

Import Effects Hook.
Import LeafNotations.

Context {C : Type}.
Variable env : Env.

Let St : Type := (World * list (Entry C))%type.

Lemma hook_bind {A B : Type} (t : itree (hookE C) A) (k : A -> itree (hookE C) B) (s : St) :
  Hook.run env (ITree.bind t k) s
  ≈ ITree.bind (Hook.run env t s) (fun sx => Hook.run env (k (snd sx)) (fst sx)).
Proof. unfold Hook.run. rewrite interp_state_bind. reflexivity. Qed.

Lemma hook_ret {A : Type} (x : A) (s : St) : Hook.run env (Ret x) s ≈ Ret (s, x).
Proof. unfold Hook.run. rewrite interp_state_ret. reflexivity. Qed.

Lemma hook_trigger {A : Type} (e : hookE C A) (s : St) :
  Hook.run env (ITree.trigger e) s ≈ Hook.handle env A e s.
Proof. unfold Hook.run. apply interp_state_trigger. Qed.

Lemma hook_set (c : C) (s : St) :
  Hook.run env (set c) s ≈ Ret ((fst s, snd s ++ [Called c]), tt).
Proof. unfold set. rewrite hook_trigger. reflexivity. Qed.

(** A service event in a hook is handled as in the service's own runs. *)
Lemma hook_service {T : Type} (e : serviceE T) (s : St) :
  Hook.run env (service e) s
  ≈ ITree.bind (Effects.handle (script env) T e (fst s))
      (fun wx => Ret ((fst wx, snd s), snd wx)).
Proof. unfold service. rewrite hook_trigger. reflexivity. Qed.

Lemma hook_iter {I R : Type} (body : I -> itree (hookE C) (I + R)) (i : I) (s : St) :
  Hook.run env (ITree.iter body i) s
  ≈ ITree.bind (Hook.run env (body i) s)
      (fun sx => match snd sx with
                 | inl i' => Hook.run env (ITree.iter body i') (fst sx)
                 | inr r => Ret (fst sx, r)
                 end).
Proof.
  rewrite unfold_iter at 1. rewrite hook_bind.
  apply eutt_eq_bind. intros [s' [i'|r]]; cbn.
  - unfold Hook.run. rewrite interp_state_tau, tau_eutt. reflexivity.
  - apply hook_ret.
Qed.

(** The invariant rule for a loop run inside a hook. *)
Lemma hook_iter_inv {I R : Type} (body : I -> itree (hookE C) (I + R))
    (Inv : St -> I -> Prop) (Q : St -> R -> Prop) :
  (forall s i s' x, Inv s i -> (s', x) ∈ Hook.run env (body i) s ->
     match x with inl i' => Inv s' i' | inr r => Q s' r end) ->
  forall s i, Inv s i ->
  forall s' r, (s', r) ∈ Hook.run env (ITree.iter body i) s -> Q s' r.
Proof.
  intros Hbody s i Hinv s' r Hleaf.
  unfold Hook.run in Hleaf.
  rewrite (interp_state_iter' _ (Hook.handle env) body i s) in Hleaf.
  unfold Basics.iter, MonadIter_stateT0, Basics.iter, MonadIter_itree in Hleaf.
  revert Hleaf.
  apply (Leaf_iter_inv _ (s, i)
           (fun si => Inv (fst si) (snd si)) (fun sr => Q (fst sr) (snd sr)));
    [|exact Hinv].
  clear s i Hinv s' r. intros [s i] x Hinv Hx. cbn [fst snd] in *.
  apply Leaf_bind_inv in Hx. destruct Hx as [[s' y] [Hy Hx]].
  apply Leaf_Ret_inv in Hx. subst x. cbn [fst snd].
  specialize (Hbody s i s' y Hinv Hy).
  destruct y; exact Hbody.
Qed.

(** What a run returns, when it is known to be a value. *)
Lemma hook_leaf_ret {A : Type} (t : itree (hookE C) A) (s : St) (out : St * A) :
  Hook.run env t s ≈ Ret out ->
  forall x, x ∈ Hook.run env t s -> x = out.
Proof. intros H x Hx. rewrite H in Hx. now apply Leaf_Ret_inv in Hx. Qed.

End HookRun.

(* ===================================================================== *)
(** * Properties of useOCR                                                *)
(* ===================================================================== *)

Section OcrHookFacts.

Import Effects Hook useOCR.
Import LeafNotations.
Local Open Scope nat_scope.

Variable env : Env.
Variable doc : string.

Let St : Type := (World * list (Entry Setter))%type.

Lemma pollStatus_in_hook :
  interp (with_callback onStatusUpdate) (ocrService.pollStatus doc Param.Absent)
  ≈ ITree.iter (poll doc) tt.
Proof.
  unfold ocrService.pollStatus. cbn [Param.default_to].
  rewrite (interp_iter' _ _ (poll doc)); [reflexivity|].
  intros []. reflexivity.
Qed.

Ltac service_event :=
  rewrite interp_bind, interp_trigger; cbn [with_callback];
  rewrite hook_bind, hook_service; cbn; rewrite !bind_ret_l; cbn.

Lemma run_poll_in_hook (s : St) :
  Hook.run env (poll doc tt) s ≈ Ret (poll_outcome env doc s).
Proof.
  destruct s as [w l].
  unfold poll, poll_outcome, ocrService.poll, ocrService.getProcessingStatus.
  rewrite !interp_bind, interp_trigger. cbn [with_callback].
  rewrite !bind_bind, hook_bind, hook_service. cbn.
  rewrite !bind_ret_l. cbn.
  destruct (get_reply (script env) (requests w)) as [err|response].
  - rewrite interp_ret, bind_ret_l. service_event.
    rewrite interp_ret. apply hook_ret.
  - rewrite interp_ret, bind_ret_l, interp_bind, interp_trigger. cbn [with_callback].
    unfold onStatusUpdate.
    rewrite !bind_bind, hook_bind, hook_set, bind_ret_l. cbn [fst snd].
    destruct (ocrService.terminal _).
    + rewrite hook_bind, hook_set, bind_ret_l. cbn [fst snd].
      rewrite bind_ret_l, interp_ret, <- app_assoc. apply hook_ret.
    + rewrite bind_ret_l, bind_ret_l. cbn. service_event.
      rewrite interp_ret. apply hook_ret.
Qed.

(** One activation of the loop inside the hook. *)
Lemma run_loop_in_hook (s : St) :
  Hook.run env (ITree.iter (poll doc) tt) s
  ≈ match snd (poll_outcome env doc s) with
    | inl _ => Hook.run env (ITree.iter (poll doc) tt) (fst (poll_outcome env doc s))
    | inr r => Ret (fst (poll_outcome env doc s), r)
    end.
Proof.
  rewrite hook_iter, run_poll_in_hook, bind_ret_l.
  destruct (snd _) as [[]|r]; reflexivity.
Qed.

(** The rounds of [obs], all pending: the loop is where it started, the
    status having been set to each of them in turn. *)
Lemma run_rounds_in_hook (obs : list Job.StatusPayload) :
  Forall ocrService.pending obs ->
  forall s : St, ocrService.answers (script env) (requests (fst s)) obs ->
  Hook.run env (ITree.iter (poll doc) tt) s
  ≈ Hook.run env (ITree.iter (poll doc) tt)
      ({| requests := requests (fst s) + length obs;
          log := log (fst s)
                   ++ flat_map (fun _ => [Fetched (ocrService.status_url doc); Waited 2000]) obs |},
       snd s ++ List.map (fun o => Called (setStatus (Some o))) obs).
Proof.
  intros Hp. induction Hp as [|o obs Ho Hp IH]; intros [w l] Ha; cbn [fst snd] in *.
  - destruct w as [n lg]. cbn [requests log length flat_map List.map].
    now rewrite Nat.add_0_r, !app_nil_r.
  - rewrite run_loop_in_hook. unfold poll_outcome. cbn [fst snd].
    rewrite (answers_head (script env) _ _ _ Ha). cbn [ocrService.ok Http.data].
    unfold ocrService.pending in Ho. rewrite Ho. cbn [fst snd].
    rewrite IH by (apply (answers_tail (script env) Param.Absent _ _ _ Ha)).
    match goal with |- Hook.run _ _ ?a ≈ Hook.run _ _ ?b => replace a with b; [reflexivity|] end.
    unfold note, served. cbn [fst snd requests log length flat_map List.map].
    f_equal; [f_equal; [lia|]|]; now rewrite <- !app_assoc.
Qed.

(** The hook up to the first status fetch. *)
Lemma run_startProcessing (engines : Param.Arg (option (list string))) :
  Hook.run env (startProcessing doc engines) fresh
  ≈ match process_reply env 0 with
    | inl err =>
        Ret ((counted start, opening doc engines ++ closing err), Failure (Http.detail err))
    | inr _ =>
        ITree.bind
          (Hook.run env (ITree.iter (poll doc) tt) (counted start, opening doc engines))
          (fun sx =>
             match snd sx with
             | inl err =>
                 Ret ((fst (fst sx), snd (fst sx) ++ closing err), Failure (Http.detail err))
             | inr _ => Ret (fst sx, Success)
             end)
    end.
Proof.
  unfold startProcessing, fresh.
  rewrite hook_bind, hook_set, bind_ret_l. cbn [fst snd].
  rewrite hook_bind, hook_set, bind_ret_l. cbn [fst snd].
  unfold ocrService_startProcessing.
  rewrite bind_bind, hook_bind, hook_trigger. cbn. rewrite bind_ret_l. cbn.
  destruct (process_reply env 0) as [err|response].
  - rewrite bind_ret_l. cbn iota. unfold failed.
    rewrite hook_bind, hook_set, bind_ret_l. cbn [fst snd].
    rewrite hook_bind, hook_set, bind_ret_l. cbn [fst snd].
    rewrite hook_ret. unfold opening, closing. cbn [app]. reflexivity.
  - rewrite bind_ret_l. cbn iota.
    rewrite hook_bind, pollStatus_in_hook.
    apply eutt_eq_bind. intros [[w l] [err|o]]; cbn [fst snd].
    + unfold failed.
      rewrite hook_bind, hook_set, bind_ret_l. cbn [fst snd].
      rewrite hook_bind, hook_set, bind_ret_l. cbn [fst snd].
      rewrite hook_ret, <- app_assoc. reflexivity.
    + apply hook_ret.
Qed.

End OcrHookFacts.

Section OcrHookState.

Import Effects Hook useOCR.
Local Open Scope nat_scope.

Lemma calls_app {C : Type} (l1 l2 : list (Entry C)) : calls (l1 ++ l2) = calls l1 ++ calls l2.
Proof. apply flat_map_app. Qed.

Lemma calls_Called {C A : Type} (f : A -> C) (l : list A) :
  calls (List.map (fun a => Called (f a)) l) = List.map f l.
Proof. induction l as [|a l IH]; simpl; [reflexivity|now rewrite IH]. Qed.

Lemma after_app (s0 : State) (l1 l2 : list (Entry Setter)) :
  after s0 (l1 ++ l2) = after (after s0 l1) l2.
Proof. unfold after. now rewrite calls_app, fold_left_app. Qed.

Lemma last_cons_default {A : Type} (l : list A) :
  forall x d : A, List.last (x :: l) d = List.last l x.
Proof.
  induction l as [|y l IH]; intros x d; [reflexivity|].
  change (List.last (x :: y :: l) d) with (List.last (y :: l) d).
  now rewrite !IH.
Qed.

(** Setting the status again and again leaves the last one. *)
Lemma after_statuses (s0 : State) (obs : list Job.StatusPayload) :
  after s0 (List.map (fun o => Called (setStatus (Some o))) obs)
  = {| processing := processing s0;
       status := List.last (List.map Some obs) (status s0);
       error := error s0 |}.
Proof.
  unfold after. rewrite calls_Called. revert s0.
  induction obs as [|o obs IH]; intros s0.
  - now destruct s0.
  - cbn [List.map fold_left]. rewrite IH. cbn [apply processing error status].
    now rewrite last_cons_default.
Qed.

Lemma detail_or_nonempty (err : Http.Error) (fallback : string) :
  fallback <> "" -> Http.detail_or err fallback <> "".
Proof.
  intros Hf. unfold Http.detail_or.
  destruct (Http.detail err) as [d|]; [|exact Hf].
  destruct (String.eqb_spec d ""); assumption.
Qed.

Lemma spaced_fetch_wait (url : string) (ms : Z) (obs : list Job.StatusPayload)
    (rest : list Effect) :
  spaced_from ms false (flat_map (fun _ => [Fetched url; Waited ms]) obs ++ rest)
  = spaced_from ms false rest.
Proof.
  induction obs as [|o obs IH]; [reflexivity|].
  cbn [flat_map app spaced_from negb andb]. now rewrite Z.eqb_refl.
Qed.

Variable env : Env.
Variable doc : string.
Variable engines : Param.Arg (option (list string)).

(** The hook's run when the start request is accepted and the status
    fetches answer [obs], all pending, and then the terminal [last]. *)
Lemma run_startProcessing_terminal (obs : list Job.StatusPayload) (last : Job.StatusPayload)
    (ack : Http.Response string) :
  process_reply env 0 = inr ack ->
  ocrService.answers (script env) 1 (obs ++ [last]) ->
  Forall ocrService.pending obs ->
  ocrService.terminal (Job.status last) = true ->
  Hook.run env (startProcessing doc engines) fresh
  ≈ Ret (({| requests := length obs + 2;
             log := flat_map (fun _ => [Fetched (ocrService.status_url doc); Waited 2000]) obs
                      ++ [Fetched (ocrService.status_url doc)] |},
          opening doc engines
            ++ List.map (fun o => Called (setStatus (Some o))) obs
            ++ [Called (setStatus (Some last)); Called (setProcessing false)]),
         Success).
Proof.
  intros Hack Ha Hp Ht. rewrite run_startProcessing, Hack.
  apply (answers_app (script env) Param.Absent) in Ha. destruct Ha as [Ha Hl].
  rewrite (run_rounds_in_hook env doc obs Hp (counted start, opening doc engines) Ha).
  cbn [fst snd counted start requests log app].
  rewrite run_loop_in_hook. unfold poll_outcome. cbn [fst snd requests].
  rewrite (answers_head _ _ _ _ Hl). cbn [ocrService.ok Http.data].
  rewrite Ht. cbn [fst snd]. rewrite bind_ret_l. cbn [fst snd].
  unfold served. cbn [requests log].
  rewrite <- !app_assoc. replace (S (1 + length obs)) with (length obs + 2) by lia.
  reflexivity.
Qed.

(** The same, the fetch after [obs] failing. *)
Lemma run_startProcessing_failure (obs : list Job.StatusPayload) (err : Http.Error)
    (ack : Http.Response string) :
  process_reply env 0 = inr ack ->
  ocrService.answers (script env) 1 obs ->
  Forall ocrService.pending obs ->
  get_reply (script env) (1 + length obs) = inl err ->
  Hook.run env (startProcessing doc engines) fresh
  ≈ Ret (({| requests := length obs + 2;
             log := flat_map (fun _ => [Fetched (ocrService.status_url doc); Waited 2000]) obs
                      ++ [Fetched (ocrService.status_url doc); Logged "Polling error:" err] |},
          opening doc engines
            ++ List.map (fun o => Called (setStatus (Some o))) obs
            ++ closing err),
         Failure (Http.detail err)).
Proof.
  intros Hack Ha Hp He. rewrite run_startProcessing, Hack.
  rewrite (run_rounds_in_hook env doc obs Hp (counted start, opening doc engines) Ha).
  cbn [fst snd counted start requests log app].
  rewrite run_loop_in_hook. unfold poll_outcome. cbn [fst snd requests].
  rewrite He. cbn [fst snd]. rewrite bind_ret_l. cbn [fst snd].
  unfold served, note. cbn [requests log].
  rewrite <- !app_assoc. replace (S (1 + length obs)) with (length obs + 2) by lia.
  reflexivity.
Qed.

End OcrHookState.

Section OcrHookSettles.

Import Effects Hook useOCR.
Import LeafNotations.

Variable env : Env.
Variable doc : string.
Variable engines : Param.Arg (option (list string)).
Variable s0 : State.

(** What holds of the hook's state as long as the loop goes on: no error,
    and a status that is the one it had or a pending observation. *)
Let going (s : World * list (Entry Setter)) : Prop :=
  useOCR.error (after s0 (snd s)) = None
  /\ (status (after s0 (snd s)) = status s0
      \/ exists o, status (after s0 (snd s)) = Some o /\ ocrService.pending o).

(** What holds of it when the loop stops. *)
Let settled (s : World * list (Entry Setter)) (r : Http.Error + Job.StatusPayload) : Prop :=
  match r with
  | inl _ => going s
  | inr o =>
      processing (after s0 (snd s)) = false
      /\ status (after s0 (snd s)) = Some o
      /\ ocrService.terminal (Job.status o) = true
      /\ useOCR.error (after s0 (snd s)) = None
  end.

Lemma loop_in_hook_settles (s s' : World * list (Entry Setter))
    (r : Http.Error + Job.StatusPayload) :
  going s ->
  (s', r) ∈ Hook.run env (ITree.iter (poll doc) tt) s ->
  settled s' r.
Proof.
  intros Hs.
  apply (hook_iter_inv env (poll doc) (fun s _ => going s) settled); [|exact Hs].
  clear s s' r Hs. intros s [] s' x Hs Hx.
  apply (hook_leaf_ret env _ _ _ (run_poll_in_hook env doc s)) in Hx.
  unfold poll_outcome in Hx.
  destruct (get_reply (script env) (requests (fst s))) as [err|response].
  - inversion Hx; subst. exact Hs.
  - destruct Hs as [He _].
    destruct (ocrService.terminal _) eqn:Ht; inversion Hx; subst;
      cbn [snd settled]; unfold going; cbn [snd].
    + rewrite after_app. unfold after at 1 2 3. cbn. now rewrite He.
    + rewrite after_app. unfold after at 1 2. cbn. split; [exact He|].
      right. eexists. split; [reflexivity|exact Ht].
Qed.

Lemma startProcessing_leaf (s' : World * list (Entry Setter)) (r : Result) :
  (s', r) ∈ Hook.run env (startProcessing doc engines) fresh ->
  processing (after s0 (snd s')) = false
  /\ match r with
     | Success =>
         useOCR.error (after s0 (snd s')) = None
         /\ exists o, status (after s0 (snd s')) = Some o
                      /\ ocrService.terminal (Job.status o) = true
     | Failure _ =>
         (exists msg, useOCR.error (after s0 (snd s')) = Some msg /\ msg <> "")
         /\ (status (after s0 (snd s')) = status s0
             \/ exists o, status (after s0 (snd s')) = Some o /\ ocrService.pending o)
     end.
Proof.
  intros Hleaf.
  rewrite run_startProcessing in Hleaf.
  assert (Hclose : forall l err,
            processing (after s0 (l ++ closing err)) = false
            /\ (exists msg, useOCR.error (after s0 (l ++ closing err)) = Some msg
                            /\ msg <> "")
            /\ status (after s0 (l ++ closing err)) = status (after s0 l)).
  { intros l err. rewrite after_app. split; [reflexivity|]. split; [|reflexivity].
    eexists. split; [reflexivity|]. now apply detail_or_nonempty. }
  destruct (process_reply env 0) as [err|ack].
  - apply Leaf_Ret_inv in Hleaf. inversion Hleaf; subst.
    destruct (Hclose (opening doc engines) err) as (Hp & He & Hst).
    split; [exact Hp|]. split; [exact He|]. left. exact Hst.
  - apply Leaf_bind_inv in Hleaf. destruct Hleaf as [[s1 polled] [Hloop Hend]].
    apply loop_in_hook_settles in Hloop; [|split; [reflexivity|now left]].
    cbn [fst snd] in Hend. destruct polled as [err|o]; apply Leaf_Ret_inv in Hend;
      inversion Hend; subst; cbn [snd].
    + destruct (Hclose (snd s1) err) as (Hp & He & Hst).
      split; [exact Hp|]. split; [exact He|]. rewrite Hst. apply Hloop.
    + destruct Hloop as (Hp & Hst & Ht & He). eauto.
Qed.

Lemma startProcessing_leaves (s' : World * list (Entry Setter)) (r : Result) :
  Hook.run env (startProcessing doc engines) fresh ≈ Ret (s', r) ->
  processing (after s0 (snd s')) = false
  /\ match r with
     | Success =>
         useOCR.error (after s0 (snd s')) = None
         /\ exists o, status (after s0 (snd s')) = Some o
                      /\ ocrService.terminal (Job.status o) = true
     | Failure _ =>
         (exists msg, useOCR.error (after s0 (snd s')) = Some msg /\ msg <> "")
         /\ (status (after s0 (snd s')) = status s0
             \/ exists o, status (after s0 (snd s')) = Some o /\ ocrService.pending o)
     end.
Proof.
  intros Hrun. apply startProcessing_leaf. rewrite Hrun. apply Leaf_Ret.
Qed.

End OcrHookSettles.

Section ProcessingPageFacts.

Import Effects Hook.
Import LeafNotations.

Variable env : Env.
Variable doc : string.

Lemma run_handleStartProcessing (s' : World * list (Entry useOCR.Setter))
    (r : useOCR.Result) :
  Hook.run env (useOCR.startProcessing doc Param.Absent) useOCR.fresh ≈ Ret (s', r) ->
  Hook.run env (ProcessingPage.handleStartProcessing doc) useOCR.fresh ≈ Ret (s', true).
Proof.
  intros Hrun. unfold ProcessingPage.handleStartProcessing.
  rewrite hook_bind, Hrun, bind_ret_l. apply hook_ret.
Qed.

Lemma handleStartProcessing_inv (s' : World * list (Entry useOCR.Setter)) (started : bool) :
  Hook.run env (ProcessingPage.handleStartProcessing doc) useOCR.fresh ≈ Ret (s', started) ->
  started = true
  /\ exists r, (s', r) ∈ Hook.run env (useOCR.startProcessing doc Param.Absent) useOCR.fresh.
Proof.
  intros Hrun.
  assert (Hleaf : (s', started)
                  ∈ Hook.run env (ProcessingPage.handleStartProcessing doc) useOCR.fresh)
    by (rewrite Hrun; apply Leaf_Ret).
  unfold ProcessingPage.handleStartProcessing in Hleaf.
  rewrite hook_bind in Hleaf. apply Leaf_bind_inv in Hleaf.
  destruct Hleaf as [[s1 r] [H1 H2]]. cbn [fst snd] in H2.
  rewrite hook_ret in H2. apply Leaf_Ret_inv in H2. inversion H2; subst.
  split; [reflexivity|]. now exists r.
Qed.

Lemma terminal_cases (x : string) :
  ocrService.terminal x = true ->
  (String.eqb x "completed" = true /\ String.eqb x "failed" = false)
  \/ (String.eqb x "completed" = false /\ String.eqb x "failed" = true).
Proof.
  unfold ocrService.terminal.
  destruct (String.eqb_spec x "completed") as [->|_]; [now left|].
  destruct (String.eqb x "failed"); [now right|discriminate].
Qed.

Lemma pending_cases (x : string) :
  ocrService.terminal x = false ->
  String.eqb x "completed" = false /\ String.eqb x "failed" = false.
Proof. unfold ocrService.terminal. apply orb_false_elim. Qed.

End ProcessingPageFacts.

(* ===================================================================== *)
(** * Properties of useQuery and of the query page                        *)
(* ===================================================================== *)

Section QueryHookFacts.

Import Effects Hook useQuery.

Variable env : Env.

Lemma run_executeQuery (query : string)
    (documentIds : Param.Arg (option (list string))) (topK : Param.Arg Z) :
  let w := served start (Posted "/query/" (body query documentIds topK)) in
  let before := [Called (setQuerying true); Called (setError None)] in
  Hook.run env (executeQuery query documentIds topK) fresh
  ≈ Ret match post_reply (script env) 0 with
        | inr response =>
            ((w, before ++ [Called (setResult (Some (Http.data response)));
                            Called (setQuerying false)]),
             Success (Http.data response))
        | inl err =>
            ((w, before ++ [Called (setQuerying false);
                            Called (setError (Some (Http.detail_or err "Query failed")))]),
             Failure (Http.detail err))
        end.
Proof.
  intros w before. unfold executeQuery, fresh.
  rewrite hook_bind, hook_set, bind_ret_l. cbn [fst snd].
  rewrite hook_bind, hook_set, bind_ret_l. cbn [fst snd].
  unfold queryService.queryDocuments. cbn [Param.default_to].
  rewrite interp_bind, interp_trigger. unfold plain at 1.
  rewrite bind_bind, hook_bind, hook_service. cbn. rewrite !bind_ret_l. cbn.
  destruct (post_reply (script env) 0) as [err|response].
  - rewrite interp_ret, bind_ret_l.
    rewrite hook_bind, hook_set, bind_ret_l. cbn [fst snd].
    rewrite hook_bind, hook_set, bind_ret_l. cbn [fst snd].
    apply hook_ret.
  - rewrite interp_ret, bind_ret_l.
    rewrite hook_bind, hook_set, bind_ret_l. cbn [fst snd].
    rewrite hook_bind, hook_set, bind_ret_l. cbn [fst snd].
    apply hook_ret.
Qed.

Lemma run_handleQuery (selectedDocs : list string) (queryHistory : list Query.Answer)
    (query : string) :
  let w := served start
             (Posted "/query/"
                (body query (Param.Given (QueryPage.docIds selectedDocs)) Param.Absent)) in
  let before := [Called (setQuerying true); Called (setError None)] in
  Hook.run env (QueryPage.handleQuery selectedDocs queryHistory query) fresh
  ≈ Ret match post_reply (script env) 0 with
        | inr response =>
            ((w, before ++ [Called (setResult (Some (Http.data response)));
                            Called (setQuerying false)]),
             Http.data response :: queryHistory)
        | inl err =>
            ((w, before ++ [Called (setQuerying false);
                            Called (setError (Some (Http.detail_or err "Query failed")))]),
             queryHistory)
        end.
Proof.
  intros w before. unfold QueryPage.handleQuery.
  rewrite hook_bind, run_executeQuery, bind_ret_l.
  destruct (post_reply (script env) 0); cbn [fst snd]; apply hook_ret.
Qed.

End QueryHookFacts.

(** X1: when the start request is accepted and the status fetches answer
    the pending [obs] and then a terminal [last] ('completed' or 'failed'
    alike), [startProcessing] returns success; the setter calls are
    [setProcessing(true)], [setError(null)], one [setStatus] per observation
    in fetch order, then [setProcessing(false)]; whatever the hook's state
    was, it ends not processing, with status [last] and no error; the
    fetches are spaced by the default 2000 ms. *)
Theorem useOCR_follows_job
    (env : Hook.Env) (doc : string) (engines : Param.Arg (option (list string)))
    (s0 : useOCR.State) (obs : list Job.StatusPayload) (last : Job.StatusPayload)
    (ack : Http.Response string) :
  Hook.process_reply env 0 = inr ack ->
  ocrService.answers (Hook.script env) 1 (obs ++ [last]) ->
  Forall ocrService.pending obs ->
  ocrService.terminal (Job.status last) = true ->
  exists w entries,
    Hook.run env (useOCR.startProcessing doc engines) useOCR.fresh
      ≈ Ret ((w, entries), useOCR.Success)
    /\ Hook.calls entries
       = [useOCR.setProcessing true; useOCR.setError None]
           ++ List.map (fun o => useOCR.setStatus (Some o)) obs
           ++ [useOCR.setStatus (Some last); useOCR.setProcessing false]
    /\ useOCR.after s0 entries
       = {| useOCR.processing := false; useOCR.status := Some last;
            useOCR.error := None |}
    /\ Effects.requests w = (length obs + 2)%nat
    /\ Effects.spaced 2000 (Effects.log w) = true.
Proof.
  intros Hack Ha Hp Ht. eexists. eexists. split.
  - exact (run_startProcessing_terminal env doc engines obs last ack Hack Ha Hp Ht).
  - split; [|split; [|split]].
    + rewrite !calls_app, calls_Called. reflexivity.
    + rewrite !after_app, after_statuses. reflexivity.
    + reflexivity.
    + cbn [Effects.log]. unfold Effects.spaced. now rewrite spaced_fetch_wait.
Qed.

Lemma useOCR_follows_job_witness :
  let obs := [Example.observation "preprocessing"] in
  let last := Example.observation "failed" in
  exists w entries,
    Hook.run (HookExample.accepting HookExample.job_fails)
      (useOCR.startProcessing "d1" Param.Absent) useOCR.fresh
      ≈ Ret ((w, entries), useOCR.Success)
    /\ Hook.calls entries
       = [useOCR.setProcessing true; useOCR.setError None]
           ++ List.map (fun o => useOCR.setStatus (Some o)) obs
           ++ [useOCR.setStatus (Some last); useOCR.setProcessing false]
    /\ useOCR.after useOCR.initial entries
       = {| useOCR.processing := false; useOCR.status := Some last;
            useOCR.error := None |}
    /\ Effects.requests w = 3%nat
    /\ Effects.spaced 2000 (Effects.log w) = true.
Proof.
  intros obs last.
  apply (useOCR_follows_job (HookExample.accepting HookExample.job_fails) "d1" Param.Absent
           useOCR.initial obs last {| Http.data := "Processing started" |}).
  - reflexivity.
  - intros i s Hs.
    do 2 (destruct i as [|i]; [inversion Hs; reflexivity|]).
    destruct i; discriminate.
  - repeat constructor.
  - reflexivity.
Defined.

(** X2: when a status fetch fails after the pending [obs], [startProcessing]
    returns failure with the error's detail; the hook ends not processing,
    its error set to the detail or, without one, to 'Processing failed',
    and its status left at the last observation delivered (at what it was,
    if there was none). *)
Theorem useOCR_fetch_failure
    (env : Hook.Env) (doc : string) (engines : Param.Arg (option (list string)))
    (s0 : useOCR.State) (obs : list Job.StatusPayload) (err : Http.Error)
    (ack : Http.Response string) :
  Hook.process_reply env 0 = inr ack ->
  ocrService.answers (Hook.script env) 1 obs ->
  Forall ocrService.pending obs ->
  Effects.get_reply (Hook.script env) (1 + length obs) = inl err ->
  exists w entries,
    Hook.run env (useOCR.startProcessing doc engines) useOCR.fresh
      ≈ Ret ((w, entries), useOCR.Failure (Http.detail err))
    /\ useOCR.after s0 entries
       = {| useOCR.processing := false;
            useOCR.status := List.last (List.map Some obs) (useOCR.status s0);
            useOCR.error := Some (Http.detail_or err "Processing failed") |}
    /\ Effects.requests w = (length obs + 2)%nat.
Proof.
  intros Hack Ha Hp He. eexists. eexists. split.
  - exact (run_startProcessing_failure env doc engines obs err ack Hack Ha Hp He).
  - split; [|reflexivity].
    rewrite !after_app, after_statuses. reflexivity.
Qed.

Lemma useOCR_fetch_failure_witness :
  exists w entries,
    Hook.run (HookExample.accepting HookExample.status_down)
      (useOCR.startProcessing "d1" Param.Absent) useOCR.fresh
      ≈ Ret ((w, entries), useOCR.Failure (Some "Document not found"))
    /\ useOCR.after useOCR.initial entries
       = {| useOCR.processing := false;
            useOCR.status := Some (Example.observation "ocr_processing");
            useOCR.error := Some "Document not found" |}
    /\ Effects.requests w = 4%nat.
Proof.
  apply (useOCR_fetch_failure (HookExample.accepting HookExample.status_down) "d1"
           Param.Absent useOCR.initial
           [Example.observation "preprocessing"; Example.observation "ocr_processing"]
           HookExample.not_found {| Http.data := "Processing started" |}).
  - reflexivity.
  - intros i s Hs.
    do 2 (destruct i as [|i]; [inversion Hs; reflexivity|]).
    destruct i; discriminate.
  - repeat constructor.
  - reflexivity.
Defined.

(** X3: when the start request itself is refused, [startProcessing] makes
    no status fetch and no wait at all; it returns failure, and the hook
    ends not processing, with the error message set and its status
    untouched. *)
Theorem useOCR_start_refused
    (env : Hook.Env) (doc : string) (engines : Param.Arg (option (list string)))
    (s0 : useOCR.State) (err : Http.Error) :
  Hook.process_reply env 0 = inl err ->
  exists w entries,
    Hook.run env (useOCR.startProcessing doc engines) useOCR.fresh
      ≈ Ret ((w, entries), useOCR.Failure (Http.detail err))
    /\ Effects.log w = []
    /\ Effects.requests w = 1%nat
    /\ useOCR.after s0 entries
       = {| useOCR.processing := false;
            useOCR.status := useOCR.status s0;
            useOCR.error := Some (Http.detail_or err "Processing failed") |}.
Proof.
  intros Hrefused. eexists. eexists. split.
  - rewrite run_startProcessing, Hrefused. reflexivity.
  - repeat split.
Qed.

Lemma useOCR_start_refused_witness :
  exists w entries,
    Hook.run (HookExample.refusing Example.completes)
      (useOCR.startProcessing "d1" (Param.Given (Some ["tesseract"]))) useOCR.fresh
      ≈ Ret ((w, entries), useOCR.Failure None)
    /\ Effects.log w = []
    /\ Effects.requests w = 1%nat
    /\ useOCR.after useOCR.initial entries
       = {| useOCR.processing := false;
            useOCR.status := None;
            useOCR.error := Some "Processing failed" |}.
Proof.
  apply (useOCR_start_refused (HookExample.refusing Example.completes) "d1"
           (Param.Given (Some ["tesseract"])) useOCR.initial Example.network_error).
  reflexivity.
Defined.

(** X4: whatever the server does, if [startProcessing] returns, the hook is
    no longer processing; on success its error is null and its status is a
    terminal observation; on failure its error is a non-empty message and
    its status is what it was before the call or a pending observation. *)
Theorem useOCR_never_left_processing
    (env : Hook.Env) (doc : string) (engines : Param.Arg (option (list string)))
    (s0 : useOCR.State) (s' : Effects.World * list (Hook.Entry useOCR.Setter))
    (r : useOCR.Result) :
  Hook.run env (useOCR.startProcessing doc engines) useOCR.fresh ≈ Ret (s', r) ->
  useOCR.processing (useOCR.after s0 (snd s')) = false
  /\ match r with
     | useOCR.Success =>
         useOCR.error (useOCR.after s0 (snd s')) = None
         /\ exists o, useOCR.status (useOCR.after s0 (snd s')) = Some o
                      /\ ocrService.terminal (Job.status o) = true
     | useOCR.Failure _ =>
         (exists msg, useOCR.error (useOCR.after s0 (snd s')) = Some msg /\ msg <> "")
         /\ (useOCR.status (useOCR.after s0 (snd s')) = useOCR.status s0
             \/ exists o, useOCR.status (useOCR.after s0 (snd s')) = Some o
                          /\ ocrService.pending o)
     end.
Proof. apply startProcessing_leaves. Qed.

Lemma useOCR_never_left_processing_witness :
  let s0 := {| useOCR.processing := true; useOCR.status := None;
               useOCR.error := Some "Processing failed" |} in
  let entries :=
    useOCR.opening "d1" Param.Absent
      ++ [Hook.Called (useOCR.setStatus (Some (Example.observation "ocr_processing")));
          Hook.Called (useOCR.setStatus (Some (Example.observation "completed")));
          Hook.Called (useOCR.setProcessing false)] in
  useOCR.processing (useOCR.after s0 entries) = false
  /\ (useOCR.error (useOCR.after s0 entries) = None
      /\ exists o, useOCR.status (useOCR.after s0 entries) = Some o
                   /\ ocrService.terminal (Job.status o) = true).
Proof.
  intros s0 entries.
  apply (useOCR_never_left_processing (HookExample.accepting Example.completes) "d1"
           Param.Absent s0
           ({| Effects.requests := 3;
               Effects.log := [Effects.Fetched "/ocr/d1/status"; Effects.Waited 2000;
                               Effects.Fetched "/ocr/d1/status"] |}, entries)
           useOCR.Success).
  apply (run_startProcessing_terminal (HookExample.accepting Example.completes) "d1"
           Param.Absent [Example.observation "ocr_processing"]
           (Example.observation "completed") {| Http.data := "Processing started" |}).
  - reflexivity.
  - intros i s Hs.
    do 2 (destruct i as [|i]; [inversion Hs; reflexivity|]).
    destruct i; discriminate.
  - repeat constructor.
  - reflexivity.
Defined.

(** X5: on a freshly mounted page, once [handleStartProcessing] has
    returned, "Start Processing" is no longer rendered.  If the hook's error
    is null, exactly one of "View Results" and "Try Again" is rendered; if
    the hook's error is set (the start request or a status fetch failed),
    none of the three buttons is rendered. *)
Theorem ProcessingPage_actions_after_start
    (env : Hook.Env) (doc : string)
    (s' : Effects.World * list (Hook.Entry useOCR.Setter)) (started : bool) :
  Hook.run env (ProcessingPage.handleStartProcessing doc) useOCR.fresh ≈ Ret (s', started) ->
  let hook := useOCR.after useOCR.initial (snd s') in
  let shown := ProcessingPage.actions started hook in
  ProcessingPage.start_processing shown = false
  /\ (useOCR.error hook = None ->
      xorb (ProcessingPage.view_results shown) (ProcessingPage.try_again shown) = true)
  /\ (useOCR.error hook <> None ->
      ProcessingPage.view_results shown = false
      /\ ProcessingPage.try_again shown = false).
Proof.
  intros Hrun hook shown.
  destruct (handleStartProcessing_inv env doc s' started Hrun) as [-> [r Hleaf]].
  apply (startProcessing_leaf env doc Param.Absent useOCR.initial) in Hleaf.
  destruct Hleaf as [_ Hr]. fold hook in Hr.
  subst shown. unfold ProcessingPage.actions.
  cbn [ProcessingPage.start_processing ProcessingPage.view_results
       ProcessingPage.try_again negb andb].
  split; [reflexivity|].
  destruct r as [|e].
  - destruct Hr as [He (o & Ho & Ht)]. rewrite Ho. split.
    + intros _. destruct (terminal_cases _ Ht) as [[-> ->]|[-> ->]]; reflexivity.
    + intros Hn. contradiction.
  - destruct Hr as [(msg & He & _) Hst]. split.
    + intros Hn. congruence.
    + intros _. destruct Hst as [-> | (o & -> & Hp)].
      * split; reflexivity.
      * apply pending_cases in Hp. exact Hp.
Qed.

Lemma ProcessingPage_actions_after_start_witness :
  let entries :=
    useOCR.opening "d1" Param.Absent
      ++ [Hook.Called (useOCR.setStatus (Some (Example.observation "ocr_processing")))]
      ++ useOCR.closing Example.network_error in
  let hook := useOCR.after useOCR.initial entries in
  let shown := ProcessingPage.actions true hook in
  ProcessingPage.start_processing shown = false
  /\ (useOCR.error hook = None ->
      xorb (ProcessingPage.view_results shown) (ProcessingPage.try_again shown) = true)
  /\ (useOCR.error hook <> None ->
      ProcessingPage.view_results shown = false
      /\ ProcessingPage.try_again shown = false).
Proof.
  intros entries.
  set (sc := Example.script [ocrService.ok (Example.observation "uploaded");
                             ocrService.ok (Example.observation "ocr_processing")]
               (inl Example.network_error)).
  apply (ProcessingPage_actions_after_start (HookExample.accepting sc) "d1"
           ({| Effects.requests := 3;
               Effects.log := [Effects.Fetched "/ocr/d1/status"; Effects.Waited 2000;
                               Effects.Fetched "/ocr/d1/status";
                               Effects.Logged "Polling error:" Example.network_error] |},
            entries) true).
  apply (run_handleStartProcessing (HookExample.accepting sc) "d1" _
           (useOCR.Failure (Http.detail Example.network_error))).
  apply (run_startProcessing_failure (HookExample.accepting sc) "d1" Param.Absent
           [Example.observation "ocr_processing"] Example.network_error
           {| Http.data := "Processing started" |}).
  - reflexivity.
  - intros i s Hs.
    destruct i as [|i]; [inversion Hs; reflexivity|].
    destruct i; discriminate.
  - repeat constructor.
  - reflexivity.
Defined.

(** After "Try Again", whatever the hook's state was, the hook is back in
    its initial state and "Start Processing" is the one button rendered. *)
Lemma ProcessingPage_try_again (hook : useOCR.State) :
  let hook' := useOCR.after hook (fst ProcessingPage.tryAgain) in
  hook' = useOCR.initial
  /\ ProcessingPage.actions (snd ProcessingPage.tryAgain) hook'
     = {| ProcessingPage.start_processing := true;
          ProcessingPage.view_results := false;
          ProcessingPage.try_again := false |}.
Proof. split; reflexivity. Qed.

(** X6: [executeQuery] always returns, after one POST to /query/ that
    carries the query, the document ids (null by default) and [top_k] (5 by
    default); the hook ends not querying.  On success the result is the
    reply and the error is null; on failure the error is the reply's
    detail or, without one (or with an empty one), 'Query failed', so never
    empty, and the result is left at what it was before the call. *)
Theorem useQuery_settles
    (env : Hook.Env) (query : string)
    (documentIds : Param.Arg (option (list string))) (topK : Param.Arg Z)
    (s0 : useQuery.State) :
  exists w entries r,
    Hook.run env (useQuery.executeQuery query documentIds topK) useQuery.fresh
      ≈ Ret ((w, entries), r)
    /\ Effects.log w
       = [Effects.Posted "/query/"
            {| Query.query := query;
               Query.document_ids := Param.default_to None documentIds;
               Query.top_k := Param.default_to 5%Z topK |}]
    /\ useQuery.querying (useQuery.after s0 entries) = false
    /\ match Effects.post_reply (Hook.script env) 0 with
       | inr response =>
           r = useQuery.Success (Http.data response)
           /\ useQuery.result (useQuery.after s0 entries) = Some (Http.data response)
           /\ useQuery.error (useQuery.after s0 entries) = None
       | inl err =>
           r = useQuery.Failure (Http.detail err)
           /\ useQuery.result (useQuery.after s0 entries) = useQuery.result s0
           /\ useQuery.error (useQuery.after s0 entries)
              = Some (Http.detail_or err "Query failed")
           /\ Http.detail_or err "Query failed" <> ""
       end.
Proof.
  pose proof (run_executeQuery env query documentIds topK) as Hrun. cbv zeta in Hrun.
  destruct (Effects.post_reply (Hook.script env) 0) as [err|response];
    eexists; eexists; eexists; (split; [exact Hrun|]); repeat split.
  now apply detail_or_nonempty.
Qed.

(** X7: [handleQuery] sends [document_ids = null] when nothing is selected
    and the selection itself otherwise, never an empty list, and always
    [top_k = 5]. *)
Theorem handleQuery_scope
    (env : Hook.Env) (selectedDocs : list string) (queryHistory : list Query.Answer)
    (query : string) :
  exists w entries h ids,
    Hook.run env (QueryPage.handleQuery selectedDocs queryHistory query) useQuery.fresh
      ≈ Ret ((w, entries), h)
    /\ Effects.log w
       = [Effects.Posted "/query/"
            {| Query.query := query; Query.document_ids := ids; Query.top_k := 5 |}]
    /\ (selectedDocs = [] -> ids = None)
    /\ (selectedDocs <> [] -> ids = Some selectedDocs)
    /\ ids <> Some [].
Proof.
  pose proof (run_handleQuery env selectedDocs queryHistory query) as Hrun.
  cbv zeta in Hrun.
  assert (Hids : (selectedDocs = [] -> QueryPage.docIds selectedDocs = None)
                 /\ (selectedDocs <> [] -> QueryPage.docIds selectedDocs = Some selectedDocs)
                 /\ QueryPage.docIds selectedDocs <> Some []).
  { destruct selectedDocs; cbn [QueryPage.docIds];
      (split; [|split]); try reflexivity; try discriminate; intros H; congruence. }
  destruct (Effects.post_reply (Hook.script env) 0);
    eexists; eexists; eexists; exists (QueryPage.docIds selectedDocs);
    (split; [exact Hrun|]); (split; [reflexivity|]); exact Hids.
Qed.

(** X8: [handleQuery] puts the answer at the head of the history when the
    query succeeds and leaves the history as it is when the query fails. *)
Theorem handleQuery_history
    (env : Hook.Env) (selectedDocs : list string) (queryHistory : list Query.Answer)
    (query : string) :
  exists w entries,
    Hook.run env (QueryPage.handleQuery selectedDocs queryHistory query) useQuery.fresh
      ≈ Ret ((w, entries),
             match Effects.post_reply (Hook.script env) 0 with
             | inr response => Http.data response :: queryHistory
             | inl _ => queryHistory
             end).
Proof.
  pose proof (run_handleQuery env selectedDocs queryHistory query) as Hrun.
  cbv zeta in Hrun.
  destruct (Effects.post_reply (Hook.script env) 0); eexists; eexists; exact Hrun.
Qed.

(* ===================================================================== *)
(** * More on the stage list                                              *)
(* ===================================================================== *)

Section StageOrder.

Import StageModel.

Lemma order_split (x : string) (before after : list string) :
  order = before ++ x :: after ->
  (before = [] /\ x = "preprocessing")
  \/ (before = ["preprocessing"] /\ x = "ocr_processing")
  \/ (before = ["preprocessing"; "ocr_processing"] /\ x = "table_extraction")
  \/ (before = ["preprocessing"; "ocr_processing"; "table_extraction"]
      /\ x = "embedding_generation").
Proof.
  unfold order. intros H.
  destruct before as [|b1 [|b2 [|b3 [|b4 before]]]]; simpl in H; inversion H; subst.
  - now left.
  - right. now left.
  - right. right. now left.
  - right. right. right. now split.
  - destruct before; discriminate.
Qed.

End StageOrder.

(** X9: while the job is at one of the four pipeline stages, the pipeline
    steps before it are completed and not active, its own step is active
    and not completed, and the pipeline steps after it are neither. *)
Theorem stage_list_running (s : Job.StatusPayload) (before after : list string) :
  StageModel.order = before ++ Job.status s :: after ->
  List.map (fun e => (StageModel.entry_isActive e, StageModel.entry_isCompleted e))
    (firstn 4 (StageModel.stage_list (Some s)))
  = repeat (false, StageModel.JsBool true) (length before)
      ++ [(true, StageModel.JsBool false)]
      ++ repeat (false, StageModel.JsBool false) (length after).
Proof.
  intros H. pose proof (order_split _ _ _ H) as Hcases.
  assert (Hlen : length StageModel.order = (length before + S (length after))%nat).
  { rewrite H, length_app. reflexivity. }
  cbn [StageModel.order length] in Hlen.
  unfold StageModel.stage_list, StageModel.render_step, StageModel.isActive,
    StageModel.isCompleted.
  destruct Hcases as [[-> E]|[[-> E]|[[-> E]|[-> E]]]]; rewrite E;
    cbn [length] in Hlen;
    (replace (length after) with 3%nat by lia)
    || (replace (length after) with 2%nat by lia)
    || (replace (length after) with 1%nat by lia)
    || (replace (length after) with 0%nat by lia);
    reflexivity.
Qed.

Lemma stage_list_running_witness :
  let s := {| Job.status := "ocr_processing"; Job.page_count := 4;
              Job.table_count := 0; Job.processing_time := None |} in
  List.map (fun e => (StageModel.entry_isActive e, StageModel.entry_isCompleted e))
    (firstn 4 (StageModel.stage_list (Some s)))
  = repeat (false, StageModel.JsBool true) 1
      ++ [(true, StageModel.JsBool false)]
      ++ repeat (false, StageModel.JsBool false) 2.
Proof.
  intros s.
  apply (stage_list_running s ["preprocessing"] ["table_extraction"; "embedding_generation"]).
  reflexivity.
Defined.

(** X10: whatever the status, at most one step of the list is active. *)
Theorem stage_list_one_active (st : option Job.StatusPayload) :
  (length (filter StageModel.entry_isActive (StageModel.stage_list st)) <= 1)%nat.
Proof.
  destruct st as [s|]; [|cbn; lia].
  unfold StageModel.stage_list, StageModel.render_step, StageModel.isActive.
  cbn [StageModel.mapi_from StageModel.steps StageModel.status filter
       StageModel.entry_isActive].
  repeat match goal with
         | |- context [String.eqb (Job.status s) ?x] =>
             destruct (String.eqb_spec (Job.status s) x) as [E|_];
             [try rewrite E; cbn; lia|]
         end.
  cbn. lia.
Qed.

(** X11: at status 'completed' every step is completed and drawn with the
    check mark, the last one included although it is also the active one. *)
Theorem stage_list_completed (s : Job.StatusPayload) :
  Job.status s = "completed" ->
  Forall (fun e => StageModel.entry_isCompleted e = StageModel.JsBool true
                   /\ StageModel.entry_marker e = StageModel.CheckMark)
    (StageModel.stage_list (Some s))
  /\ List.map StageModel.entry_isActive (StageModel.stage_list (Some s))
     = [false; false; false; false; true].
Proof.
  intros E.
  unfold StageModel.stage_list, StageModel.render_step, StageModel.isActive,
    StageModel.isCompleted.
  rewrite E. split; [|reflexivity].
  repeat constructor.
Qed.

Lemma stage_list_completed_witness :
  let s := {| Job.status := "completed"; Job.page_count := 4;
              Job.table_count := 2; Job.processing_time := Some (Num.of_Z 12) |} in
  Forall (fun e => StageModel.entry_isCompleted e = StageModel.JsBool true
                   /\ StageModel.entry_marker e = StageModel.CheckMark)
    (StageModel.stage_list (Some s))
  /\ List.map StageModel.entry_isActive (StageModel.stage_list (Some s))
     = [false; false; false; false; true].
Proof. intros s. apply (stage_list_completed s). reflexivity. Defined.

(** X12: a step never goes back from completed: if the status moves forward
    in the order preprocessing, ocr_processing, table_extraction,
    embedding_generation, completed (or stays), every step that was
    completed still is. *)
Theorem stage_list_completed_steps_grow
    (s1 s2 : Job.StatusPayload) (step : StageModel.Step) :
  In (Job.status s1) (StageModel.order ++ ["completed"]) ->
  In (Job.status s2) (StageModel.order ++ ["completed"]) ->
  (StageModel.indexOf (StageModel.order ++ ["completed"]) (Job.status s1)
   <= StageModel.indexOf (StageModel.order ++ ["completed"]) (Job.status s2))%Z ->
  StageModel.truthy (StageModel.isCompleted (Some s1) step) = true ->
  StageModel.truthy (StageModel.isCompleted (Some s2) step) = true.
Proof.
  intros H1 H2. unfold StageModel.isCompleted.
  cbn [StageModel.order app In] in H1, H2.
  destruct H1 as [<-|[<-|[<-|[<-|[<-|[]]]]]];
    destruct H2 as [<-|[<-|[<-|[<-|[<-|[]]]]]];
    cbn -[Z.gtb Z.leb StageModel.order]; intros Hle Hc;
    try reflexivity; try (exfalso; cbv in Hle; now apply Hle);
    change (StageModel.indexOf StageModel.order "preprocessing") with 0%Z in *;
    change (StageModel.indexOf StageModel.order "ocr_processing") with 1%Z in *;
    change (StageModel.indexOf StageModel.order "table_extraction") with 2%Z in *;
    change (StageModel.indexOf StageModel.order "embedding_generation") with 3%Z in *;
    rewrite Z.gtb_ltb in *; apply Z.ltb_lt in Hc; apply Z.ltb_lt; lia.
Qed.

Lemma stage_list_completed_steps_grow_witness :
  let s1 := Example.observation "ocr_processing" in
  let s2 := Example.observation "embedding_generation" in
  let step := {| StageModel.name := "Preprocessing"; StageModel.status := "preprocessing" |} in
  StageModel.truthy (StageModel.isCompleted (Some s2) step) = true.
Proof.
  intros s1 s2 step. apply (stage_list_completed_steps_grow s1 s2 step).
  - cbn. tauto.
  - cbn. tauto.
  - vm_compute. discriminate.
  - reflexivity.
Defined.

(* ===================================================================== *)
(** * More on the upload hook                                             *)
(* ===================================================================== *)

Section UploadHookFacts.

Import useUpload.

Lemma progress_values_app (l1 l2 : list Setter) :
  progress_values (l1 ++ l2) = progress_values l1 ++ progress_values l2.
Proof. apply flat_map_app. Qed.

Lemma run_app (s : State) (l1 l2 : list Setter) : run s (l1 ++ l2) = run (run s l1) l2.
Proof. apply fold_left_app. Qed.

(** The calls made while the transfer lasts only set the progress. *)
Lemma during_sets_progress (evs : list Transport.ProgressEvent) :
  flat_map (uploadService.onUploadProgress (Some (fun percent => [setProgress percent]))) evs
  = List.map (fun ev => setProgress (uploadService.percentCompleted ev)) evs.
Proof. induction evs as [|ev evs IH]; simpl; [reflexivity|now rewrite IH]. Qed.

Lemma run_progress (s : State) (ps : list Num.number) :
  run s (List.map setProgress ps)
  = {| uploading := uploading s; progress := List.last ps (progress s); error := error s |}.
Proof.
  revert s. induction ps as [|p ps IH]; intros s.
  - now destruct s.
  - cbn [List.map run fold_left]. fold (run (apply s (setProgress p)) (List.map setProgress ps)).
    rewrite IH. cbn [apply uploading progress error].
    now rewrite last_cons_default.
Qed.

End UploadHookFacts.

(** X13: when the transfer fails, whatever progress events it fired, the
    hook returns failure with the error's detail, stops uploading, sets its
    error to the detail or, without one, to 'Upload failed', and leaves the
    progress at the last percent reported (0 if none was): it is not reset
    and not forced to 100. *)
Theorem useUpload_failure
    (server : Transport.Server) (file : Transport.File)
    (evs : list Transport.ProgressEvent) (err : Http.Error) (s : useUpload.State) :
  server "/upload/" [("file", file)]
    = {| Transport.ticks := evs; Transport.outcome := inl err |} ->
  let calls := fst (useUpload.uploadDocument server file) in
  snd (useUpload.uploadDocument server file) = useUpload.Failure (Http.detail err)
  /\ useUpload.run s calls
     = {| useUpload.uploading := false;
          useUpload.progress :=
            List.last (List.map uploadService.percentCompleted evs) (Num.of_Z 0);
          useUpload.error := Some (Http.detail_or err "Upload failed") |}
  /\ Http.detail_or err "Upload failed" <> "".
Proof.
  intros Hserver calls. subst calls.
  unfold useUpload.uploadDocument, uploadService.uploadDocument, Transport.post.
  rewrite Hserver. cbn [Transport.ticks Transport.outcome fst snd].
  split; [reflexivity|]. split; [|now apply detail_or_nonempty].
  rewrite during_sets_progress, !run_app, <- List.map_map, run_progress.
  reflexivity.
Qed.

Lemma useUpload_failure_witness :
  let file := {| Transport.file_name := "scan.pdf"; Transport.file_bytes := 2097152 |} in
  let err := {| Http.message := "Request failed with status code 413";
                Http.detail := Some "File too large" |} in
  let server := fun (_ : string) (_ : Transport.FormData) =>
    {| Transport.ticks := [Transport.tick 65536 2097152; Transport.tick 1048576 2097152];
       Transport.outcome := inl err |} in
  let calls := fst (useUpload.uploadDocument server file) in
  snd (useUpload.uploadDocument server file) = useUpload.Failure (Some "File too large")
  /\ useUpload.run useUpload.initial calls
     = {| useUpload.uploading := false;
          useUpload.progress := Num.of_Z 50;
          useUpload.error := Some "File too large" |}
  /\ Http.detail_or err "Upload failed" <> "".
Proof.
  intros file err server.
  apply (useUpload_failure server file
           [Transport.tick 65536 2097152; Transport.tick 1048576 2097152] err
           useUpload.initial).
  reflexivity.
Defined.

(** X14: whatever the server does and whatever state the hook was in, after
    [uploadDocument] the hook is not uploading; after a success its error is
    null and its progress 100, after a failure its error is set; and
    [reset] then brings it back to its initial state. *)
Theorem useUpload_settles
    (server : Transport.Server) (file : Transport.File) (s : useUpload.State) :
  let calls := fst (useUpload.uploadDocument server file) in
  useUpload.uploading (useUpload.run s calls) = false
  /\ match snd (useUpload.uploadDocument server file) with
     | useUpload.Success _ =>
         useUpload.error (useUpload.run s calls) = None
         /\ useUpload.progress (useUpload.run s calls) = Num.of_Z 100
     | useUpload.Failure _ => useUpload.error (useUpload.run s calls) <> None
     end
  /\ useUpload.run s (calls ++ useUpload.reset) = useUpload.initial.
Proof.
  intros calls. subst calls.
  unfold useUpload.uploadDocument, uploadService.uploadDocument, Transport.post.
  destruct (Transport.outcome (server "/upload/" [("file", file)])) as [err|response];
    cbn [fst snd]; rewrite during_sets_progress, !run_app, <- List.map_map, run_progress;
    repeat split; discriminate.
Qed.

(* ===================================================================== *)
(** * The document filter of the query page                               *)
(* ===================================================================== *)

Section Toggle.

Import QueryPage.

Lemma includes_In (docId : string) (l : list string) :
  existsb (String.eqb docId) l = true <-> In docId l.
Proof.
  rewrite existsb_exists. split.
  - intros (x & Hx & E). apply String.eqb_eq in E. now subst.
  - intros H. exists docId. split; [exact H|apply String.eqb_refl].
Qed.

Lemma In_without (docId id : string) (l : list string) :
  In id (filter (fun x => negb (String.eqb x docId)) l) <-> In id l /\ id <> docId.
Proof.
  rewrite filter_In, negb_true_iff, String.eqb_neq. reflexivity.
Qed.

Lemma toggle_In (prev : list string) (docId id : string) :
  In id (toggleDocument prev docId)
  <-> (id = docId /\ ~ In docId prev) \/ (id <> docId /\ In id prev).
Proof.
  unfold toggleDocument.
  destruct (existsb (String.eqb docId) prev) eqn:E.
  - apply includes_In in E. rewrite In_without.
    split; [intros [H1 H2]; now right|].
    intros [[-> H]|[H1 H2]]; [contradiction|now split].
  - assert (Hn : ~ In docId prev) by (rewrite <- includes_In; congruence).
    rewrite in_app_iff. simpl. split.
    + intros [H|[<-|[]]].
      * right. split; [|exact H]. intros ->. contradiction.
      * left. now split.
    + intros [[-> _]|[_ H]]; [right; now left|now left].
Qed.

End Toggle.

(** X15: toggling a document flips whether it is selected and changes
    nothing for any other document. *)
Theorem toggleDocument_flips (prev : list string) (docId : string) :
  (In docId (QueryPage.toggleDocument prev docId) <-> ~ In docId prev)
  /\ forall id, id <> docId ->
       (In id (QueryPage.toggleDocument prev docId) <-> In id prev).
Proof.
  split.
  - rewrite toggle_In. split.
    + intros [[_ H]|[H _]]; [exact H|contradiction].
    + intros H. left. now split.
  - intros id Hid. rewrite toggle_In. split.
    + intros [[H _]|[_ H]]; [contradiction|exact H].
    + intros H. right. now split.
Qed.

(** X16: the selection never holds a document twice: starting from the
    empty selection, any sequence of toggles leaves a list without
    duplicates. *)
Theorem toggleDocument_no_duplicates (docIds : list string) :
  NoDup (fold_left QueryPage.toggleDocument docIds []).
Proof.
  assert (H : forall prev, NoDup prev -> NoDup (fold_left QueryPage.toggleDocument docIds prev)).
  { induction docIds as [|d ds IH]; intros prev Hp; [exact Hp|].
    cbn [fold_left]. apply IH. unfold QueryPage.toggleDocument.
    destruct (existsb (String.eqb d) prev) eqn:E.
    - now apply NoDup_filter.
    - apply NoDup_app; [exact Hp|repeat constructor; intros []|].
      intros x Hx [<-|[]].
      apply includes_In in Hx. congruence. }
  apply H. constructor.
Qed.

(** X17: toggling a document that is not selected twice gives back the
    selection as it was, in the same order. *)
Theorem toggleDocument_twice (prev : list string) (docId : string) :
  ~ In docId prev ->
  QueryPage.toggleDocument (QueryPage.toggleDocument prev docId) docId = prev.
Proof.
  intros Hn.
  assert (E : existsb (String.eqb docId) prev = false).
  { destruct (existsb (String.eqb docId) prev) eqn:E; [|reflexivity].
    apply includes_In in E. contradiction. }
  unfold QueryPage.toggleDocument at 2. rewrite E.
  unfold QueryPage.toggleDocument.
  rewrite existsb_app, E. cbn [existsb orb]. rewrite String.eqb_refl. cbn [orb].
  rewrite filter_app. cbn [filter]. rewrite String.eqb_refl. cbn [negb].
  rewrite app_nil_r. apply forallb_filter_id.
  apply forallb_forall. intros x Hx. apply negb_true_iff, String.eqb_neq.
  intros ->. contradiction.
Qed.

Lemma toggleDocument_twice_witness :
  QueryPage.toggleDocument (QueryPage.toggleDocument ["d1"; "d2"] "d3") "d3" = ["d1"; "d2"].
Proof.
  apply (toggleDocument_twice ["d1"; "d2"] "d3").
  intros [H|[H|[]]]; discriminate.
Defined.

(* ===================================================================== *)
(** * Properties of the sessions                                          *)
(* ===================================================================== *)

Section StorageFacts.

Import LocalStorage.

Lemma getItem_removeItem_same (st : t) (key : string) :
  getItem (removeItem st key) key = None.
Proof.
  induction st as [|[k v] st IH]; [reflexivity|]. cbn [removeItem filter fst].
  destruct (String.eqb k key) eqn:E; cbn [negb]; [exact IH|].
  cbn [getItem]. now rewrite E.
Qed.

Lemma getItem_removeItem_other (st : t) (key other : string) :
  other <> key -> getItem (removeItem st key) other = getItem st other.
Proof.
  intros Hne. induction st as [|[k v] st IH]; [reflexivity|].
  cbn [removeItem filter fst].
  destruct (String.eqb_spec k key) as [->|Hk]; cbn [negb getItem].
  - destruct (String.eqb_spec key other) as [->|_]; [contradiction|exact IH].
  - destruct (String.eqb k other); [reflexivity|exact IH].
Qed.

Lemma getItem_setItem_same (st : t) (key value : string) :
  getItem (setItem st key value) key = Some value.
Proof. unfold setItem. cbn [getItem]. now rewrite String.eqb_refl. Qed.

Lemma getItem_setItem_other (st : t) (key value other : string) :
  other <> key -> getItem (setItem st key value) other = getItem st other.
Proof.
  intros Hne. unfold setItem. cbn [getItem].
  destruct (String.eqb_spec key other) as [->|_]; [contradiction|].
  now apply getItem_removeItem_other.
Qed.

End StorageFacts.

Section SessionFacts.

Import Session.

Local Arguments LocalStorage.getItem : simpl never.
Local Arguments LocalStorage.removeItem : simpl never.
Local Arguments LocalStorage.setItem : simpl never.

Variable P : Payloads.
Variable server : Server P.

(** X18: logging out never throws, whatever the server answers to the one
    request it makes; afterwards the storage holds neither the token nor
    the user and every other entry as before, [authService.isAuthenticated()]
    answers false and [getStoredUser()] null, and the context has no user
    and is not authenticated. *)
Theorem logout_always_clears (w : World P) :
  let w' := fst (AuthProvider_logout P server w) in
  snd (AuthProvider_logout P server w) = inr tt
  /\ LocalStorage.getItem (storage P w') "access_token" = None
  /\ LocalStorage.getItem (storage P w') "user" = None
  /\ (forall key, key <> "access_token" -> key <> "user" ->
        LocalStorage.getItem (storage P w') key = LocalStorage.getItem (storage P w) key)
  /\ requests P w' = requests P w ++ [PostLogout]
  /\ snd (authService_isAuthenticated P w') = inr false
  /\ snd (authService_getStoredUser P w') = inr None
  /\ user P (context P w') = None
  /\ isAuthenticated P (context P w') = false.
Proof.
  unfold AuthProvider_logout, authService_logout, finally, try_catch, bind, request, ret,
    console_error, modify, setUser, setIsAuthenticated.
  cbn [fst snd].
  assert (Hst : forall st,
    LocalStorage.getItem
      (LocalStorage.removeItem (LocalStorage.removeItem st "access_token") "user")
      "access_token" = None
    /\ LocalStorage.getItem
         (LocalStorage.removeItem (LocalStorage.removeItem st "access_token") "user")
         "user" = None
    /\ forall key, key <> "access_token" -> key <> "user" ->
         LocalStorage.getItem
           (LocalStorage.removeItem (LocalStorage.removeItem st "access_token") "user") key
         = LocalStorage.getItem st key).
  { intros st. split; [|split].
    - rewrite getItem_removeItem_other by discriminate. apply getItem_removeItem_same.
    - apply getItem_removeItem_same.
    - intros key H1 H2. now rewrite !getItem_removeItem_other. }
  destruct (logout_reply P server (storage P w)) as [err|response];
    destruct (Hst (storage P w)) as (H1 & H2 & H3);
    unfold authService_isAuthenticated, authService_getStoredUser, bind,
      localStorage_getItem, ret;
    cbn; rewrite H1, H2; cbn; repeat split; assumption.
Qed.

(** X19: a login answered with a token and then with the user ends in
    success, the context holding the user and being authenticated; and a
    page reload after it (the effect on mount reading the storage back)
    ends in the same authenticated context. *)
Theorem login_survives_reload (w : World P) (email password token : string) (u : User P) :
  login_reply P server email password = inr {| Http.data := token |} ->
  me_reply P server (LocalStorage.setItem (storage P w) "access_token" token)
    = inr {| Http.data := u |} ->
  token <> "" ->
  stringify P u <> "" ->
  parse P (stringify P u) = inr (Some u) ->
  let w1 := fst (AuthProvider_login P server email password w) in
  snd (AuthProvider_login P server email password w) = inr Success
  /\ user P (context P w1) = Some u
  /\ isAuthenticated P (context P w1) = true
  /\ initAuth P (reloaded P w1)
     = ({| storage := storage P w1;
           context := {| user := Some u; loading := false; isAuthenticated := true |};
           requests := requests P w1; console := console P w1 |},
        inr tt).
Proof.
  intros Hlogin Hme Htoken Hjson Hparse.
  unfold AuthProvider_login, authService_login, authService_getCurrentUser,
    try_catch, bind, request, ret, localStorage_setItem, modify, setUser,
    setIsAuthenticated.
  cbn. rewrite Hlogin. cbn. rewrite Hme. cbn.
  repeat split.
  unfold initAuth, authService_getStoredUser, authService_isAuthenticated, bind,
    localStorage_getItem, ret, reloaded, setUser, setIsAuthenticated, setLoading, modify.
  cbn. rewrite getItem_setItem_same. cbn.
  apply String.eqb_neq in Hjson. rewrite Hjson. cbn. rewrite Hparse. cbn.
  rewrite getItem_setItem_other by discriminate.
  rewrite getItem_setItem_same. cbn.
  apply String.eqb_neq in Htoken. rewrite Htoken. reflexivity.
Qed.

(** X20: when the login request succeeds but the request for the user that
    follows fails, the login as a whole fails, with the error's detail or
    'Login failed', and the context is left as it was; yet the token has
    already been stored (so [authService.isAuthenticated()] answers true),
    while the stored user is whatever it was before. *)
Theorem login_leaves_token_behind (w : World P) (email password token : string)
    (err : Http.Error) :
  login_reply P server email password = inr {| Http.data := token |} ->
  me_reply P server (LocalStorage.setItem (storage P w) "access_token" token) = inl err ->
  let w1 := fst (AuthProvider_login P server email password w) in
  snd (AuthProvider_login P server email password w)
    = inr (Failure (Http.detail_or err "Login failed"))
  /\ context P w1 = context P w
  /\ LocalStorage.getItem (storage P w1) "access_token" = Some token
  /\ LocalStorage.getItem (storage P w1) "user" = LocalStorage.getItem (storage P w) "user"
  /\ (token <> "" -> snd (authService_isAuthenticated P w1) = inr true).
Proof.
  intros Hlogin Hme.
  unfold AuthProvider_login, authService_login, authService_getCurrentUser,
    try_catch, bind, request, ret, localStorage_setItem, modify.
  cbn. rewrite Hlogin. cbn. rewrite Hme. cbn.
  split; [reflexivity|]. split; [reflexivity|].
  split; [apply getItem_setItem_same|].
  split; [apply getItem_setItem_other; discriminate|].
  intros Htoken.
  unfold authService_isAuthenticated, bind, localStorage_getItem, ret. cbn.
  rewrite getItem_setItem_same. cbn.
  apply String.eqb_neq in Htoken. now rewrite Htoken.
Qed.

(** X21: a guest session that the server grants sets the guest user but
    leaves the context not authenticated and stores nothing; so the route
    guard, once loading is over, sends the guest to /login. *)
Theorem guest_is_sent_to_login (w : World P) (g : GuestData P) :
  guest_reply P server = inr {| Http.data := g |} ->
  loading P (context P w) = false ->
  let w1 := fst (AuthProvider_createGuestSession P server w) in
  snd (AuthProvider_createGuestSession P server w) = inr Success
  /\ user P (context P w1) = Some (as_guest P g)
  /\ isAuthenticated P (context P w1) = false
  /\ storage P w1 = storage P w
  /\ ProtectedRoute P (context P w1) = Navigate "/login".
Proof.
  intros Hguest Hloading.
  unfold AuthProvider_createGuestSession, authService_createGuestSession,
    try_catch, bind, request, ret, setUser, setIsAuthenticated, modify.
  cbn. rewrite Hguest. cbn. repeat split.
  unfold ProtectedRoute. cbn. now rewrite Hloading.
Qed.

(** X22: when the stored user is not valid JSON, [getStoredUser] throws
    and the effect on mount lets the error through: it ends with that
    error before reaching [setLoading(false)], having called no setter and
    touched neither the storage nor the console, so [loading] is still
    true. *)
Theorem initAuth_corrupt_user (w : World P) (text : string) (err : Http.Error) :
  context P w = mounted P ->
  LocalStorage.getItem (storage P w) "user" = Some text ->
  text <> "" ->
  parse P text = inl err ->
  snd (authService_getStoredUser P w) = inl err
  /\ initAuth P w = (w, inl err)
  /\ loading P (context P (fst (initAuth P w))) = true.
Proof.
  intros Hctx Huser Htext Hparse.
  apply String.eqb_neq in Htext.
  assert (G : authService_getStoredUser P w = (w, inl err)).
  { unfold authService_getStoredUser, bind, localStorage_getItem, ret, throw.
    cbn. rewrite Huser. cbn. rewrite Htext. cbn. now rewrite Hparse. }
  assert (E : initAuth P w = (w, inl err)).
  { unfold initAuth, bind. now rewrite G. }
  split; [now rewrite G|]. split; [exact E|]. rewrite E. cbn [fst]. now rewrite Hctx.
Qed.

(** X23: the effect on mount authenticates only with both entries: if the
    token or the user is missing from the storage (and the stored user, if
    any, is valid JSON), it ends with loading over, no user and not
    authenticated. *)
Theorem initAuth_needs_both (w : World P) :
  context P w = mounted P ->
  (forall text, LocalStorage.getItem (storage P w) "user" = Some text ->
     exists value, parse P text = inr value) ->
  LocalStorage.getItem (storage P w) "access_token" = None
  \/ LocalStorage.getItem (storage P w) "user" = None ->
  initAuth P w
  = ({| storage := storage P w;
        context := {| user := None; loading := false; isAuthenticated := false |};
        requests := requests P w; console := console P w |},
     inr tt).
Proof.
  intros Hctx Hvalid Hmissing.
  unfold initAuth, authService_getStoredUser, authService_isAuthenticated, bind,
    localStorage_getItem, ret, throw, setUser, setIsAuthenticated, setLoading, modify,
    with_context.
  cbn.
  destruct (LocalStorage.getItem (storage P w) "user") as [text|] eqn:Hu.
  - destruct Hmissing as [Ht|Hn]; [|discriminate].
    cbn. destruct (String.eqb text ""); cbn; [now rewrite Hctx|].
    destruct (Hvalid text eq_refl) as [value ->]. cbn.
    destruct value; cbn; rewrite ?Ht; cbn; now rewrite Hctx.
  - cbn. now rewrite Hctx.
Qed.

End SessionFacts.

Lemma login_survives_reload_witness :
  let w := Session.page [] in
  let w1 := fst (Session.AuthProvider_login Session.sample Session.helpful "ada@example.org" "pw" w) in
  snd (Session.AuthProvider_login Session.sample Session.helpful "ada@example.org" "pw" w)
    = inr Session.Success
  /\ Session.user Session.sample (Session.context Session.sample w1) = Some "ada"
  /\ Session.isAuthenticated Session.sample (Session.context Session.sample w1) = true
  /\ Session.initAuth Session.sample (Session.reloaded Session.sample w1)
     = (Session.Build_World Session.sample
          (Session.storage Session.sample w1)
          (Session.Build_Context Session.sample (Some "ada") false true)
          (Session.requests Session.sample w1)
          (Session.console Session.sample w1),
        inr tt).
Proof.
  intros w.
  apply (login_survives_reload Session.sample Session.helpful w "ada@example.org" "pw"
           "t0k3n" "ada").
  - reflexivity.
  - reflexivity.
  - discriminate.
  - discriminate.
  - reflexivity.
Defined.

Lemma login_leaves_token_behind_witness :
  let w := Session.page [("user", "grace")] in
  let w1 := fst (Session.AuthProvider_login Session.sample Session.forgetful
                   "ada@example.org" "pw" w) in
  snd (Session.AuthProvider_login Session.sample Session.forgetful "ada@example.org" "pw" w)
    = inr (Session.Failure "Internal error")
  /\ Session.context Session.sample w1 = Session.context Session.sample w
  /\ LocalStorage.getItem (Session.storage Session.sample w1) "access_token" = Some "t0k3n"
  /\ LocalStorage.getItem (Session.storage Session.sample w1) "user"
     = LocalStorage.getItem (Session.storage Session.sample w) "user"
  /\ ("t0k3n" <> "" ->
      snd (Session.authService_isAuthenticated Session.sample w1) = inr true).
Proof.
  intros w.
  apply (login_leaves_token_behind Session.sample Session.forgetful w "ada@example.org" "pw"
           "t0k3n"
           {| Http.message := "Request failed with status code 500";
              Http.detail := Some "Internal error" |});
    reflexivity.
Defined.

Lemma guest_is_sent_to_login_witness :
  let w := Session.Build_World Session.sample []
             (Session.Build_Context Session.sample None false false) [] [] in
  let w1 := fst (Session.AuthProvider_createGuestSession Session.sample Session.helpful w) in
  snd (Session.AuthProvider_createGuestSession Session.sample Session.helpful w)
    = inr Session.Success
  /\ Session.user Session.sample (Session.context Session.sample w1) = Some "guest-7"
  /\ Session.isAuthenticated Session.sample (Session.context Session.sample w1) = false
  /\ Session.storage Session.sample w1 = Session.storage Session.sample w
  /\ Session.ProtectedRoute Session.sample (Session.context Session.sample w1)
     = Session.Navigate "/login".
Proof.
  intros w.
  apply (guest_is_sent_to_login Session.sample Session.helpful w "guest-7"); reflexivity.
Defined.

Lemma initAuth_corrupt_user_witness :
  let w := Session.page [("access_token", "t0k3n"); ("user", "{")] in
  let err := {| Http.message := "Unexpected end of JSON input"; Http.detail := None |} in
  snd (Session.authService_getStoredUser Session.sample w) = inl err
  /\ Session.initAuth Session.sample w = (w, inl err)
  /\ Session.loading Session.sample
       (Session.context Session.sample (fst (Session.initAuth Session.sample w)))
     = true.
Proof.
  intros w err.
  apply (initAuth_corrupt_user Session.sample w "{" err).
  - reflexivity.
  - reflexivity.
  - discriminate.
  - reflexivity.
Defined.

Lemma initAuth_needs_both_witness :
  let w := Session.page [("access_token", "t0k3n")] in
  Session.initAuth Session.sample w
  = (Session.Build_World Session.sample
       (Session.storage Session.sample w)
       (Session.Build_Context Session.sample None false false)
       (Session.requests Session.sample w)
       (Session.console Session.sample w),
     inr tt).
Proof.
  intros w.
  apply (initAuth_needs_both Session.sample w).
  - reflexivity.
  - intros text H. discriminate.
  - right. reflexivity.
Defined.

(* ===================================================================== *)
(** * What the progress bar can show                                      *)
(* ===================================================================== *)

Section ProgressBarFacts.

Import useUpload.

Lemma last_default_or_In {A : Type} (l : list A) (d : A) :
  List.last l d = d \/ In (List.last l d) l.
Proof.
  revert d. induction l as [|x l IH]; intros d; [now left|]. right.
  rewrite last_cons_default. destruct (IH x) as [->|H]; [now left|now right].
Qed.

Lemma In_firstn {A : Type} (n : nat) (l : list A) (x : A) : In x (firstn n l) -> In x l.
Proof.
  intros H. rewrite <- (firstn_skipn n l). apply in_or_app. now left.
Qed.

(** Once [setUploading(false)] has been called, the two calls that may
    follow leave it false. *)
Lemma closing_calls_not_uploading (s : State) (j : nat) (c : Setter) :
  (forall b, c <> setUploading b) ->
  uploading (run s (firstn (S j) [setUploading false; c])) = false.
Proof.
  intros Hc. destruct j as [|[|j]]; cbn; try reflexivity;
    destruct c; try reflexivity; exfalso; now apply (Hc b).
Qed.

(** The calls of an upload: the three that open it, one [setProgress] per
    progress event, [setUploading(false)], and one more that is not a
    [setUploading]. *)
Lemma uploadDocument_calls (server : Transport.Server) (file : Transport.File) :
  exists c,
    (forall b, c <> setUploading b)
    /\ fst (uploadDocument server file)
       = [setUploading true; setError None; setProgress (Num.of_Z 0)]
           ++ List.map setProgress
                (List.map uploadService.percentCompleted
                   (Transport.ticks (server "/upload/" [("file", file)])))
           ++ [setUploading false; c].
Proof.
  unfold uploadDocument, uploadService.uploadDocument, Transport.post.
  rewrite during_sets_progress, <- List.map_map.
  destruct (Transport.outcome (server "/upload/" [("file", file)])) as [err|response];
    eexists; (split; [|reflexivity]); intros b; discriminate.
Qed.

End ProgressBarFacts.

(** X24: at no point of an upload started from the hook's initial state is
    the progress bar rendered with the 100 that the hook forces at the end,
    or with an error: whenever the hook is uploading, its error is null
    and its progress is 0 or a percent computed from one of the transfer's
    progress events. *)
Theorem UploadPage_bar_shows_reported_progress
    (server : Transport.Server) (file : Transport.File) (n : nat)
    (p : Num.number) (e : option string) :
  let calls := fst (useUpload.uploadDocument server file) in
  UploadPage.progress_bar (useUpload.run useUpload.initial (firstn n calls)) = Some (p, e) ->
  e = None
  /\ (p = Num.of_Z 0
      \/ In p (List.map uploadService.percentCompleted
                 (Transport.ticks (server "/upload/" [("file", file)])))).
Proof.
  intros calls. subst calls.
  destruct (uploadDocument_calls server file) as (c & Hc & ->).
  set (evs := Transport.ticks (server "/upload/" [("file", file)])).
  set (ps := List.map uploadService.percentCompleted evs).
  unfold UploadPage.progress_bar.
  destruct n as [|[|[|n]]]; cbn [firstn app].
  - cbn. discriminate.
  - cbn. intros H. inversion H; subst. split; [reflexivity|now left].
  - cbn. intros H. inversion H; subst. split; [reflexivity|now left].
  - rewrite firstn_app, length_map.
    change (?a :: ?b :: ?c :: ?l ++ ?r) with ([a; b; c] ++ l ++ r).
    rewrite !run_app, firstn_map, run_progress.
    destruct (n - length ps)%nat as [|j] eqn:Hj.
    + cbn. intros H. inversion H; subst. split; [reflexivity|].
      destruct (last_default_or_In (firstn n ps) (Num.of_Z 0)) as [->|Hin];
        [now left|right]. now apply In_firstn in Hin.
    + rewrite closing_calls_not_uploading by exact Hc. discriminate.
Qed.

Lemma UploadPage_bar_shows_reported_progress_witness :
  let file := {| Transport.file_name := "scan.pdf"; Transport.file_bytes := 2097152 |} in
  let server := fun (_ : string) (_ : Transport.FormData) =>
    {| Transport.ticks := [Transport.tick 1048576 2097152; Transport.tick 2097152 2097152];
       Transport.outcome :=
         inr {| Http.data := {| Job.id := "d1"; Job.filename := "scan.pdf";
                                Job.file_size := 2097152;
                                Job.job_status := "uploaded" |} |} |} in
  @None string = None
  /\ (Num.of_Z 50 = Num.of_Z 0
      \/ In (Num.of_Z 50)
           (List.map uploadService.percentCompleted
              (Transport.ticks (server "/upload/" [("file", file)])))).
Proof.
  intros file server.
  apply (UploadPage_bar_shows_reported_progress server file 4 (Num.of_Z 50) None).
  reflexivity.
Defined.
